(** * script-runner: the job runner of [src/runner.js]

    A shallow embedding of the [ScriptRunner] class: the validator, the job
    store, the log sink, the scheduler and the executor, followed by the
    properties the specification states about them and by further
    properties of the same code: the quoting of the command line, the
    admission of a submitted job, the queue, cancellation and timeouts, the
    previews, restarts, and the reading of a request body in
    [src/server.js].

    The runner is single threaded: every callback of the Node event loop
    (a submit, a cancel, a chunk of child output, a timer, a child exit)
    runs until it returns or an exception leaves it.  One callback is one
    [Event]; the runner is a deterministic function of its state, the event
    and what the environment answers during the callback ([Env]).

    Job objects are shared between the job map, the queue and the closures
    of [executeJob]; they live in a [heap] and are shared by reference.

    What the embedding leaves to the environment:
    - the clock does not advance during a callback ([now]);
    - [fs.mkdirSync], [fs.openSync], [spawn] and [fs.writeSync] succeed or
      throw as the environment says, and writing the job store file
      succeeds or fails as a whole;
    - a string is held as the bytes of its UTF-8 encoding, and its
      [length] counts UTF-16 code units ([js_length]);
    - the signals [terminateChildProcess] sends and the promise a sync
      submit waits on are outputs: they change no field of the runner. *)

From Stdlib Require Import ZArith Ascii String List Bool Lia.
From Stdlib Require Import Strings.Byte.
From stdpp Require Import base option list gmap strings pretty.

Import ListNotations.
Local Open Scope string_scope.
Local Open Scope Z_scope.
Local Open Scope list_scope.

(** ** Values of requests *)

(** A JavaScript value as a JSON request body can carry it, with
    [undefined] for an absent key. *)
#[warnings="-register-all"]
Inductive jsval :=
| JUndefined
| JNull
| JBool (b : bool)
| JNum (n : Z)
| JStr (s : string)
| JArr (items : list jsval)
| JObj.

(** A numeric paging parameter: absent, an integer, or anything for which
    [Number.isInteger] is false (a fraction, NaN, an infinity, a
    non-number). *)
Inductive numarg :=
| NumUndefined
| NumInt (n : Z)
| NumNotInteger.

(** ** What Node's own library does

    [Buffer.toString("utf8")], [Buffer.from(string)], the conversion of a
    value inside a template literal, [new RegExp(p)] followed by [test],
    [path.join] and [path.dirname] are not code of this repository. *)

Class NodeRuntime := {
  (** [buf.toString("utf8")] *)
  utf8_decode : list byte -> string;
  (** [Buffer.from(s)] *)
  utf8_encode : string -> list byte;
  (** the string a template literal puts in place of a value *)
  js_String : jsval -> string;
  (** [new RegExp(p)]: [None] when the constructor throws a SyntaxError,
      otherwise the [test] method of the compiled expression *)
  RegExp : string -> option (string -> bool);
  path_join : string -> string -> string;
  path_dirname : string -> string
}.

Definition STATUS_QUEUED := "queued".
Definition STATUS_RUNNING := "running".
Definition STATUS_SUCCEEDED := "succeeded".
Definition STATUS_FAILED := "failed".
Definition STATUS_TIMED_OUT := "timed_out".
Definition STATUS_CANCELED := "canceled".

(** Truthiness of a value that is a string, [null] or [undefined]. *)
Definition truthy_str (o : option string) : bool :=
  match o with
  | Some s => negb (String.eqb s "")
  | None => false
  end.

(** [s.length], the number of UTF-16 code units of a string, read off the
    bytes of its UTF-8 encoding: a continuation byte ([10xxxxxx]) adds
    nothing, the first byte of a four-byte sequence ([11110xxx], a code
    point above U+FFFF, which takes a surrogate pair) adds two, any other
    first byte adds one. *)
Definition utf16_units (c : ascii) : Z :=
  let n := Z.of_N (N_of_ascii c) in
  if (128 <=? n) && (n <? 192) then 0
  else if 240 <=? n then 2
  else 1.

Fixpoint js_length (s : string) : Z :=
  match s with
  | EmptyString => 0
  | String c s' => utf16_units c + js_length s'
  end.

(** ** Configuration *)

Record ArgsPolicy := {
  maxItems : Z;
  itemPattern : string;
  itemMaxLength : Z
}.

Record Script := {
  script_id : string;
  script_path : string;
  script_mode : string;
  timeoutSec : Z;
  script_args : ArgsPolicy
}.

Record RunnerConfig := {
  cfg_maxConcurrent : Z;
  cfg_defaultMode : string;
  cfg_jobStoreFile : string;
  cfg_logsDir : option string;
  cfg_maxLogBytesPerStream : option Z;
  cfg_previewMaxBytes : option Z
}.

Record Config := {
  scripts : list Script;
  runner : RunnerConfig
}.

(** [v || d] for a number that may be absent: [0] is falsy. *)
Definition num_or (v : option Z) (d : Z) : Z :=
  match v with
  | Some n => if n =? 0 then d else n
  | None => d
  end.

(** [v || d] for a string that may be absent. *)
Definition str_or (v : option string) (d : string) : string :=
  if truthy_str v then default d v else d.

(** ** Jobs *)

(** Timestamps are the millisecond value of the ISO-8601 string the code
    stores: [nowIso()] is the string of [Date.now()] and [Date.parse]
    gives the number back. *)
Record Job := {
  jobId : string;
  scriptId : string;
  mode : string;
  args : jsval;
  status : string;
  code : option Z;
  startedAt : option Z;
  endedAt : option Z;
  durationMs : option Z;
  createdAt : option Z;
  cancelRequested : bool;
  stdoutRef : option string;
  stderrRef : option string;
  stdoutSize : Z;
  stderrSize : Z;
  stdoutTruncated : bool;
  stderrTruncated : bool;
  stdoutPreview : string;
  stderrPreview : string
}.

(** The object [serializeJob] and [serializeJobForStore] build, which is
    also the shape of an entry of the job store file.  [snap_jobId] is
    [None] when the key is absent, which only an entry read from disk can
    be. *)
Record JobSnapshot := {
  snap_jobId : option string;
  snap_scriptId : string;
  snap_status : string;
  snap_code : option Z;
  snap_startedAt : option Z;
  snap_endedAt : option Z;
  snap_durationMs : option Z;
  snap_createdAt : option Z;
  snap_mode : string;
  snap_stdoutRef : option string;
  snap_stderrRef : option string;
  snap_stdoutSize : Z;
  snap_stderrSize : Z;
  snap_stdoutTruncated : bool;
  snap_stderrTruncated : bool;
  snap_stdoutPreview : string;
  snap_stderrPreview : string
}.

Definition serializeJob (job : Job) : JobSnapshot :=
  {| snap_jobId := Some (jobId job);
     snap_scriptId := scriptId job;
     snap_status := status job;
     snap_code := code job;
     snap_startedAt := startedAt job;
     snap_endedAt := endedAt job;
     snap_durationMs := durationMs job;
     snap_createdAt := createdAt job;
     snap_mode := mode job;
     snap_stdoutRef := stdoutRef job;
     snap_stderrRef := stderrRef job;
     snap_stdoutSize := stdoutSize job;
     snap_stderrSize := stderrSize job;
     snap_stdoutTruncated := stdoutTruncated job;
     snap_stderrTruncated := stderrTruncated job;
     snap_stdoutPreview := stdoutPreview job;
     snap_stderrPreview := stderrPreview job |}.

Definition serializeJobForStore (job : Job) : JobSnapshot := serializeJob job.

(** Field assignments [job.f = v]. *)
Definition set_status (v : string) (j : Job) : Job :=
  {| jobId := jobId j; scriptId := scriptId j; mode := mode j; args := args j;
     status := v; code := code j; startedAt := startedAt j;
     endedAt := endedAt j; durationMs := durationMs j;
     createdAt := createdAt j; cancelRequested := cancelRequested j;
     stdoutRef := stdoutRef j; stderrRef := stderrRef j;
     stdoutSize := stdoutSize j; stderrSize := stderrSize j;
     stdoutTruncated := stdoutTruncated j;
     stderrTruncated := stderrTruncated j;
     stdoutPreview := stdoutPreview j; stderrPreview := stderrPreview j |}.

Definition set_code (v : option Z) (j : Job) : Job :=
  {| jobId := jobId j; scriptId := scriptId j; mode := mode j; args := args j;
     status := status j; code := v; startedAt := startedAt j;
     endedAt := endedAt j; durationMs := durationMs j;
     createdAt := createdAt j; cancelRequested := cancelRequested j;
     stdoutRef := stdoutRef j; stderrRef := stderrRef j;
     stdoutSize := stdoutSize j; stderrSize := stderrSize j;
     stdoutTruncated := stdoutTruncated j;
     stderrTruncated := stderrTruncated j;
     stdoutPreview := stdoutPreview j; stderrPreview := stderrPreview j |}.

Definition set_startedAt (v : option Z) (j : Job) : Job :=
  {| jobId := jobId j; scriptId := scriptId j; mode := mode j; args := args j;
     status := status j; code := code j; startedAt := v;
     endedAt := endedAt j; durationMs := durationMs j;
     createdAt := createdAt j; cancelRequested := cancelRequested j;
     stdoutRef := stdoutRef j; stderrRef := stderrRef j;
     stdoutSize := stdoutSize j; stderrSize := stderrSize j;
     stdoutTruncated := stdoutTruncated j;
     stderrTruncated := stderrTruncated j;
     stdoutPreview := stdoutPreview j; stderrPreview := stderrPreview j |}.

Definition set_endedAt (v : option Z) (j : Job) : Job :=
  {| jobId := jobId j; scriptId := scriptId j; mode := mode j; args := args j;
     status := status j; code := code j; startedAt := startedAt j;
     endedAt := v; durationMs := durationMs j;
     createdAt := createdAt j; cancelRequested := cancelRequested j;
     stdoutRef := stdoutRef j; stderrRef := stderrRef j;
     stdoutSize := stdoutSize j; stderrSize := stderrSize j;
     stdoutTruncated := stdoutTruncated j;
     stderrTruncated := stderrTruncated j;
     stdoutPreview := stdoutPreview j; stderrPreview := stderrPreview j |}.

Definition set_durationMs (v : option Z) (j : Job) : Job :=
  {| jobId := jobId j; scriptId := scriptId j; mode := mode j; args := args j;
     status := status j; code := code j; startedAt := startedAt j;
     endedAt := endedAt j; durationMs := v;
     createdAt := createdAt j; cancelRequested := cancelRequested j;
     stdoutRef := stdoutRef j; stderrRef := stderrRef j;
     stdoutSize := stdoutSize j; stderrSize := stderrSize j;
     stdoutTruncated := stdoutTruncated j;
     stderrTruncated := stderrTruncated j;
     stdoutPreview := stdoutPreview j; stderrPreview := stderrPreview j |}.

Definition set_cancelRequested (v : bool) (j : Job) : Job :=
  {| jobId := jobId j; scriptId := scriptId j; mode := mode j; args := args j;
     status := status j; code := code j; startedAt := startedAt j;
     endedAt := endedAt j; durationMs := durationMs j;
     createdAt := createdAt j; cancelRequested := v;
     stdoutRef := stdoutRef j; stderrRef := stderrRef j;
     stdoutSize := stdoutSize j; stderrSize := stderrSize j;
     stdoutTruncated := stdoutTruncated j;
     stderrTruncated := stderrTruncated j;
     stdoutPreview := stdoutPreview j; stderrPreview := stderrPreview j |}.

Definition set_stdoutPreview (v : string) (j : Job) : Job :=
  {| jobId := jobId j; scriptId := scriptId j; mode := mode j; args := args j;
     status := status j; code := code j; startedAt := startedAt j;
     endedAt := endedAt j; durationMs := durationMs j;
     createdAt := createdAt j; cancelRequested := cancelRequested j;
     stdoutRef := stdoutRef j; stderrRef := stderrRef j;
     stdoutSize := stdoutSize j; stderrSize := stderrSize j;
     stdoutTruncated := stdoutTruncated j;
     stderrTruncated := stderrTruncated j;
     stdoutPreview := v; stderrPreview := stderrPreview j |}.

Definition set_stderrPreview (v : string) (j : Job) : Job :=
  {| jobId := jobId j; scriptId := scriptId j; mode := mode j; args := args j;
     status := status j; code := code j; startedAt := startedAt j;
     endedAt := endedAt j; durationMs := durationMs j;
     createdAt := createdAt j; cancelRequested := cancelRequested j;
     stdoutRef := stdoutRef j; stderrRef := stderrRef j;
     stdoutSize := stdoutSize j; stderrSize := stderrSize j;
     stdoutTruncated := stdoutTruncated j;
     stderrTruncated := stderrTruncated j;
     stdoutPreview := stdoutPreview j; stderrPreview := v |}.

(** The two output streams of a child; [sizeKey] and [truncatedKey] of
    [writeLogChunk] are ["stdoutSize"], ["stdoutTruncated"] for [Stdout]
    and the stderr pair for [Stderr]. *)
Inductive Stream := Stdout | Stderr.

Definition get_size (k : Stream) (j : Job) : Z :=
  match k with Stdout => stdoutSize j | Stderr => stderrSize j end.

Definition get_truncated (k : Stream) (j : Job) : bool :=
  match k with Stdout => stdoutTruncated j | Stderr => stderrTruncated j end.

Definition get_ref (k : Stream) (j : Job) : option string :=
  match k with Stdout => stdoutRef j | Stderr => stderrRef j end.

Definition set_size (k : Stream) (v : Z) (j : Job) : Job :=
  {| jobId := jobId j; scriptId := scriptId j; mode := mode j; args := args j;
     status := status j; code := code j; startedAt := startedAt j;
     endedAt := endedAt j; durationMs := durationMs j;
     createdAt := createdAt j; cancelRequested := cancelRequested j;
     stdoutRef := stdoutRef j; stderrRef := stderrRef j;
     stdoutSize := match k with Stdout => v | Stderr => stdoutSize j end;
     stderrSize := match k with Stdout => stderrSize j | Stderr => v end;
     stdoutTruncated := stdoutTruncated j;
     stderrTruncated := stderrTruncated j;
     stdoutPreview := stdoutPreview j; stderrPreview := stderrPreview j |}.

Definition set_truncated (k : Stream) (v : bool) (j : Job) : Job :=
  {| jobId := jobId j; scriptId := scriptId j; mode := mode j; args := args j;
     status := status j; code := code j; startedAt := startedAt j;
     endedAt := endedAt j; durationMs := durationMs j;
     createdAt := createdAt j; cancelRequested := cancelRequested j;
     stdoutRef := stdoutRef j; stderrRef := stderrRef j;
     stdoutSize := stdoutSize j; stderrSize := stderrSize j;
     stdoutTruncated :=
       match k with Stdout => v | Stderr => stdoutTruncated j end;
     stderrTruncated :=
       match k with Stdout => stderrTruncated j | Stderr => v end;
     stdoutPreview := stdoutPreview j; stderrPreview := stderrPreview j |}.

(** [status] is one of the four terminal values (the test of [cancelJob]). *)
Definition is_terminal (s : string) : bool :=
  String.eqb s STATUS_SUCCEEDED || String.eqb s STATUS_FAILED
  || String.eqb s STATUS_TIMED_OUT || String.eqb s STATUS_CANCELED.

(** ** Buffers *)

Definition appendTailBuffer (current chunk : list byte) (maxBytes : Z)
  : list byte :=
  if maxBytes <=? 0 then []
  else
    let combined := current ++ chunk in
    if Z.of_nat (length combined) <=? maxBytes then combined
    else drop (Z.to_nat (Z.of_nat (length combined) - maxBytes)) combined.

(** ** The state of a runner *)

(** The variables the closures of one [executeJob] call share.  A file
    descriptor is the path of the file it was opened on, [None] is [null].
    [timerPending] says that [timeoutHandle] holds a timer that has neither
    fired nor been cleared. *)
Record Exec := {
  startedMs : Z;
  stdoutFd : option string;
  stderrFd : option string;
  stdoutPreviewBuf : list byte;
  stderrPreviewBuf : list byte;
  timerPending : bool;
  timedOut : bool;
  finished : bool
}.

(** A job object.  [exec] is [Some] from the moment [executeJob] has
    spawned the child and set [job._child]. *)
Record Cell := {
  job : Job;
  exec : option Exec
}.

Inductive StoreEntry :=
| EntryNotObject
| EntryObject (r : JobSnapshot).

(** What the job store file holds. *)
Inductive StoreFile :=
| StoreMissing
| StoreUnreadable
| StoreNotArray
| StoreArray (entries : list StoreEntry).

(** [r_seq] is the field [seq]; [jobs] is the [Map] of the source in
    insertion order, from a job id to the job object; [queue] holds
    [{job, script}] pairs. *)
Record Runner := {
  scriptMap : gmap string Script;
  maxConcurrent : Z;
  defaultMode : string;
  jobStoreFile : string;
  logsDir : string;
  maxLogBytesPerStream : Z;
  previewMaxBytes : Z;
  runningCount : Z;
  queue : list (nat * Script);
  r_seq : Z;
  jobs : list (string * nat);
  heap : list Cell;
  store : StoreFile;
  files : gmap string (list byte)
}.

Definition with_runningCount (v : Z) (st : Runner) : Runner :=
  {| scriptMap := scriptMap st; maxConcurrent := maxConcurrent st;
     defaultMode := defaultMode st; jobStoreFile := jobStoreFile st;
     logsDir := logsDir st; maxLogBytesPerStream := maxLogBytesPerStream st;
     previewMaxBytes := previewMaxBytes st; runningCount := v;
     queue := queue st; r_seq := r_seq st; jobs := jobs st; heap := heap st;
     store := store st; files := files st |}.

Definition with_queue (v : list (nat * Script)) (st : Runner) : Runner :=
  {| scriptMap := scriptMap st; maxConcurrent := maxConcurrent st;
     defaultMode := defaultMode st; jobStoreFile := jobStoreFile st;
     logsDir := logsDir st; maxLogBytesPerStream := maxLogBytesPerStream st;
     previewMaxBytes := previewMaxBytes st; runningCount := runningCount st;
     queue := v; r_seq := r_seq st; jobs := jobs st; heap := heap st;
     store := store st; files := files st |}.

Definition with_seq (v : Z) (st : Runner) : Runner :=
  {| scriptMap := scriptMap st; maxConcurrent := maxConcurrent st;
     defaultMode := defaultMode st; jobStoreFile := jobStoreFile st;
     logsDir := logsDir st; maxLogBytesPerStream := maxLogBytesPerStream st;
     previewMaxBytes := previewMaxBytes st; runningCount := runningCount st;
     queue := queue st; r_seq := v; jobs := jobs st; heap := heap st;
     store := store st; files := files st |}.

Definition with_jobs (v : list (string * nat)) (st : Runner) : Runner :=
  {| scriptMap := scriptMap st; maxConcurrent := maxConcurrent st;
     defaultMode := defaultMode st; jobStoreFile := jobStoreFile st;
     logsDir := logsDir st; maxLogBytesPerStream := maxLogBytesPerStream st;
     previewMaxBytes := previewMaxBytes st; runningCount := runningCount st;
     queue := queue st; r_seq := r_seq st; jobs := v; heap := heap st;
     store := store st; files := files st |}.

Definition with_heap (v : list Cell) (st : Runner) : Runner :=
  {| scriptMap := scriptMap st; maxConcurrent := maxConcurrent st;
     defaultMode := defaultMode st; jobStoreFile := jobStoreFile st;
     logsDir := logsDir st; maxLogBytesPerStream := maxLogBytesPerStream st;
     previewMaxBytes := previewMaxBytes st; runningCount := runningCount st;
     queue := queue st; r_seq := r_seq st; jobs := jobs st; heap := v;
     store := store st; files := files st |}.

Definition with_store (v : StoreFile) (st : Runner) : Runner :=
  {| scriptMap := scriptMap st; maxConcurrent := maxConcurrent st;
     defaultMode := defaultMode st; jobStoreFile := jobStoreFile st;
     logsDir := logsDir st; maxLogBytesPerStream := maxLogBytesPerStream st;
     previewMaxBytes := previewMaxBytes st; runningCount := runningCount st;
     queue := queue st; r_seq := r_seq st; jobs := jobs st; heap := heap st;
     store := v; files := files st |}.

Definition with_files (v : gmap string (list byte)) (st : Runner) : Runner :=
  {| scriptMap := scriptMap st; maxConcurrent := maxConcurrent st;
     defaultMode := defaultMode st; jobStoreFile := jobStoreFile st;
     logsDir := logsDir st; maxLogBytesPerStream := maxLogBytesPerStream st;
     previewMaxBytes := previewMaxBytes st; runningCount := runningCount st;
     queue := queue st; r_seq := r_seq st; jobs := jobs st; heap := heap st;
     store := store st; files := v |}.

(** A mutation of the job object at reference [r]. *)
Definition upd_cell (r : nat) (c : Cell) (st : Runner) : Runner :=
  with_heap (<[r := c]> (heap st)) st.

Definition upd_job (r : nat) (f : Job -> Job) (st : Runner) : Runner :=
  match heap st !! r with
  | Some c => upd_cell r {| job := f (job c); exec := exec c |} st
  | None => st
  end.

(** [Map.prototype.get] and [Map.prototype.set]: [set] on a present key
    keeps the key's position. *)
Fixpoint map_get {V} (k : string) (m : list (string * V)) : option V :=
  match m with
  | [] => None
  | (k', v) :: m' => if String.eqb k' k then Some v else map_get k m'
  end.

Fixpoint map_set {V} (k : string) (v : V) (m : list (string * V))
  : list (string * V) :=
  match m with
  | [] => [(k, v)]
  | (k', v') :: m' =>
      if String.eqb k' k then (k, v) :: m' else (k', v') :: map_set k v m'
  end.

(** ** The environment of one callback *)

(** The two [fs.openSync] calls of [executeJob]: both succeed, the first
    throws, or the first succeeds and the second throws. *)
Inductive OpenOutcome :=
| OpenOk
| OpenStdoutFails (message : string)
| OpenStderrFails (message : string).

(** [now] is the clock during the callback ([Date.now()], and [nowIso()]
    as its string); [persist_ok] says whether writing the job store file
    succeeds.  For the job at a reference, [mkdir_ok] says whether the two
    [ensureParentDir] calls of [executeJob] return rather than throw,
    [open_logs] answers the [fs.openSync] pair, and [spawn_ok] says
    whether [spawn] and the wiring of the child return rather than
    throw. *)
Record Env := {
  now : Z;
  persist_ok : bool;
  mkdir_ok : nat -> bool;
  open_logs : nat -> OpenOutcome;
  spawn_ok : nat -> bool
}.

(** [fs.writeSync] either writes the whole buffer or throws. *)
Inductive WriteOutcome :=
| WriteOk
| WriteFails (message : string).

(** How a call is left: it returns, or an exception leaves it.  Either way
    the runner is as the call left it. *)
Inductive Outcome :=
| Returns (st : Runner)
| Throws (st : Runner).

Definition after (o : Outcome) : Runner :=
  match o with
  | Returns st => st
  | Throws st => st
  end.

Definition threw (o : Outcome) : bool :=
  match o with
  | Returns _ => false
  | Throws _ => true
  end.

Section Runner.

Context {node : NodeRuntime}.

(** ** Job store *)

Definition persistJobs (env : Env) (st : Runner) : Runner :=
  if persist_ok env then
    with_store
      (StoreArray
         (omap (fun kv : string * nat =>
                  (fun c => EntryObject (serializeJobForStore (job c)))
                    <$> heap st !! kv.2)
               (jobs st)))
      st
  else st.

(** The object [{...job, cancelRequested: false}] built from an entry of
    the store file whose [jobId] is [id]. *)
Definition job_of_entry (id : string) (r : JobSnapshot) : Job :=
  {| jobId := id; scriptId := snap_scriptId r; mode := snap_mode r;
     args := JUndefined; status := snap_status r; code := snap_code r;
     startedAt := snap_startedAt r; endedAt := snap_endedAt r;
     durationMs := snap_durationMs r; createdAt := snap_createdAt r;
     cancelRequested := false;
     stdoutRef := snap_stdoutRef r; stderrRef := snap_stderrRef r;
     stdoutSize := snap_stdoutSize r; stderrSize := snap_stderrSize r;
     stdoutTruncated := snap_stdoutTruncated r;
     stderrTruncated := snap_stderrTruncated r;
     stdoutPreview := snap_stdoutPreview r;
     stderrPreview := snap_stderrPreview r |}.

(** The body of the [if] of [loadJobsFromDisk] that rewrites a record left
    in [running] or [queued]. *)
Definition recover (t : Z) (j : Job) : Job :=
  if String.eqb (status j) STATUS_RUNNING || String.eqb (status j) STATUS_QUEUED
  then
    let j1 := set_endedAt (Some t) (set_code (Some (-1)) (set_status STATUS_FAILED j)) in
    match startedAt j1 with
    | Some started => set_durationMs (Some (Z.max 0 (t - started))) j1
    | None => j1
    end
  else j.

(** One iteration of the [for] loop of [loadJobsFromDisk]. *)
Definition loadEntry (t : Z) (st : Runner) (e : StoreEntry) : Runner :=
  match e with
  | EntryNotObject => st
  | EntryObject r =>
      if negb (truthy_str (snap_jobId r)) then st
      else
        let id := default "" (snap_jobId r) in
        let ref := length (heap st) in
        with_jobs (map_set id ref (jobs st))
          (with_heap
             (heap st ++ [ {| job := recover t (job_of_entry id r);
                              exec := None |} ])
             st)
  end.

Definition loadJobsFromDisk (t : Z) (st : Runner) : Runner :=
  match store st with
  | StoreMissing => st
  | StoreUnreadable => st
  | StoreNotArray => st
  | StoreArray parsed => fold_left (loadEntry t) parsed st
  end.

(** [new ScriptRunner(config)], at time [t], with [disk] in the job store
    file and [logs] under the log directory. *)
Definition newScriptRunner (config : Config) (t : Z) (disk : StoreFile)
    (logs : gmap string (list byte)) : Runner :=
  loadJobsFromDisk t
    {| scriptMap :=
         fold_left (fun m s => <[script_id s := s]> m) (scripts config) ∅;
       maxConcurrent := cfg_maxConcurrent (runner config);
       defaultMode := cfg_defaultMode (runner config);
       jobStoreFile := cfg_jobStoreFile (runner config);
       logsDir :=
         str_or (cfg_logsDir (runner config))
           (path_join (path_dirname (cfg_jobStoreFile (runner config))) "logs");
       maxLogBytesPerStream :=
         num_or (cfg_maxLogBytesPerStream (runner config)) (1024 * 1024);
       previewMaxBytes := num_or (cfg_previewMaxBytes (runner config)) 4096;
       runningCount := 0;
       queue := [];
       r_seq := 0;
       jobs := [];
       heap := [];
       store := disk;
       files := logs |}.

(** ** Validator *)

Inductive Validated :=
| ValidOk (script : Script)
| ValidError (code message : string)
| ValidThrows.

(** The [for] loop of [validateRequest], from index [i]. *)
Fixpoint validateItems (test : string -> bool) (policy : ArgsPolicy) (i : Z)
    (items : list jsval) : option (string * string) :=
  match items with
  | [] => None
  | value :: rest =>
      match value with
      | JStr s =>
          if itemMaxLength policy <? js_length s then
            Some ("INVALID_ARGS",
                  "arg[" +:+ pretty i +:+ "] too long: max "
                  +:+ pretty (itemMaxLength policy))
          else if negb (test s) then
            Some ("INVALID_ARGS",
                  "arg[" +:+ pretty i +:+ "] does not match pattern")
          else validateItems test policy (i + 1) rest
      | _ =>
          Some ("INVALID_ARGS", "arg[" +:+ pretty i +:+ "] must be string")
      end
  end.

Definition scriptMap_get (st : Runner) (scriptId : jsval) : option Script :=
  match scriptId with
  | JStr s => scriptMap st !! s
  | _ => None
  end.

Definition validateRequest (st : Runner) (scriptId args : jsval) : Validated :=
  match scriptMap_get st scriptId with
  | None =>
      ValidError "SCRIPT_NOT_FOUND" ("script not found: " +:+ js_String scriptId)
  | Some script =>
      match args with
      | JArr items =>
          if maxItems (script_args script) <? Z.of_nat (length items) then
            ValidError "INVALID_ARGS"
              ("too many args: max " +:+ pretty (maxItems (script_args script)))
          else
            match RegExp (itemPattern (script_args script)) with
            | None => ValidThrows
            | Some test =>
                match validateItems test (script_args script) 0 items with
                | Some (c, m) => ValidError c m
                | None => ValidOk script
                end
            end
      | _ => ValidError "INVALID_ARGS" "args must be an array of strings"
      end
  end.

Definition resolveMode (st : Runner) (script : Script) (requestedMode : jsval)
  : string :=
  match requestedMode with
  | JStr m =>
      if String.eqb m "sync" || String.eqb m "async" then m
      else if String.eqb (script_mode script) "sync"
              || String.eqb (script_mode script) "async"
      then script_mode script
      else defaultMode st
  | _ =>
      if String.eqb (script_mode script) "sync"
         || String.eqb (script_mode script) "async"
      then script_mode script
      else defaultMode st
  end.

(** ** Creating jobs *)

Definition nextJobId (env : Env) (st : Runner) : string * Runner :=
  let st1 := with_seq (r_seq st + 1) st in
  ("job_" +:+ pretty (now env) +:+ "_" +:+ pretty (r_seq st1), st1).

Definition createJob (env : Env) (scriptId : string) (args : jsval)
    (mode : string) (st : Runner) : nat * Runner :=
  let '(id, st1) := nextJobId env st in
  let job :=
    {| jobId := id; scriptId := scriptId; mode := mode; args := args;
       status := STATUS_QUEUED; code := None; startedAt := None;
       endedAt := None; durationMs := None; createdAt := Some (now env);
       cancelRequested := false;
       stdoutRef := Some (id +:+ ".stdout.log");
       stderrRef := Some (id +:+ ".stderr.log");
       stdoutSize := 0; stderrSize := 0;
       stdoutTruncated := false; stderrTruncated := false;
       stdoutPreview := ""; stderrPreview := "" |} in
  let ref := length (heap st1) in
  let st2 :=
    with_jobs (map_set id ref (jobs st1))
      (with_heap (heap st1 ++ [ {| job := job; exec := None |} ]) st1) in
  (ref, persistJobs env st2).

(** ** Log sink *)

(** [fs.writeSync(fd, buf)]: a [null] descriptor throws. *)
Definition fs_writeSync (wr : WriteOutcome) (fd : option string)
    (buf : list byte) (fs : gmap string (list byte))
  : string + gmap string (list byte) :=
  match fd with
  | None => inl "The fd argument must be of type number"
  | Some p =>
      match wr with
      | WriteFails m => inl m
      | WriteOk => inr (<[p := default [] (fs !! p) ++ buf]> fs)
      end
  end.

(** [writeLogChunk(fd, chunk, sizeKey, truncatedKey)] on the job and the
    log files.  The third component is the message of the exception the
    call leaves with, if it throws. *)
Definition writeLogChunk (cap : Z) (wr : WriteOutcome) (fd : option string)
    (chunk : list byte) (k : Stream) (j : Job) (fs : gmap string (list byte))
  : Job * gmap string (list byte) * option string :=
  let current := get_size k j in
  if cap <=? current then (set_truncated k true j, fs, None)
  else
    let allowed := cap - current in
    let toWrite := take (Z.to_nat allowed) chunk in
    if 0 <? Z.of_nat (length toWrite) then
      match fs_writeSync wr fd toWrite fs with
      | inl m => (j, fs, Some m)
      | inr fs' =>
          let j1 := set_size k (get_size k j + Z.of_nat (length toWrite)) j in
          if Z.of_nat (length toWrite) <? Z.of_nat (length chunk)
          then (set_truncated k true j1, fs', None)
          else (j1, fs', None)
      end
    else if Z.of_nat (length toWrite) <? Z.of_nat (length chunk)
    then (set_truncated k true j, fs, None)
    else (j, fs, None).

Definition with_previewBuf (k : Stream) (buf : list byte) (e : Exec) : Exec :=
  {| startedMs := startedMs e; stdoutFd := stdoutFd e; stderrFd := stderrFd e;
     stdoutPreviewBuf :=
       match k with Stdout => buf | Stderr => stdoutPreviewBuf e end;
     stderrPreviewBuf :=
       match k with Stdout => stderrPreviewBuf e | Stderr => buf end;
     timerPending := timerPending e; timedOut := timedOut e;
     finished := finished e |}.

Definition get_previewBuf (k : Stream) (e : Exec) : list byte :=
  match k with Stdout => stdoutPreviewBuf e | Stderr => stderrPreviewBuf e end.

Definition get_fd (k : Stream) (e : Exec) : option string :=
  match k with Stdout => stdoutFd e | Stderr => stderrFd e end.

Definition stream_name (k : Stream) : string :=
  match k with Stdout => "stdout" | Stderr => "stderr" end.

(** The ["data"] handler of [child.stdout] ([k = Stdout]) or
    [child.stderr] ([k = Stderr]) of the job at [r]. *)
Definition onData (k : Stream) (r : nat) (chunk : list byte)
    (wr : WriteOutcome) (st : Runner) : Runner :=
  match heap st !! r with
  | Some {| job := j; exec := Some e |} =>
      let e1 :=
        with_previewBuf k
          (appendTailBuffer (get_previewBuf k e) chunk (previewMaxBytes st)) e in
      match writeLogChunk (maxLogBytesPerStream st) wr (get_fd k e1) chunk k j
                          (files st) with
      | (j', fs', None) =>
          with_files fs' (upd_cell r {| job := j'; exec := Some e1 |} st)
      | (j', fs', Some m) =>
          let e2 :=
            with_previewBuf Stderr
              (appendTailBuffer (stderrPreviewBuf e1)
                 (utf8_encode
                    (String "010"%char (stream_name k +:+ " log write error: " +:+ m)))
                 (previewMaxBytes st)) e1 in
          with_files fs' (upd_cell r {| job := j'; exec := Some e2 |} st)
      end
  | _ => st
  end.

(** ** Executor and scheduler *)

(** The decision of the ["close"] handler: the status and the code it
    passes to [finishJob]. *)
Definition closeDecision (timedOut cancelRequested : bool) (code : option Z)
    (signal : option string) : string * Z :=
  if timedOut then (STATUS_TIMED_OUT, -1)
  else if cancelRequested then (STATUS_CANCELED, -1)
  else if truthy_str signal then (STATUS_FAILED, -1)
  else
    match code with
    | Some 0 => (STATUS_SUCCEEDED, 0)
    | Some c => (STATUS_FAILED, c)
    | None => (STATUS_FAILED, -1)
    end.

(** [finishJob(status, code)] of the job at [r]; [drain] is
    [this.drainQueue()], whose exception, if any, leaves [finishJob]. *)
Definition finishJob (drain : Runner -> Outcome) (env : Env) (r : nat)
    (status : string) (code : Z) (st : Runner) : Outcome :=
  match heap st !! r with
  | Some {| job := j; exec := Some e |} =>
      if finished e then Returns st
      else
        let e' :=
          {| startedMs := startedMs e; stdoutFd := None; stderrFd := None;
             stdoutPreviewBuf := stdoutPreviewBuf e;
             stderrPreviewBuf := stderrPreviewBuf e;
             timerPending := false; timedOut := timedOut e;
             finished := true |} in
        let j' :=
          set_durationMs (Some (now env - startedMs e))
            (set_endedAt (Some (now env))
               (set_code (Some code)
                  (set_status status
                     (set_stderrPreview (utf8_decode (stderrPreviewBuf e))
                        (set_stdoutPreview (utf8_decode (stdoutPreviewBuf e))
                           j))))) in
        let st1 := upd_cell r {| job := j'; exec := Some e' |} st in
        let st2 := with_runningCount (runningCount st1 - 1) st1 in
        drain (persistJobs env st2)
  | _ => Returns st
  end.

(** [executeJob(job, script)] for the job at [r].  The calls of
    [ensureParentDir] and of [spawn] stand outside the [try]: when one
    throws, the exception leaves [executeJob] with the job counted and
    [running] and [job._child] not set. *)
Definition executeJob (drain : Runner -> Outcome) (env : Env) (r : nat)
    (script : Script) (st : Runner) : Outcome :=
  let st1 := with_runningCount (runningCount st + 1) st in
  let st2 :=
    upd_job r (fun j => set_startedAt (Some (now env))
                          (set_status STATUS_RUNNING j)) st1 in
  let st3 := persistJobs env st2 in
  let startedMs := now env in
  match heap st3 !! r with
  | None => Returns st3
  | Some c =>
      let stdoutPath := path_join (logsDir st3) (default "" (stdoutRef (job c))) in
      let stderrPath := path_join (logsDir st3) (default "" (stderrRef (job c))) in
      let failed (message : string) (st : Runner) : Outcome :=
        let st4 :=
          upd_job r
            (fun j =>
               set_stderrPreview ("failed to open log files: " +:+ message)
                 (set_durationMs (Some (now env - startedMs))
                    (set_endedAt (Some (now env))
                       (set_code (Some (-1)) (set_status STATUS_FAILED j)))))
            st in
        drain (persistJobs env (with_runningCount (runningCount st4 - 1) st4)) in
      if negb (mkdir_ok env r) then Throws st3
      else
        match open_logs env r with
        | OpenStdoutFails m => failed m st3
        | OpenStderrFails m =>
            failed m (with_files (<[stdoutPath := []]> (files st3)) st3)
        | OpenOk =>
            let fs := <[stderrPath := []]> (<[stdoutPath := []]> (files st3)) in
            let e :=
              {| startedMs := startedMs;
                 stdoutFd := Some stdoutPath; stderrFd := Some stderrPath;
                 stdoutPreviewBuf := []; stderrPreviewBuf := [];
                 timerPending := 0 <? timeoutSec script;
                 timedOut := false; finished := false |} in
            if spawn_ok env r then
              Returns
                (with_files fs (upd_cell r {| job := job c; exec := Some e |} st3))
            else Throws (with_files fs st3)
        end
  end.

(** The [while] loop of [drainQueue]; each turn shifts one entry off the
    queue, so [fuel] above the length of the queue is never used up.  An
    exception of [executeJob] leaves the loop. *)
Fixpoint drainQueue_loop (fuel : nat) (env : Env) (st : Runner) : Outcome :=
  match fuel with
  | O => Returns st
  | S fuel' =>
      if runningCount st <? maxConcurrent st then
        match queue st with
        | [] => Returns st
        | (r, script) :: rest =>
            let st1 := with_queue rest st in
            match heap st1 !! r with
            | None => Returns st1
            | Some c =>
                if cancelRequested (job c) then
                  drainQueue_loop fuel' env
                    (persistJobs env
                       (upd_job r
                          (fun j =>
                             set_durationMs (Some 0)
                               (set_endedAt (Some (now env))
                                  (set_code (Some (-1))
                                     (set_status STATUS_CANCELED j))))
                          st1))
                else
                  match executeJob (drainQueue_loop fuel' env) env r script st1
                  with
                  | Returns st2 => drainQueue_loop fuel' env st2
                  | Throws st2 => Throws st2
                  end
            end
        end
      else Returns st
  end.

Definition drainQueue (env : Env) (st : Runner) : Outcome :=
  drainQueue_loop (S (length (queue st))) env st.

Definition enqueue (env : Env) (r : nat) (script : Script) (st : Runner)
  : Outcome :=
  drainQueue env (with_queue (queue st ++ [(r, script)]) st).

(** The timer callback of the job at [r]. *)
Definition onTimeout (r : nat) (st : Runner) : Runner :=
  match heap st !! r with
  | Some {| job := j; exec := Some e |} =>
      if timerPending e then
        upd_cell r
          {| job := j;
             exec :=
               Some {| startedMs := startedMs e; stdoutFd := stdoutFd e;
                       stderrFd := stderrFd e;
                       stdoutPreviewBuf := stdoutPreviewBuf e;
                       stderrPreviewBuf := stderrPreviewBuf e;
                       timerPending := false; timedOut := true;
                       finished := finished e |} |}
          st
      else st
  | _ => st
  end.

(** The ["error"] handler of the child of the job at [r]. *)
Definition onError (env : Env) (r : nat) (message : string) (st : Runner)
  : Outcome :=
  match heap st !! r with
  | Some {| job := j; exec := Some e |} =>
      let e1 :=
        with_previewBuf Stderr
          (appendTailBuffer (stderrPreviewBuf e)
             (utf8_encode (String "010"%char message)) (previewMaxBytes st)) e in
      finishJob (drainQueue env) env r STATUS_FAILED (-1)
        (upd_cell r {| job := j; exec := Some e1 |} st)
  | _ => Returns st
  end.

(** The ["close"] handler of the child of the job at [r]. *)
Definition onClose (env : Env) (r : nat) (code : option Z)
    (signal : option string) (st : Runner) : Outcome :=
  match heap st !! r with
  | Some {| job := j; exec := Some e |} =>
      let '(status, c) :=
        closeDecision (timedOut e) (cancelRequested j) code signal in
      finishJob (drainQueue env) env r status c st
  | _ => Returns st
  end.

(** ** Runner API *)

Inductive SubmitResult :=
| SubmitError (code message : string)
| SubmitAsync (job : JobSnapshot)
(** the pending promise of a sync submit, resolved by [finishJob] with the
    snapshot of the job at [r] *)
| SubmitSync (r : nat)
(** an exception leaves [submitRun]: the one of [new RegExp], or the one
    of [executeJob] *)
| SubmitThrows.

Record Request := {
  req_scriptId : jsval;
  req_args : jsval;
  req_mode : jsval
}.

(** The default [args = []] of the parameter of [submitRun]. *)
Definition args_or_default (args : jsval) : jsval :=
  match args with
  | JUndefined => JArr []
  | _ => args
  end.

Definition submitRun (env : Env) (req : Request) (st : Runner)
  : SubmitResult * Runner :=
  let args := args_or_default (req_args req) in
  match validateRequest st (req_scriptId req) args with
  | ValidThrows => (SubmitThrows, st)
  | ValidError c m => (SubmitError c m, st)
  | ValidOk script =>
      let resolvedMode := resolveMode st script (req_mode req) in
      let '(r, st1) := createJob env (script_id script) args resolvedMode st in
      match enqueue env r script st1 with
      | Throws st2 => (SubmitThrows, st2)
      | Returns st2 =>
          if String.eqb resolvedMode "async" then
            match heap st2 !! r with
            | Some c => (SubmitAsync (serializeJob (job c)), st2)
            | None => (SubmitThrows, st2)
            end
          else (SubmitSync r, st2)
      end
  end.

Definition getJob (jobId : string) (st : Runner) : option JobSnapshot :=
  match map_get jobId (jobs st) with
  | None => None
  | Some r => (fun c => serializeJob (job c)) <$> heap st !! r
  end.

Inductive ApiResult (A : Type) :=
| ApiOk (value : A)
| ApiError (code message : string).

#[global] Arguments ApiOk {A} value.
#[global] Arguments ApiError {A} code message.

Record LogsPage := {
  page_jobId : string;
  page_stream : string;
  page_offset : Z;
  page_nextOffset : Z;
  page_totalSize : Z;
  page_truncated : bool;
  page_data : string
}.

Definition int_or (a : numarg) (d : Z) : numarg :=
  match a with
  | NumUndefined => NumInt d
  | _ => a
  end.

Definition getJobLogs (jobId : string) (stream : option string)
    (offset limit : numarg) (st : Runner) : ApiResult LogsPage :=
  let stream := default "stdout" stream in
  let offset := int_or offset 0 in
  let limit := int_or limit 65536 in
  match map_get jobId (jobs st) ≫= (fun r => heap st !! r) with
  | None => ApiError "JOB_NOT_FOUND" ("job not found: " +:+ jobId)
  | Some c =>
      let job := job c in
      if negb (String.eqb stream "stdout") && negb (String.eqb stream "stderr")
      then ApiError "INVALID_ARGS" "stream must be stdout or stderr"
      else
        let safeOffset :=
          match offset with
          | NumInt o => if 0 <=? o then o else 0
          | _ => 0
          end in
        let safeLimitRaw :=
          match limit with
          | NumInt l => if 0 <? l then l else 65536
          | _ => 65536
          end in
        let safeLimit := Z.min safeLimitRaw (1024 * 1024) in
        let ref :=
          if String.eqb stream "stdout" then stdoutRef job else stderrRef job in
        let truncated :=
          if String.eqb stream "stdout" then stdoutTruncated job
          else stderrTruncated job in
        let empty (totalSize : Z) :=
          ApiOk {| page_jobId := jobId; page_stream := stream;
                   page_offset := safeOffset; page_nextOffset := safeOffset;
                   page_totalSize := totalSize; page_truncated := truncated;
                   page_data := "" |} in
        if negb (truthy_str ref) then empty 0
        else
          let logPath := path_join (logsDir st) (default "" ref) in
          match files st !! logPath with
          | None => empty 0
          | Some content =>
              let totalSize := Z.of_nat (length content) in
              if totalSize <=? safeOffset then empty totalSize
              else
                let toRead := Z.min safeLimit (totalSize - safeOffset) in
                let buffer :=
                  take (Z.to_nat toRead) (drop (Z.to_nat safeOffset) content) in
                let bytesRead := Z.of_nat (length buffer) in
                ApiOk {| page_jobId := jobId; page_stream := stream;
                         page_offset := safeOffset;
                         page_nextOffset := safeOffset + bytesRead;
                         page_totalSize := totalSize;
                         page_truncated := truncated;
                         page_data := utf8_decode buffer |}
          end
  end.

(** [cancelJob(jobId)].  The middle component lists the job objects whose
    child [terminateChildProcess] sends SIGTERM to; the signal goes to the
    operating system and touches no field of the runner. *)
Definition cancelJob (env : Env) (jobId : string) (st : Runner)
  : ApiResult JobSnapshot * list nat * Runner :=
  match map_get jobId (jobs st) with
  | None => (ApiError "JOB_NOT_FOUND" ("job not found: " +:+ jobId), [], st)
  | Some r =>
      match heap st !! r with
      | None => (ApiError "JOB_NOT_FOUND" ("job not found: " +:+ jobId), [], st)
      | Some c =>
          if is_terminal (status (job c)) then
            (ApiOk (serializeJob (job c)), [], st)
          else
            let j1 := set_cancelRequested true (job c) in
            let st1 := upd_cell r {| job := j1; exec := exec c |} st in
            if String.eqb (status j1) STATUS_RUNNING && bool_decide (is_Some (exec c))
            then (ApiOk (serializeJob j1), [r], st1)
            else if String.eqb (status j1) STATUS_QUEUED then
              let j2 :=
                set_durationMs (Some 0)
                  (set_endedAt (Some (now env))
                     (set_code (Some (-1)) (set_status STATUS_CANCELED j1))) in
              (ApiOk (serializeJob j2), [],
               persistJobs env (upd_cell r {| job := j2; exec := exec c |} st))
            else (ApiOk (serializeJob j1), [], st1)
      end
  end.

(** ** The event loop *)

Inductive Event :=
| EvSubmit (req : Request)
| EvCancel (jobId : string)
| EvData (k : Stream) (r : nat) (chunk : list byte) (wr : WriteOutcome)
| EvTimeout (r : nat)
| EvError (r : nat) (message : string)
| EvClose (r : nat) (code : option Z) (signal : option string).

(** The runner after the callback of an event, as the callback left it,
    by returning or by an exception. *)
Definition step (env : Env) (ev : Event) (st : Runner) : Runner :=
  match ev with
  | EvSubmit req => (submitRun env req st).2
  | EvCancel jobId => (cancelJob env jobId st).2
  | EvData k r chunk wr => onData k r chunk wr st
  | EvTimeout r => onTimeout r st
  | EvError r message => after (onError env r message st)
  | EvClose r code signal => after (onClose env r code signal st)
  end.

(** An exception leaves the callback of the event. *)
Definition throws (env : Env) (ev : Event) (st : Runner) : bool :=
  match ev with
  | EvSubmit req =>
      match (submitRun env req st).1 with
      | SubmitThrows => true
      | _ => false
      end
  | EvError r message => threw (onError env r message st)
  | EvClose r code signal => threw (onClose env r code signal st)
  | _ => false
  end.

(** The states a runner built from [config] can be in.  The exception of
    [submitRun] is caught by its caller; one that leaves a handler of a
    child ends the process unless the program that embeds the runner
    handles it, and the states that follow it are counted in. *)
Inductive reachable (config : Config) : Runner -> Prop :=
| reachable_new t disk logs :
    reachable config (newScriptRunner config t disk logs)
| reachable_step st env ev :
    reachable config st -> reachable config (step env ev st).

(** The states of a runner none of whose callbacks was left by an
    exception. *)
Inductive reachable_quietly (config : Config) : Runner -> Prop :=
| quietly_new t disk logs :
    reachable_quietly config (newScriptRunner config t disk logs)
| quietly_step st env ev :
    reachable_quietly config st -> throws env ev st = false ->
    reachable_quietly config (step env ev st).

(** The runner after the callbacks of a list of events, each with its
    environment. *)
Definition run (events : list (Env * Event)) (st : Runner) : Runner :=
  fold_left (fun s ee => step ee.1 ee.2 s) events st.

(** The job objects of the job map whose status is [running]. *)
Definition runningJobs (st : Runner) : list Job :=
  filter (fun j => status j = STATUS_RUNNING)
    (omap (fun kv : string * nat => job <$> heap st !! kv.2) (jobs st)).

End Runner.

(** The job object at [r] has status [running]. *)
Definition running_at (h : list Cell) (r : nat) : Prop :=
  match h !! r with
  | Some c => status (job c) = STATUS_RUNNING
  | None => False
  end.

Global Instance running_at_dec h r : Decision (running_at h r).
Proof. unfold running_at. destruct (h !! r); apply _. Defined.

(** The job objects, by reference, whose status is [running]: every job
    object the runner ever made, in the job map or not. *)
Definition runningObjects (h : list Cell) : list nat :=
  filter (running_at h) (seq 0 (length h)).

(** [f] leaves alone the job object at [r] when [r] is not queued. *)
Definition frames (r : nat) (f : Runner -> Outcome) : Prop :=
  forall x, r ∉ (queue x).*1 ->
            heap (after (f x)) !! r = heap x !! r /\
            r ∉ (queue (after (f x))).*1.




(** The log-write steps of the chunks delivered on stream [k], in order:
    what the ["data"] handler does to the job and the log files, chunk
    after chunk, each with the outcome of its [fs.writeSync]. *)
Fixpoint writeChunks (cap : Z) (fd : option string) (k : Stream)
    (chunks : list (list byte * WriteOutcome)) (j : Job)
    (fs : gmap string (list byte)) : Job * gmap string (list byte) :=
  match chunks with
  | [] => (j, fs)
  | (chunk, wr) :: rest =>
      let '(j', fs', _) := writeLogChunk cap wr fd chunk k j fs in
      writeChunks cap fd k rest j' fs'
  end.

(** The bytes the producer tried to write. *)
Definition attempted (chunks : list (list byte * WriteOutcome)) : Z :=
  Z.of_nat (length (concat chunks.*1)).

(** The job object a job id names, if any. *)
Definition known_job (jobId : string) (st : Runner) : option Cell :=
  map_get jobId (jobs st) ≫= (fun r => heap st !! r).

(** The bytes of the log file of stream [k] of a job, [None] when the job
    names no file or the file does not exist. *)
Definition log_content {node : NodeRuntime} (st : Runner) (k : Stream)
    (j : Job) : option (list byte) :=
  if truthy_str (get_ref k j)
  then files st !! path_join (logsDir st) (default "" (get_ref k j))
  else None.

(** The paging parameters as the specification says they are read: an
    offset that is not a non-negative integer counts as 0, a limit that is
    not a positive integer counts as 65536, and a limit is at most 1 MiB. *)
Definition safe_offset (offset : numarg) : Z :=
  match offset with
  | NumInt o => if 0 <=? o then o else 0
  | _ => 0
  end.

Definition safe_limit (limit : numarg) : Z :=
  Z.min (match limit with
         | NumInt l => if 0 <? l then l else 65536
         | _ => 65536
         end) (1024 * 1024).

(** Recovery of a stored record, in the words of the specification: a
    record left in [queued] or [running] becomes [failed] with code -1,
    ended at the load time [t], its duration computed from [startedAt] when
    that is known; any other record is as stored. *)
Definition recovered (t : Z) (r : JobSnapshot) : JobSnapshot :=
  if String.eqb (snap_status r) STATUS_QUEUED
     || String.eqb (snap_status r) STATUS_RUNNING
  then
    {| snap_jobId := snap_jobId r;
       snap_scriptId := snap_scriptId r;
       snap_status := STATUS_FAILED;
       snap_code := Some (-1);
       snap_startedAt := snap_startedAt r;
       snap_endedAt := Some t;
       snap_durationMs :=
         match snap_startedAt r with
         | Some started => Some (Z.max 0 (t - started))
         | None => snap_durationMs r
         end;
       snap_createdAt := snap_createdAt r;
       snap_mode := snap_mode r;
       snap_stdoutRef := snap_stdoutRef r;
       snap_stderrRef := snap_stderrRef r;
       snap_stdoutSize := snap_stdoutSize r;
       snap_stderrSize := snap_stderrSize r;
       snap_stdoutTruncated := snap_stdoutTruncated r;
       snap_stderrTruncated := snap_stderrTruncated r;
       snap_stdoutPreview := snap_stdoutPreview r;
       snap_stderrPreview := snap_stderrPreview r |}
  else r.

(** An entry of the store file is the record of job [id]: an object whose
    [jobId] is [id], not empty. *)
Definition entry_of (id : string) (e : StoreEntry) : option JobSnapshot :=
  match e with
  | EntryNotObject => None
  | EntryObject r =>
      match snap_jobId r with
      | Some id' =>
          if negb (String.eqb id' "") && String.eqb id' id then Some r else None
      | None => None
      end
  end.

(** The record of job [id] in the store file: the last entry of that id. *)
Fixpoint stored_entry (id : string) (parsed : list StoreEntry)
  : option JobSnapshot :=
  match parsed with
  | [] => None
  | e :: rest =>
      match stored_entry id rest with
      | Some r => Some r
      | None => entry_of id e
      end
  end.

Definition stored_record (id : string) (disk : StoreFile) : option JobSnapshot :=
  match disk with
  | StoreArray parsed => stored_entry id parsed
  | _ => None
  end.

(** ** A runner to compute with

    A stand-in for Node's library, the two scripts of the repository's
    tests, and a run of two submitted jobs. *)

(** [^[a-zA-Z0-9._-]+$] on one character. *)
Definition word_char (c : ascii) : bool :=
  let n := N.to_nat (N_of_ascii c) in
  ((48 <=? n) && (n <=? 57) || (65 <=? n) && (n <=? 90)
   || (97 <=? n) && (n <=? 122) || (n =? 46) || (n =? 95) || (n =? 45))%nat.

Definition word_test (s : string) : bool :=
  negb (String.eqb s "") && forallb word_char (list_ascii_of_string s).

(** The patterns of the examples: the word pattern of the tests, a
    pattern the constructor rejects, and any other pattern standing for
    one that matches everything. *)
Definition demo_runtime : NodeRuntime :=
  {| utf8_decode := string_of_list_byte;
     utf8_encode := list_byte_of_string;
     js_String := fun v => match v with JStr s => s | _ => "" end;
     RegExp := fun p =>
       if String.eqb p "^[a-zA-Z0-9._-]+$" then Some word_test
       else if String.eqb p "(" then None
       else Some (fun _ => true);
     path_join := fun a b => a +:+ "/" +:+ b;
     path_dirname := fun a => a |}.

Definition demo_ok : Script :=
  {| script_id := "ok"; script_path := "/srv/ok.sh"; script_mode := "sync";
     timeoutSec := 0;
     script_args := {| maxItems := 5; itemPattern := "^[a-zA-Z0-9._-]+$";
                       itemMaxLength := 20 |} |}.

Definition demo_slow : Script :=
  {| script_id := "slow"; script_path := "/srv/slow.sh";
     script_mode := "async"; timeoutSec := 1;
     script_args := {| maxItems := 2; itemPattern := "^[a-zA-Z0-9._-]+$";
                       itemMaxLength := 10 |} |}.

Definition demo_config (cap : option Z) : Config :=
  {| scripts := [demo_ok; demo_slow];
     runner := {| cfg_maxConcurrent := 1; cfg_defaultMode := "sync";
                  cfg_jobStoreFile := "/srv/jobs.json";
                  cfg_logsDir := Some "/srv/logs";
                  cfg_maxLogBytesPerStream := cap;
                  cfg_previewMaxBytes := Some 512 |} |}.

Definition demo_env (t : Z) : Env :=
  {| now := t; persist_ok := true; mkdir_ok := fun _ => true;
     open_logs := fun _ => OpenOk; spawn_ok := fun _ => true |}.

Definition demo_submit (script : string) (args : list string) : Event :=
  EvSubmit {| req_scriptId := JStr script; req_args := JArr (JStr <$> args);
              req_mode := JStr "async" |}.

(** A runner with a cap of 1024 bytes, at time 1000. *)
Definition demo_new : Runner :=
  @newScriptRunner demo_runtime (demo_config (Some 1024)) 1000 StoreMissing ∅.

(** Job A, submitted at 1000, runs: it takes the only slot. *)
Definition demo_A : Runner :=
  @step demo_runtime (demo_env 1000) (demo_submit "slow" []) demo_new.

(** Job B, submitted at 1001, waits in the queue. *)
Definition demo_AB : Runner :=
  @step demo_runtime (demo_env 1001) (demo_submit "slow" []) demo_A.

(** B is canceled at 1002 while it waits. *)
Definition demo_AB_canceled : Runner :=
  @step demo_runtime (demo_env 1002) (EvCancel "job_1001_2") demo_AB.

(** A exits with code 0 at 1005; the queue is drained. *)
Definition demo_A_closed : Runner :=
  @step demo_runtime (demo_env 1005) (EvClose 0 (Some 0) None) demo_AB_canceled.

(** The child of A has written [hello] on its stdout. *)
Definition demo_A_hello : Runner :=
  @step demo_runtime (demo_env 1003)
    (EvData Stdout 0 (list_byte_of_string "hello") WriteOk) demo_A.



(** An environment in which [spawn] throws, and the run in which job A is
    submitted under it. *)
Definition demo_env_no_spawn (t : Z) : Env :=
  {| now := t; persist_ok := true; mkdir_ok := fun _ => true;
     open_logs := fun _ => OpenOk; spawn_ok := fun _ => false |}.

Definition demo_A_unspawned : Runner :=
  @step demo_runtime (demo_env_no_spawn 1000) (demo_submit "slow" []) demo_new.

(** A job as [createJob] makes it. *)
Definition demo_job : Job :=
  {| jobId := "job_1000_1"; scriptId := "ok"; mode := "sync"; args := JArr [];
     status := STATUS_QUEUED; code := None; startedAt := None;
     endedAt := None; durationMs := None; createdAt := Some 1000;
     cancelRequested := false;
     stdoutRef := Some "job_1000_1.stdout.log";
     stderrRef := Some "job_1000_1.stderr.log";
     stdoutSize := 0; stderrSize := 0;
     stdoutTruncated := false; stderrTruncated := false;
     stdoutPreview := ""; stderrPreview := "" |}.

(** The same run under a configured cap of 0 bytes: the job of script
    [ok] runs and its child writes [hi] on stdout. *)
Definition demo_zero_cap : Runner :=
  @step demo_runtime (demo_env 1001)
    (EvData Stdout 0 (list_byte_of_string "hi") WriteOk)
    (@step demo_runtime (demo_env 1000) (demo_submit "ok" ["a"])
       (@newScriptRunner demo_runtime (demo_config (Some 0)) 1000
          StoreMissing ∅)).

(** What a job reports once it has ended, its end time and its log
    metadata (sizes and truncation flags) apart. *)
Definition same_result (j j' : Job) : Prop :=
  jobId j' = jobId j /\ scriptId j' = scriptId j /\ mode j' = mode j /\
  args j' = args j /\ status j' = status j /\ code j' = code j /\
  startedAt j' = startedAt j /\ durationMs j' = durationMs j /\
  createdAt j' = createdAt j /\ cancelRequested j' = cancelRequested j /\
  stdoutRef j' = stdoutRef j /\ stderrRef j' = stderrRef j /\
  stdoutPreview j' = stdoutPreview j /\ stderrPreview j' = stderrPreview j.

(** [j'] is [j] up to log metadata, its end time kept or set to [t]. *)
Definition kept (t : Z) (j j' : Job) : Prop :=
  same_result j j' /\ (endedAt j' = endedAt j \/ endedAt j' = Some t).

(** A job canceled by [cancelJob] while it was queued. *)
Definition canceled_queued (j : Job) : Prop :=
  status j = STATUS_CANCELED /\ cancelRequested j = true /\
  code j = Some (-1) /\ durationMs j = Some 0.

(** [f] keeps the job object at [r], which is canceled if it is queued. *)
Definition keeps (t : Z) (r : nat) (f : Runner -> Outcome) : Prop :=
  forall x c,
    heap x !! r = Some c ->
    (r ∈ (queue x).*1 -> canceled_queued (job c)) ->
    exists c',
      heap (after (f x)) !! r = Some c' /\ kept t (job c) (job c') /\
      (r ∉ (queue x).*1 -> c' = c /\ r ∉ (queue (after (f x))).*1).

(** ** The command line of a child *)

(** The double quote and the backslash, by their codes. *)
Definition dquote : ascii := "034"%char.

Definition backslash : ascii := "092"%char.

(** The replacement text of [shellQuote]: a single quote, between double
    quotes, between two single quotes. *)
Definition quote_escape : string :=
  String "'" (String dquote (String "'" (String dquote (String "'" "")))).

(** [s.replace(/'/g, r)]: every single quote of [s] becomes [r]. *)
Fixpoint replace_quotes (r s : string) : string :=
  match s with
  | EmptyString => EmptyString
  | String c s' =>
      if Ascii.eqb c "'" then r +:+ replace_quotes r s'
      else String c (replace_quotes r s')
  end.

(** [String(v)]: a string is itself. *)
Definition to_String {node : NodeRuntime} (v : jsval) : string :=
  match v with
  | JStr s => s
  | _ => js_String v
  end.

Definition shellQuote {node : NodeRuntime} (arg : jsval) : string :=
  "'" +:+ replace_quotes quote_escape (to_String arg) +:+ "'".

(** [[script.path, ...job.args].map(shellQuote).join(" ")], for the
    elements of [job.args]. *)
Definition command {node : NodeRuntime} (script : Script) (args : list jsval)
  : string :=
  String.concat " " (shellQuote <$> (JStr (script_path script) :: args)).

(** How [sh] reads a command line made of quoted words (POSIX shell
    language, 2.2 Quoting and 2.6.5 Field Splitting): between single quotes
    every character stands for itself; between double quotes every
    character but the backslash, the dollar and the backquote does; quoted
    parts that touch make one word; a space outside quotes ends a word.
    Anything else is outside the fragment and gives [None]. *)
Inductive ShMode := ShPlain | ShSingle | ShDouble.

Fixpoint sh_read (m : ShMode) (cur : option string) (s : string)
  : option (list string) :=
  match s with
  | EmptyString =>
      match m with
      | ShPlain => Some (match cur with Some w => [w] | None => [] end)
      | _ => None
      end
  | String c s' =>
      match m with
      | ShPlain =>
          if Ascii.eqb c "'" then sh_read ShSingle (Some (default "" cur)) s'
          else if Ascii.eqb c dquote
          then sh_read ShDouble (Some (default "" cur)) s'
          else if Ascii.eqb c " " then
            match cur with
            | Some w => cons w <$> sh_read ShPlain None s'
            | None => sh_read ShPlain None s'
            end
          else None
      | ShSingle =>
          if Ascii.eqb c "'" then sh_read ShPlain cur s'
          else sh_read ShSingle (Some (default "" cur +:+ String c "")) s'
      | ShDouble =>
          if Ascii.eqb c dquote then sh_read ShPlain cur s'
          else if Ascii.eqb c backslash || Ascii.eqb c "$" || Ascii.eqb c "`"
          then None
          else sh_read ShDouble (Some (default "" cur +:+ String c "")) s'
      end
  end.

Definition sh_words (s : string) : option (list string) :=
  sh_read ShPlain None s.

(** ** The output buffer of the first version of the runner, and what the
    buffers and the log files hold *)

(** [clampBufferAppend(current, chunk, maxBytes)] of the first version of
    the runner, which kept the head of the output in memory. *)
Definition clampBufferAppend (current chunk : list byte) (maxBytes : Z)
  : list byte :=
  if (maxBytes =? 0) || (maxBytes <=? Z.of_nat (length current)) then current
  else
    let rest := maxBytes - Z.of_nat (length current) in
    current ++ take (Z.to_nat rest) chunk.

(** The last [n] bytes of [l], all of [l] when it is shorter. *)
Definition last_bytes (n : Z) (l : list byte) : list byte :=
  drop (length l - Z.to_nat n) l.

(** The preview buffer after the chunks of a stream, one
    [appendTailBuffer] per chunk. *)
Definition previewAfter (maxBytes : Z) (buf : list byte)
    (chunks : list (list byte)) : list byte :=
  fold_left (fun b c => appendTailBuffer b c maxBytes) chunks buf.

Definition clampedAfter (maxBytes : Z) (buf : list byte)
    (chunks : list (list byte)) : list byte :=
  fold_left (fun b c => clampBufferAppend b c maxBytes) chunks buf.

(** The chunks whose [fs.writeSync] does not throw. *)
Definition written (chunks : list (list byte * WriteOutcome))
  : list (list byte) :=
  omap (fun c => match c.2 with WriteOk => Some c.1 | WriteFails _ => None end)
    chunks.

(** ** What changes and what does not *)

(** What a job is, as opposed to how far it got: the fields no code path
    assigns after [createJob]. *)
Definition same_identity (j j' : Job) : Prop :=
  jobId j' = jobId j /\ scriptId j' = scriptId j /\ mode j' = mode j /\
  args j' = args j /\ createdAt j' = createdAt j /\
  stdoutRef j' = stdoutRef j /\ stderrRef j' = stderrRef j.

(** The fields of the runner the constructor takes from the
    configuration. *)
Definition same_config (st st' : Runner) : Prop :=
  scriptMap st' = scriptMap st /\ maxConcurrent st' = maxConcurrent st /\
  defaultMode st' = defaultMode st /\ jobStoreFile st' = jobStoreFile st /\
  logsDir st' = logsDir st /\
  maxLogBytesPerStream st' = maxLogBytesPerStream st /\
  previewMaxBytes st' = previewMaxBytes st.

(** [st'] is [st] after code that makes no job: the configuration, the job
    map and the job counter are the same, and so is every job object up to
    the fields that record its progress. *)
Definition evolves (st st' : Runner) : Prop :=
  same_config st st' /\ jobs st' = jobs st /\ r_seq st' = r_seq st /\
  length (heap st') = length (heap st) /\
  forall r c, heap st !! r = Some c ->
    exists c', heap st' !! r = Some c' /\ same_identity (job c) (job c').

(** The entry of the script map for [id]: the last script of the
    configuration with that id. *)
Definition configured_script (config : Config) (id : string) : option Script :=
  last (filter (fun s => script_id s = id) (scripts config)).

(** The job map names job objects by their own [jobId], once each. *)
Definition Ids (st : Runner) : Prop :=
  NoDup (jobs st).*1 /\
  forall k r, (k, r) ∈ jobs st ->
    k <> "" /\ exists c, heap st !! r = Some c /\ jobId (job c) = k.

(** Every job object whose status is [queued] waits in the queue. *)
Definition QueuedP (q : list (nat * Script)) (h : list Cell) : Prop :=
  forall r c, h !! r = Some c -> status (job c) = STATUS_QUEUED -> r ∈ q.*1.

Definition Queued (st : Runner) : Prop := QueuedP (queue st) (heap st).

(** No job waits while a slot is free. *)
Definition Busy (st : Runner) : Prop :=
  queue st = [] \/ maxConcurrent st <= runningCount st.

(** The event is the end of the child of the job at [r]: its [close] or
    its [error]. *)
Definition completes (r : nat) (ev : Event) : Prop :=
  match ev with
  | EvClose r' _ _ => r' = r
  | EvError r' _ => r' = r
  | _ => False
  end.

(** Every job object whose status is [running] has a child. *)
Definition Started (h : list Cell) : Prop :=
  forall r c, h !! r = Some c -> status (job c) = STATUS_RUNNING ->
              is_Some (exec c).

(** The chunks the child of the job at [r] wrote on its stdout until its
    end was handled: those of the ["data"] events of its stdout that come
    before the first [close] or [error] event of the child. *)
Fixpoint stdout_until_end (r : nat) (events : list (Env * Event))
  : list (list byte) :=
  match events with
  | [] => []
  | (_, ev) :: rest =>
      match ev with
      | EvData Stdout r' chunk _ =>
          if Nat.eqb r' r then chunk :: stdout_until_end r rest
          else stdout_until_end r rest
      | EvClose r' _ _ | EvError r' _ =>
          if Nat.eqb r' r then [] else stdout_until_end r rest
      | _ => stdout_until_end r rest
      end
  end.

(** The job object [c] was set [running] by an [executeJob] that an
    exception left: it is counted, and it has no child. *)
Definition started_without_child (env : Env) (st st' : Runner) (c : Cell)
  : Prop :=
  status (job c) = STATUS_RUNNING /\ startedAt (job c) = Some (now env) /\
  code (job c) = None /\ endedAt (job c) = None /\
  exec c = None /\ runningCount st' = runningCount st + 1.

(** What a submit does with the job it made: [c] is the job object after
    the submit, [res] what [submitRun] gives.  [answer] is what a submit
    that returns answers. *)
Definition admitted (env : Env) (script : Script) (st : Runner)
    (res : SubmitResult * Runner) (c : Cell) : Prop :=
  let r := length (heap st) in
  let st' := res.2 in
  let answer :=
    if String.eqb (mode (job c)) "async"
    then SubmitAsync (serializeJob (job c)) else SubmitSync r in
  (maxConcurrent st <= runningCount st ->
   status (job c) = STATUS_QUEUED /\ exec c = None /\
   queue st' = queue st ++ [(r, script)] /\
   runningCount st' = runningCount st /\ res.1 = answer) /\
  (runningCount st < maxConcurrent st ->
   queue st' = [] /\
   if negb (mkdir_ok env r) then
     started_without_child env st st' c /\ res.1 = SubmitThrows
   else
     match open_logs env r with
     | OpenOk =>
         if spawn_ok env r then
           status (job c) = STATUS_RUNNING /\
           startedAt (job c) = Some (now env) /\
           runningCount st' = runningCount st + 1 /\
           res.1 = answer /\
           exists e, exec c = Some e /\ finished e = false /\
                     timedOut e = false /\
                     timerPending e = (0 <? timeoutSec script) /\
                     stdoutPreviewBuf e = [] /\ stderrPreviewBuf e = []
         else started_without_child env st st' c /\ res.1 = SubmitThrows
     | OpenStdoutFails m | OpenStderrFails m =>
         status (job c) = STATUS_FAILED /\ code (job c) = Some (-1) /\
         endedAt (job c) = Some (now env) /\
         stderrPreview (job c) = "failed to open log files: " +:+ m /\
         exec c = None /\ runningCount st' = runningCount st /\
         res.1 = answer
     end).

(** A job object with a pending cancel and no child; under [idle] it is
    not [running] either, that is, [executeJob] has not taken it. *)
Definition canceled_unstarted (idle : Prop) (c : Cell) : Prop :=
  cancelRequested (job c) = true /\ exec c = None /\
  (idle -> status (job c) <> STATUS_RUNNING).

(** [f] never starts the job at [r] once it is [canceled_unstarted]. *)
Definition skips (idle : Prop) (r : nat) (f : Runner -> Outcome) : Prop :=
  forall x c, heap x !! r = Some c -> canceled_unstarted idle c ->
    exists c', heap (after (f x)) !! r = Some c' /\
               canceled_unstarted idle c'.

(** The runner without what it last wrote to the job store file. *)
Definition forget_store (st : Runner) : Runner := with_store StoreMissing st.

(** The environment of a callback, the job store file being writable or
    not. *)
Definition with_persist_ok (b : bool) (env : Env) : Env :=
  {| now := now env; persist_ok := b; mkdir_ok := mkdir_ok env;
     open_logs := open_logs env; spawn_ok := spawn_ok env |}.

(** ** Reading a request body ([src/server.js])

    [readBody(req)] returns a promise; the handlers of the request's
    [data], [end] and [error] events settle it, and only the first
    settlement counts.  [J] is the type of parsed JSON values,
    [JSON_parse] gives [None] when [JSON.parse] throws, and [empty_object]
    is [{}]. *)

Inductive BodyOutcome (J : Type) :=
| BodyResolved (body : J)
| BodyRejected (message : string).

Arguments BodyResolved {J} body.
Arguments BodyRejected {J} message.

(** The variables of one [readBody] call: [chunks], [size], and what the
    promise was settled with, if it was. *)
Record BodyReader (J : Type) := {
  body_chunks : list (list byte);
  body_size : Z;
  body_settled : option (BodyOutcome J)
}.

Arguments body_chunks {J} _.
Arguments body_size {J} _.
Arguments body_settled {J} _.

Inductive BodyEvent :=
| BodyData (chunk : list byte)
| BodyEnd
| BodyError (message : string).

Section ReadBody.

Context {node : NodeRuntime}.
Context {J : Type} (JSON_parse : string -> option J) (empty_object : J).

(** [resolve(v)] or [reject(e)] on a promise that may be settled. *)
Definition settle (o : BodyOutcome J) (s : BodyReader J) : BodyReader J :=
  match body_settled s with
  | Some _ => s
  | None =>
      {| body_chunks := body_chunks s; body_size := body_size s;
         body_settled := Some o |}
  end.

Definition body_onData (chunk : list byte) (s : BodyReader J) : BodyReader J :=
  let size := body_size s + Z.of_nat (length chunk) in
  if 2 * 1024 * 1024 <? size then
    settle (BodyRejected "body too large")
      {| body_chunks := body_chunks s; body_size := size;
         body_settled := body_settled s |}
  else
    {| body_chunks := body_chunks s ++ [chunk]; body_size := size;
       body_settled := body_settled s |}.

Definition body_onEnd (s : BodyReader J) : BodyReader J :=
  let raw := utf8_decode (concat (body_chunks s)) in
  if String.eqb raw "" then settle (BodyResolved empty_object) s
  else
    match JSON_parse raw with
    | Some v => settle (BodyResolved v) s
    | None => settle (BodyRejected "invalid json body") s
    end.

Definition body_step (s : BodyReader J) (ev : BodyEvent) : BodyReader J :=
  match ev with
  | BodyData chunk => body_onData chunk s
  | BodyEnd => body_onEnd s
  | BodyError message => settle (BodyRejected message) s
  end.

(** What the promise of [readBody] is settled with after the events of
    the request, [None] while it is pending. *)
Definition readBody (events : list BodyEvent) : option (BodyOutcome J) :=
  body_settled
    (fold_left body_step events
       {| body_chunks := []; body_size := 0; body_settled := None |}).

(** A body whose chunks all arrive, followed by [end], as the
    specification of the route reads it. *)
Definition body_of (chunks : list (list byte)) : BodyOutcome J :=
  if 2 * 1024 * 1024 <? Z.of_nat (length (concat chunks))
  then BodyRejected "body too large"
  else
    let raw := utf8_decode (concat chunks) in
    if String.eqb raw "" then BodyResolved empty_object
    else
      match JSON_parse raw with
      | Some v => BodyResolved v
      | None => BodyRejected "invalid json body"
      end.

End ReadBody.

(** * Properties *)

(** ** The scheduler invariant *)

Definition is_running (h : list Cell) (r : nat) : Prop :=
  exists c, h !! r = Some c /\ status (job c) = STATUS_RUNNING.

(** A job object that waits in the queue is [queued], or was canceled by
    [cancelJob] while it waited. *)
Definition waiting (j : Job) : Prop :=
  status j = STATUS_QUEUED \/ canceled_queued j.

(** What holds between two callbacks, as a property of the running
    counter, the queue, the job map and the job objects. *)
Record InvP (mc rc : Z) (q : list (nat * Script)) (js : list (string * nat))
    (h : list Cell) : Prop := {
  inv_count_le : 0 <= mc -> rc <= mc;
  inv_running :
    exists l, NoDup l /\ (forall r, r ∈ l <-> is_running h r) /\
              Z.of_nat (length l) = rc;
  inv_live :
    forall r j e, h !! r = Some {| job := j; exec := Some e |} ->
                  finished e = false -> status j = STATUS_RUNNING;
  inv_queue_fresh :
    forall r, r ∈ q.*1 -> exists j, h !! r = Some {| job := j; exec := None |};
  inv_queue_nodup : NoDup q.*1;
  inv_jobs_nodup : NoDup js.*2;
  inv_jobs_valid : forall r, r ∈ js.*2 -> (r < length h)%nat;
  inv_queue_waiting :
    forall r c, r ∈ q.*1 -> h !! r = Some c -> waiting (job c);
  inv_running_live :
    forall r c e, h !! r = Some c -> status (job c) = STATUS_RUNNING ->
                  exec c = Some e -> finished e = false
}.

Definition Inv (st : Runner) : Prop :=
  InvP (maxConcurrent st) (runningCount st) (queue st) (jobs st) (heap st).

Lemma is_running_insert h r c r' :
  (r < length h)%nat ->
  is_running (<[r := c]> h) r' <->
  (r' = r /\ status (job c) = STATUS_RUNNING) \/ (r' <> r /\ is_running h r').
Proof.
  intros Hlt. unfold is_running.
  destruct (decide (r' = r)) as [->|Hne].
  - rewrite list_lookup_insert_eq by done. split.
    + intros [c' [[= <-] Hs]]. by left.
    + intros [[_ Hs]|[Hne _]]; [eauto|done].
  - rewrite list_lookup_insert_ne by done. split.
    + intros H. by right.
    + intros [[Heq _]|[_ H]]; [done|done].
Qed.

Lemma filter_ne_length (l : list nat) (r : nat) :
  NoDup l -> r ∈ l -> S (length (filter (fun x => x <> r) l)) = length l.
Proof.
  induction 1 as [|x l Hx Hnd IH]; intros Hin.
  - by apply not_elem_of_nil in Hin.
  - rewrite filter_cons. destruct (decide (x <> r)) as [Hne|Heq].
    + simpl. f_equal. apply IH. set_solver.
    + apply dec_stable in Heq. subst x. simpl. f_equal. f_equal.
      clear IH Hnd Hin. induction l as [|y l IH]; [done|].
      rewrite filter_cons, decide_True by set_solver.
      f_equal. apply IH. set_solver.
Qed.

(** Rewriting a job object without a change of its being [running]. *)
Lemma InvP_update mc rc q js h r j ex j' ex' :
  InvP mc rc q js h ->
  h !! r = Some {| job := j; exec := ex |} ->
  (status j' = STATUS_RUNNING <-> status j = STATUS_RUNNING) ->
  (forall e', ex' = Some e' -> finished e' = false -> status j' = STATUS_RUNNING) ->
  (forall e', ex' = Some e' -> status j' = STATUS_RUNNING ->
               finished e' = false) ->
  (r ∈ q.*1 -> ex' = None /\ waiting j') ->
  InvP mc rc q js (<[r := {| job := j'; exec := ex' |}]> h).
Proof.
  intros [H1 H2 H3 H4 H5 H6 H7 H8 H9] Hr Hst Hlive Hrl Hq.
  assert (Hlt : (r < length h)%nat) by (by eapply lookup_lt_Some).
  split; try done.
  - destruct H2 as [l [Hnd [Hl Hlen]]]. exists l.
    split; [done|]. split; [|done].
    intros r'. rewrite Hl, is_running_insert by done. simpl.
    unfold is_running. split.
    + intros [c [Hc Hs]]. destruct (decide (r' = r)) as [->|Hne]; [left|right].
      * split; [done|]. apply Hst. by simplify_eq.
      * eauto.
    + intros [[-> Hs]|[_ H]]; [|done]. eexists. split; [done|]. by apply Hst.
  - intros r' j0 e0 Hl Hf.
    destruct (decide (r' = r)) as [->|Hne].
    + rewrite list_lookup_insert_eq in Hl by done. simplify_eq. eauto.
    + rewrite list_lookup_insert_ne in Hl by done. eauto.
  - intros r' Hin.
    destruct (decide (r' = r)) as [->|Hne].
    + rewrite list_lookup_insert_eq by done.
      rewrite (proj1 (Hq Hin)). eauto.
    + rewrite list_lookup_insert_ne by done. eauto.
  - intros r' Hin. rewrite length_insert. eauto.
  - intros r' c' Hin Hl.
    destruct (decide (r' = r)) as [->|Hne].
    + rewrite list_lookup_insert_eq in Hl by done. simplify_eq.
      apply (Hq Hin).
    + rewrite list_lookup_insert_ne in Hl by done. eauto.
  - intros r' c' e0 Hl Hs He.
    destruct (decide (r' = r)) as [->|Hne].
    + rewrite list_lookup_insert_eq in Hl by done. simplify_eq. eauto.
    + rewrite list_lookup_insert_ne in Hl by done. eauto.
Qed.

(** A job object enters [running]: the counter goes up by one. *)
Lemma InvP_start mc rc q js h r j ex j' ex' :
  InvP mc rc q js h ->
  rc < mc ->
  h !! r = Some {| job := j; exec := ex |} ->
  status j <> STATUS_RUNNING ->
  status j' = STATUS_RUNNING ->
  (forall e', ex' = Some e' -> finished e' = false -> status j' = STATUS_RUNNING) ->
  (forall e', ex' = Some e' -> status j' = STATUS_RUNNING ->
               finished e' = false) ->
  (r ∈ q.*1 -> ex' = None /\ waiting j') ->
  InvP mc (rc + 1) q js (<[r := {| job := j'; exec := ex' |}]> h).
Proof.
  intros [H1 H2 H3 H4 H5 H6 H7 H8 H9] Hrc Hr Hidle Hrun Hlive Hrl Hq.
  assert (Hlt : (r < length h)%nat) by (by eapply lookup_lt_Some).
  split; try done.
  - lia.
  - destruct H2 as [l [Hnd [Hl Hlen]]]. exists (r :: l).
    assert (Hnotin : r ∉ l).
    { rewrite Hl. intros [c [Hc Hs]]. by simplify_eq. }
    split; [by constructor|]. split; [|simpl; lia].
    intros r'. rewrite is_running_insert, elem_of_cons, Hl by done. simpl.
    split.
    + intros [->|H]; [by left|]. right. split; [|done].
      intros ->. by apply Hnotin, Hl.
    + intros [[-> _]|[_ H]]; [by left|by right].
  - intros r' j0 e0 Hl Hf.
    destruct (decide (r' = r)) as [->|Hne].
    + rewrite list_lookup_insert_eq in Hl by done. simplify_eq. eauto.
    + rewrite list_lookup_insert_ne in Hl by done. eauto.
  - intros r' Hin.
    destruct (decide (r' = r)) as [->|Hne].
    + rewrite list_lookup_insert_eq by done.
      rewrite (proj1 (Hq Hin)). eauto.
    + rewrite list_lookup_insert_ne by done. eauto.
  - intros r' Hin. rewrite length_insert. eauto.
  - intros r' c' Hin Hl.
    destruct (decide (r' = r)) as [->|Hne].
    + rewrite list_lookup_insert_eq in Hl by done. simplify_eq.
      apply (Hq Hin).
    + rewrite list_lookup_insert_ne in Hl by done. eauto.
  - intros r' c' e0 Hl Hs He.
    destruct (decide (r' = r)) as [->|Hne].
    + rewrite list_lookup_insert_eq in Hl by done. simplify_eq. eauto.
    + rewrite list_lookup_insert_ne in Hl by done. eauto.
Qed.

(** A running job object leaves [running]: the counter goes down by one. *)
Lemma InvP_stop mc rc q js h r j ex j' ex' :
  InvP mc rc q js h ->
  h !! r = Some {| job := j; exec := ex |} ->
  status j = STATUS_RUNNING ->
  status j' <> STATUS_RUNNING ->
  (forall e', ex' = Some e' -> finished e' = true) ->
  (r ∈ q.*1 -> ex' = None /\ waiting j') ->
  InvP mc (rc - 1) q js (<[r := {| job := j'; exec := ex' |}]> h).
Proof.
  intros [H1 H2 H3 H4 H5 H6 H7 H8 H9] Hr Hrun Hstop Hfin Hq.
  assert (Hlt : (r < length h)%nat) by (by eapply lookup_lt_Some).
  split; try done.
  - lia.
  - destruct H2 as [l [Hnd [Hl Hlen]]].
    exists (filter (fun x => x <> r) l).
    assert (Hin : r ∈ l) by (apply Hl; eexists; eauto).
    split; [by apply NoDup_filter|]. split.
    + intros r'. rewrite list_elem_of_filter, is_running_insert, Hl by done.
      simpl. split.
      * intros [Hne H]. by right.
      * intros [[_ Hs]|[Hne H]]; [done|done].
    + pose proof (filter_ne_length l r Hnd Hin). lia.
  - intros r' j0 e0 Hl Hf.
    destruct (decide (r' = r)) as [->|Hne].
    + rewrite list_lookup_insert_eq in Hl by done. simplify_eq.
      rewrite (Hfin e0 eq_refl) in Hf. done.
    + rewrite list_lookup_insert_ne in Hl by done. eauto.
  - intros r' Hin.
    destruct (decide (r' = r)) as [->|Hne].
    + rewrite list_lookup_insert_eq by done.
      rewrite (proj1 (Hq Hin)). eauto.
    + rewrite list_lookup_insert_ne by done. eauto.
  - intros r' Hin. rewrite length_insert. eauto.
  - intros r' c' Hin Hl.
    destruct (decide (r' = r)) as [->|Hne].
    + rewrite list_lookup_insert_eq in Hl by done. simplify_eq.
      apply (Hq Hin).
    + rewrite list_lookup_insert_ne in Hl by done. eauto.
  - intros r' c' e0 Hl Hs He.
    destruct (decide (r' = r)) as [->|Hne].
    + rewrite list_lookup_insert_eq in Hl by done. by simplify_eq.
    + rewrite list_lookup_insert_ne in Hl by done. eauto.
Qed.

Lemma map_set_values {V} (k : string) (v : V) (m : list (string * V)) x :
  x ∈ (map_set k v m).*2 -> x = v \/ x ∈ m.*2.
Proof.
  induction m as [|[k' v'] m IH]; simpl.
  - intros Hin. left. set_solver.
  - destruct (String.eqb k' k); simpl; set_solver.
Qed.

Lemma map_set_NoDup {V} (k : string) (v : V) (m : list (string * V)) :
  NoDup m.*2 -> v ∉ m.*2 -> NoDup (map_set k v m).*2.
Proof.
  induction m as [|[k' v'] m IH]; simpl; intros Hnd Hv.
  - apply NoDup_singleton.
  - apply NoDup_cons in Hnd as [Hv' Hnd].
    apply not_elem_of_cons in Hv as [Hne Hv].
    destruct (String.eqb k' k); simpl.
    + by apply NoDup_cons.
    + apply NoDup_cons. split; [|by apply IH].
      intros [->|Hin]%map_set_values; done.
Qed.

Lemma map_get_set_eq {V} (k : string) (v : V) (m : list (string * V)) :
  map_get k (map_set k v m) = Some v.
Proof.
  induction m as [|[k' v'] m IH]; simpl.
  - by rewrite String.eqb_refl.
  - destruct (String.eqb k' k) eqn:E; simpl.
    + by rewrite String.eqb_refl.
    + by rewrite E.
Qed.

Lemma map_get_set_ne {V} (k k0 : string) (v : V) (m : list (string * V)) :
  k <> k0 -> map_get k0 (map_set k v m) = map_get k0 m.
Proof.
  intros Hne. induction m as [|[k' v'] m IH]; simpl.
  - destruct (String.eqb_spec k k0); done.
  - destruct (String.eqb_spec k' k) as [->|Hk]; simpl.
    + destruct (String.eqb_spec k k0); done.
    + by rewrite IH.
Qed.

Lemma map_get_Some_values {V} (k : string) (v : V) (m : list (string * V)) :
  map_get k m = Some v -> v ∈ m.*2.
Proof.
  induction m as [|[k' v'] m IH]; simpl; [done|].
  destruct (String.eqb k' k); intros; simplify_eq; set_solver.
Qed.

(** A new job object that is not [running], entered in the job map. *)
Lemma InvP_alloc mc rc q js h id j :
  InvP mc rc q js h ->
  status j <> STATUS_RUNNING ->
  InvP mc rc q (map_set id (length h) js) (h ++ [ {| job := j; exec := None |} ]).
Proof.
  intros [H1 H2 H3 H4 H5 H6 H7 H8 H9] Hj.
  split; try done.
  - destruct H2 as [l [Hnd [Hl Hlen]]]. exists l.
    split; [done|]. split; [|done].
    intros r. rewrite Hl. unfold is_running. split.
    + intros [c [Hc Hs]]. exists c. split; [|done]. by apply lookup_app_l_Some.
    + intros [c [Hc Hs]].
      apply lookup_app_Some in Hc as [Hc|[Hge Hc]]; [by exists c|].
      apply list_lookup_singleton_Some in Hc as [_ <-]. done.
  - intros r j0 e0 Hl Hf.
    apply lookup_app_Some in Hl as [Hl|[Hge Hl]]; [eauto|].
    apply list_lookup_singleton_Some in Hl as [_ ?]. done.
  - intros r Hin. destruct (H4 r Hin) as [j0 Hj0]. exists j0.
    by apply lookup_app_l_Some.
  - apply map_set_NoDup; [done|]. intros Hin. apply H7 in Hin. lia.
  - intros r [->|Hin]%map_set_values; rewrite length_app; simpl; [lia|].
    apply H7 in Hin. lia.
  - intros r c Hin Hl. destruct (H4 r Hin) as [j0 Hj0].
    rewrite lookup_app_l in Hl by (by eapply lookup_lt_Some). eauto.
  - intros r c e0 Hl Hs He.
    apply lookup_app_Some in Hl as [Hl|[Hge Hl]]; [eauto|].
    apply list_lookup_singleton_Some in Hl as [_ <-]. done.
Qed.

Lemma InvP_enqueue mc rc q js h r s j :
  InvP mc rc q js h ->
  h !! r = Some {| job := j; exec := None |} ->
  waiting j ->
  r ∉ q.*1 ->
  InvP mc rc (q ++ [(r, s)]) js h.
Proof.
  intros [H1 H2 H3 H4 H5 H6 H7 H8 H9] Hr Hw Hq.
  split; try done.
  - intros r'. rewrite fmap_app. intros [Hin|Hin]%elem_of_app; [eauto|].
    simpl in Hin. apply list_elem_of_singleton in Hin as ->. eauto.
  - rewrite fmap_app. apply NoDup_app. split; [done|]. split.
    + intros x Hx Hx'. simpl in Hx'. apply list_elem_of_singleton in Hx' as ->.
      done.
    + simpl. apply NoDup_singleton.
  - intros r' c. rewrite fmap_app. intros [Hin|Hin]%elem_of_app Hl; [eauto|].
    simpl in Hin. apply list_elem_of_singleton in Hin as ->. by simplify_eq.
Qed.

Lemma InvP_shift mc rc r s q js h :
  InvP mc rc ((r, s) :: q) js h ->
  InvP mc rc q js h /\ (r ∉ q.*1) /\
  exists j, h !! r = Some {| job := j; exec := None |}.
Proof.
  intros [H1 H2 H3 H4 H5 H6 H7 H8 H9]. simpl in *.
  apply NoDup_cons in H5 as [Hr Hnd].
  split; [|split; [done|]].
  - split; try done.
    + intros r' Hin. apply H4. set_solver.
    + intros r' c Hin. apply H8. set_solver.
  - apply H4. set_solver.
Qed.

Section Scheduler.

Context {node : NodeRuntime}.

Lemma persistJobs_heap env st : heap (persistJobs env st) = heap st.
Proof. unfold persistJobs. by destruct (persist_ok env). Qed.

Lemma persistJobs_queue env st : queue (persistJobs env st) = queue st.
Proof. unfold persistJobs. by destruct (persist_ok env). Qed.

Lemma persistJobs_jobs env st : jobs (persistJobs env st) = jobs st.
Proof. unfold persistJobs. by destruct (persist_ok env). Qed.

Lemma persistJobs_maxConcurrent env st :
  maxConcurrent (persistJobs env st) = maxConcurrent st.
Proof. unfold persistJobs. by destruct (persist_ok env). Qed.

Lemma Inv_persist env st : Inv (persistJobs env st) <-> Inv st.
Proof. unfold Inv, persistJobs. by destruct (persist_ok env). Qed.

Ltac unfold_st :=
  unfold Inv, upd_cell, with_heap, with_files, with_runningCount, with_queue,
    with_jobs, with_store, with_seq in *;
  simpl in *.

Lemma persistJobs_runningCount env st :
  runningCount (persistJobs env st) = runningCount st.
Proof. unfold persistJobs. by destruct (persist_ok env). Qed.

(** [executeJob] keeps the invariant, and with it any property [P] that
    holds of a runner with the job counted and of what [drain] leaves. *)
Lemma executeJob_Inv_and (P : Runner -> Prop) drain env r script st j :
  (forall x, Inv x -> queue x = queue st ->
             runningCount x = runningCount st ->
             maxConcurrent x = maxConcurrent st ->
             Inv (after (drain x)) /\ P (after (drain x))) ->
  (forall x, queue x = queue st ->
             runningCount x = runningCount st + 1 ->
             maxConcurrent x = maxConcurrent st -> P x) ->
  Inv st ->
  runningCount st < maxConcurrent st ->
  heap st !! r = Some {| job := j; exec := None |} ->
  status j <> STATUS_RUNNING ->
  r ∉ (queue st).*1 ->
  Inv (after (executeJob drain env r script st)) /\
  P (after (executeJob drain env r script st)).
Proof.
  intros Hdrain HP HI Hlt Hr Hidle Hq.
  assert (Hlen : (r < length (heap st))%nat) by (by eapply lookup_lt_Some).
  unfold executeJob.
  set (j2 := set_startedAt (Some (now env)) (set_status STATUS_RUNNING j)).
  assert (Hst2 :
    upd_job r (fun j => set_startedAt (Some (now env)) (set_status STATUS_RUNNING j))
      (with_runningCount (runningCount st + 1) st)
    = with_runningCount (runningCount st + 1)
        (upd_cell r {| job := j2; exec := None |} st)).
  { unfold upd_job. simpl. rewrite Hr. done. }
  rewrite Hst2. clear Hst2.
  set (st3 := persistJobs env _).
  assert (Hh3 : heap st3 = <[r := {| job := j2; exec := None |}]> (heap st))
    by (subst st3; by rewrite persistJobs_heap).
  assert (Hq3 : queue st3 = queue st)
    by (subst st3; by rewrite persistJobs_queue).
  assert (Hj3 : jobs st3 = jobs st)
    by (subst st3; by rewrite persistJobs_jobs).
  assert (Hc3 : runningCount st3 = runningCount st + 1)
    by (subst st3; by rewrite persistJobs_runningCount).
  assert (Hm3 : maxConcurrent st3 = maxConcurrent st)
    by (subst st3; by rewrite persistJobs_maxConcurrent).
  assert (Hr3 : heap st3 !! r = Some {| job := j2; exec := None |})
    by (rewrite Hh3; by apply list_lookup_insert_eq).
  clearbody st3. rewrite Hr3. simpl.
  assert (Hfail : forall m fs,
    let y :=
      after (drain (persistJobs env
        (with_runningCount
           (runningCount
              (upd_job r
                 (fun j =>
                    set_stderrPreview ("failed to open log files: " +:+ m)
                      (set_durationMs (Some (now env - now env))
                         (set_endedAt (Some (now env))
                            (set_code (Some (-1)) (set_status STATUS_FAILED j)))))
                 (with_files fs st3)) - 1)
           (upd_job r
              (fun j =>
                 set_stderrPreview ("failed to open log files: " +:+ m)
                   (set_durationMs (Some (now env - now env))
                      (set_endedAt (Some (now env))
                         (set_code (Some (-1)) (set_status STATUS_FAILED j)))))
              (with_files fs st3))))) in
    Inv y /\ P y).
  { intros m fs. cbv zeta. apply Hdrain.
    - apply Inv_persist.
      unfold upd_job. simpl. rewrite Hr3. unfold_st.
      rewrite Hm3, Hc3, Hq3, Hj3, Hh3, list_insert_insert_eq.
      replace (runningCount st + 1 - 1) with (runningCount st) by lia.
      eapply InvP_update; done.
    - rewrite persistJobs_queue. unfold upd_job. simpl. rewrite Hr3. simpl. done.
    - rewrite persistJobs_runningCount. unfold upd_job. simpl. rewrite Hr3.
      simpl. lia.
    - rewrite persistJobs_maxConcurrent. unfold upd_job. simpl. rewrite Hr3.
      simpl. done. }
  assert (Hrun : forall fs, Inv (with_files fs st3) /\ P (with_files fs st3)).
  { intros fs. split; [|by apply HP].
    unfold_st. rewrite Hm3, Hc3, Hq3, Hj3, Hh3.
    eapply InvP_start; done. }
  destruct (mkdir_ok env r); simpl.
  2:{ specialize (Hrun (files st3)).
      assert (Hid : with_files (files st3) st3 = st3) by (by destruct st3).
      by rewrite Hid in Hrun. }
  destruct (open_logs env r) as [|m|m].
  - destruct (spawn_ok env r); simpl; [|apply Hrun].
    split; [|by apply HP].
    unfold_st. rewrite Hm3, Hc3, Hq3, Hj3, Hh3, list_insert_insert_eq.
    eapply InvP_start; try done; intros e' [= <-]; done.
  - specialize (Hfail m (files st3)).
    assert (Hid : with_files (files st3) st3 = st3) by (by destruct st3).
    rewrite Hid in Hfail. exact Hfail.
  - apply Hfail.
Qed.

Lemma executeJob_Inv drain env r script st j :
  (forall s, Inv s -> Inv (after (drain s))) ->
  Inv st ->
  runningCount st < maxConcurrent st ->
  heap st !! r = Some {| job := j; exec := None |} ->
  status j <> STATUS_RUNNING ->
  r ∉ (queue st).*1 ->
  Inv (after (executeJob drain env r script st)).
Proof.
  intros Hdrain HI Hlt Hr Hidle Hq.
  apply (executeJob_Inv_and (fun _ => True) drain env r script st j); auto.
Qed.

(** A job object that waits in the queue is not [running]. *)
Lemma waiting_not_running j : waiting j -> status j <> STATUS_RUNNING.
Proof. intros [H|[H _]]; rewrite H; done. Qed.

Lemma drainQueue_loop_Inv fuel env st :
  Inv st -> Inv (after (drainQueue_loop fuel env st)).
Proof.
  revert st. induction fuel as [|fuel IH]; intros st HI; simpl; [done|].
  destruct (runningCount st <? maxConcurrent st) eqn:Hlt; [|done].
  apply Z.ltb_lt in Hlt.
  destruct (queue st) as [|[r script] rest] eqn:Hq; [done|].
  assert (Hidle : forall j, heap st !! r = Some {| job := j; exec := None |} ->
                            status j <> STATUS_RUNNING).
  { intros j Hj. apply waiting_not_running.
    apply (inv_queue_waiting _ _ _ _ _ HI r {| job := j; exec := None |});
      [|done].
    rewrite Hq. set_solver. }
  assert (HI1 : Inv (with_queue rest st) /\ (r ∉ rest.*1) /\
                exists j, heap st !! r = Some {| job := j; exec := None |}).
  { unfold Inv in HI. rewrite Hq in HI. apply InvP_shift in HI. done. }
  destruct HI1 as [HI1 [Hr [j Hj]]].
  simpl. rewrite Hj. simpl.
  destruct (cancelRequested j).
  - apply IH, Inv_persist. unfold upd_job. simpl. rewrite Hj.
    specialize (Hidle j Hj).
    unfold_st. eapply InvP_update; done.
  - assert (HE : Inv (after (executeJob (drainQueue_loop fuel env) env r script
                               (with_queue rest st)))).
    { eapply executeJob_Inv; eauto. }
    destruct (executeJob _ _ _ _ _); simpl in *; [by apply IH|done].
Qed.

Lemma drainQueue_Inv env st : Inv st -> Inv (after (drainQueue env st)).
Proof. apply drainQueue_loop_Inv. Qed.

Lemma finishJob_Inv drain env r s c st :
  (forall s, Inv s -> Inv (after (drain s))) ->
  s <> STATUS_RUNNING ->
  Inv st -> Inv (after (finishJob drain env r s c st)).
Proof.
  intros Hdrain Hs HI. unfold finishJob.
  destruct (heap st !! r) as [[j [e|]]|] eqn:Hr; try done.
  destruct (finished e) eqn:Hf; [done|].
  apply Hdrain, Inv_persist. unfold_st.
  assert (Hrun : status j = STATUS_RUNNING) by (by eapply (inv_live _ _ _ _ _ HI)).
  eapply InvP_stop; try done.
  - intros e' [= <-]. done.
  - intros Hin. destruct (inv_queue_fresh _ _ _ _ _ HI r Hin) as [j0 Hj0].
    congruence.
Qed.

Lemma closeDecision_status t cr code signal :
  (closeDecision t cr code signal).1 <> STATUS_RUNNING.
Proof.
  unfold closeDecision.
  destruct t; [done|]. destruct cr; [done|].
  destruct (truthy_str signal); [done|].
  destruct code as [[| |]|]; done.
Qed.

Lemma onClose_Inv env r code signal st :
  Inv st -> Inv (after (onClose env r code signal st)).
Proof.
  intros HI. unfold onClose.
  destruct (heap st !! r) as [[j [e|]]|] eqn:Hr; try done.
  pose proof (closeDecision_status (timedOut e) (cancelRequested j) code signal) as Hs.
  destruct (closeDecision _ _ _ _) as [s c]. simpl in Hs.
  apply finishJob_Inv; try done. apply drainQueue_Inv.
Qed.

Lemma Inv_touch_exec r j e j' e' st :
  Inv st ->
  heap st !! r = Some {| job := j; exec := Some e |} ->
  status j' = status j ->
  finished e' = finished e ->
  Inv (upd_cell r {| job := j'; exec := Some e' |} st).
Proof.
  intros HI Hr Hs Hf. unfold_st. eapply InvP_update; try done.
  - by rewrite Hs.
  - intros e0 [= <-] Hf0. rewrite Hs. eapply (inv_live _ _ _ _ _ HI); [done|].
    congruence.
  - intros e0 [= <-] Hrun. rewrite Hs in Hrun. rewrite Hf.
    by apply (inv_running_live _ _ _ _ _ HI r _ e Hr Hrun).
  - intros Hin. destruct (inv_queue_fresh _ _ _ _ _ HI r Hin) as [j0 Hj0].
    congruence.
Qed.

Lemma onError_Inv env r m st : Inv st -> Inv (after (onError env r m st)).
Proof.
  intros HI. unfold onError.
  destruct (heap st !! r) as [[j [e|]]|] eqn:Hr; try done.
  apply finishJob_Inv; try done; [apply drainQueue_Inv|].
  eapply Inv_touch_exec; done.
Qed.

Lemma onTimeout_Inv r st : Inv st -> Inv (onTimeout r st).
Proof.
  intros HI. unfold onTimeout.
  destruct (heap st !! r) as [[j [e|]]|] eqn:Hr; try done.
  destruct (timerPending e); [|done].
  eapply Inv_touch_exec; done.
Qed.

Lemma writeLogChunk_status cap wr fd chunk k j fs :
  status (writeLogChunk cap wr fd chunk k j fs).1.1 = status j.
Proof.
  unfold writeLogChunk.
  repeat (case_match; simpl; try done).
Qed.

Lemma onData_Inv k r chunk wr st : Inv st -> Inv (onData k r chunk wr st).
Proof.
  intros HI. unfold onData.
  destruct (heap st !! r) as [[j [e|]]|] eqn:Hr; try done.
  match goal with
  | |- context [writeLogChunk ?a ?b ?c ?d ?e ?f ?g] =>
      pose proof (writeLogChunk_status a b c d e f g) as Hs;
      destruct (writeLogChunk a b c d e f g) as [[j' fs'] [m|]]
  end; simpl in Hs.
  - change (Inv (upd_cell r {| job := j'; exec := Some
       (with_previewBuf Stderr
          (appendTailBuffer
             (stderrPreviewBuf
                (with_previewBuf k
                   (appendTailBuffer (get_previewBuf k e) chunk
                      (previewMaxBytes st)) e))
             (utf8_encode
                (String "010"%char (stream_name k +:+ " log write error: " +:+ m)))
             (previewMaxBytes st))
          (with_previewBuf k
             (appendTailBuffer (get_previewBuf k e) chunk (previewMaxBytes st))
             e)) |} st)).
    eapply Inv_touch_exec; try done.
  - change (Inv (upd_cell r {| job := j'; exec := Some
       (with_previewBuf k
          (appendTailBuffer (get_previewBuf k e) chunk (previewMaxBytes st))
          e) |} st)).
    eapply Inv_touch_exec; try done.
Qed.

Lemma Inv_touch_job r j ex j' st :
  Inv st ->
  heap st !! r = Some {| job := j; exec := ex |} ->
  status j' = status j \/
    (status j <> STATUS_RUNNING /\ status j' <> STATUS_RUNNING) ->
  (waiting j -> waiting j') ->
  Inv (upd_cell r {| job := j'; exec := ex |} st).
Proof.
  intros HI Hr Hs Hw. unfold_st. eapply InvP_update; try done.
  - destruct Hs as [->|[Hn Hn']]; [done|by split].
  - intros e' -> Hf.
    pose proof (inv_live _ _ _ _ _ HI r j e' Hr Hf) as Hrun.
    destruct Hs as [->|[Hn _]]; done.
  - intros e' -> Hrun. destruct Hs as [Hs|[_ Hn]]; [|done]. rewrite Hs in Hrun.
    by apply (inv_running_live _ _ _ _ _ HI r _ e' Hr Hrun).
  - intros Hin. destruct (inv_queue_fresh _ _ _ _ _ HI r Hin) as [j0 Hj0].
    split; [congruence|].
    apply Hw, (inv_queue_waiting _ _ _ _ _ HI r _ Hin Hr).
Qed.

Lemma cancelJob_Inv env jobId st : Inv st -> Inv (cancelJob env jobId st).2.
Proof.
  intros HI. unfold cancelJob.
  destruct (map_get jobId (jobs st)) as [r|]; [|done].
  destruct (heap st !! r) as [[j ex]|] eqn:Hr; [|done]. simpl.
  destruct (is_terminal (status j)); [done|].
  assert (Hkeep : waiting j -> waiting (set_cancelRequested true j)).
  { unfold waiting. simpl. intros [Hw|(?&?&?&?)]; [by left|by right]. }
  destruct (_ && _); simpl.
  - eapply Inv_touch_job; try done. by left.
  - destruct (String.eqb_spec (status j) STATUS_QUEUED) as [Hq|Hq]; simpl.
    + apply Inv_persist. eapply Inv_touch_job; try done.
      * right. rewrite Hq. done.
      * intros _. by right.
    + eapply Inv_touch_job; try done. by left.
Qed.

Lemma createJob_Inv env sid a m st :
  Inv st ->
  let '(r, st') := createJob env sid a m st in
  Inv st' /\ r = length (heap st) /\ queue st' = queue st /\
  exists j, heap st' !! r = Some {| job := j; exec := None |} /\
            status j = STATUS_QUEUED.
Proof.
  intros HI. unfold createJob, nextJobId. simpl.
  split; [|split; [done|split]].
  - apply Inv_persist. unfold_st. by apply InvP_alloc.
  - by rewrite persistJobs_queue.
  - rewrite persistJobs_heap. simpl. eexists.
    rewrite lookup_app_r by done. by rewrite Nat.sub_diag.
Qed.

Lemma submitRun_Inv env req st : Inv st -> Inv (submitRun env req st).2.
Proof.
  intros HI. unfold submitRun.
  destruct (validateRequest _ _ _) as [script|c m|]; try done.
  pose proof (createJob_Inv env (script_id script)
                (args_or_default (req_args req))
                (resolveMode st script (req_mode req)) st HI) as Hc.
  destruct (createJob _ _ _ _ _) as [r st1].
  destruct Hc as [HI1 [-> [Hq [j [Hj Hjq]]]]].
  assert (HI2 : Inv (after (enqueue env (length (heap st)) script st1))).
  { unfold enqueue. apply drainQueue_Inv. unfold_st.
    eapply InvP_enqueue; try done; [by left|].
    rewrite Hq. intros Hin.
    destruct (inv_queue_fresh _ _ _ _ _ HI _ Hin) as [j0 Hj0].
    apply lookup_lt_Some in Hj0. lia. }
  destruct (enqueue _ _ _ _) as [st2|st2]; simpl in HI2; [|done].
  destruct (String.eqb _ "async"); [|done].
  destruct (heap st2 !! _); done.
Qed.

Lemma recover_not_running t j : status (recover t j) <> STATUS_RUNNING.
Proof.
  unfold recover.
  destruct (String.eqb_spec (status j) STATUS_RUNNING) as [Hr|Hr]; simpl.
  - by destruct (startedAt j).
  - destruct (String.eqb (status j) STATUS_QUEUED); [|done].
    by destruct (startedAt j).
Qed.

Lemma loadEntry_Inv t st e : Inv st -> Inv (loadEntry t st e).
Proof.
  intros HI. destruct e as [|r]; simpl; [done|].
  destruct (truthy_str (snap_jobId r)); simpl; [|done].
  unfold_st. apply InvP_alloc; [done|]. apply recover_not_running.
Qed.

Lemma loadJobsFromDisk_Inv t st : Inv st -> Inv (loadJobsFromDisk t st).
Proof.
  intros HI. unfold loadJobsFromDisk.
  destruct (store st) as [| | |parsed]; try done.
  revert st HI. induction parsed as [|e parsed IH]; intros st HI; simpl; [done|].
  apply IH. by apply loadEntry_Inv.
Qed.

Lemma newScriptRunner_Inv config t disk logs :
  Inv (newScriptRunner config t disk logs).
Proof.
  apply loadJobsFromDisk_Inv. unfold Inv. simpl.
  split; simpl; try done.
  - exists []. split; [apply NoDup_nil_2|]. split; [|done].
    intros r. split; [by intros ?%not_elem_of_nil|by intros [c [Hc _]]].
  - intros r Hin. by apply not_elem_of_nil in Hin.
  - apply NoDup_nil_2.
  - apply NoDup_nil_2.
  - intros r Hin. by apply not_elem_of_nil in Hin.
Qed.

Lemma step_Inv env ev st : Inv st -> Inv (step env ev st).
Proof.
  intros HI. destruct ev; simpl.
  - by apply submitRun_Inv.
  - by apply cancelJob_Inv.
  - by apply onData_Inv.
  - by apply onTimeout_Inv.
  - by apply onError_Inv.
  - by apply onClose_Inv.
Qed.

Lemma reachable_Inv config st : reachable config st -> Inv st.
Proof.
  induction 1.
  - by apply newScriptRunner_Inv.
  - by apply step_Inv.
Qed.

(** [maxConcurrent] is assigned by the constructor only. *)
Ltac frame_mc H :=
  repeat (first
    [ rewrite H
    | rewrite persistJobs_maxConcurrent
    | progress (unfold upd_job, upd_cell, with_heap, with_files,
                with_runningCount, with_queue, with_jobs, with_store, with_seq)
    | progress simpl
    | case_match ]);
  try done.

Lemma executeJob_maxConcurrent drain env r s st :
  (forall x, maxConcurrent (after (drain x)) = maxConcurrent x) ->
  maxConcurrent (after (executeJob drain env r s st)) = maxConcurrent st.
Proof. intros H. unfold executeJob. frame_mc H. Qed.

Lemma finishJob_maxConcurrent drain env r s c st :
  (forall x, maxConcurrent (after (drain x)) = maxConcurrent x) ->
  maxConcurrent (after (finishJob drain env r s c st)) = maxConcurrent st.
Proof. intros H. unfold finishJob. frame_mc H. Qed.

Lemma drainQueue_loop_maxConcurrent fuel env st :
  maxConcurrent (after (drainQueue_loop fuel env st)) = maxConcurrent st.
Proof.
  revert st. induction fuel as [|fuel IH]; intros st; simpl; [done|].
  destruct (runningCount st <? maxConcurrent st); [|done].
  destruct (queue st) as [|[r script] rest]; [done|]. simpl.
  destruct (heap st !! r) as [c|]; [|done].
  destruct (cancelRequested (job c)).
  - rewrite IH. frame_mc IH.
  - pose proof (executeJob_maxConcurrent (drainQueue_loop fuel env) env r
                  script (with_queue rest st) IH) as HE.
    destruct (executeJob _ _ _ _ _); simpl in *; [by rewrite IH|done].
Qed.

Lemma step_maxConcurrent env ev st :
  maxConcurrent (step env ev st) = maxConcurrent st.
Proof.
  pose proof (drainQueue_loop_maxConcurrent) as Hd.
  destruct ev; simpl.
  - unfold submitRun. destruct (validateRequest _ _ _); try done.
    assert (He : forall r s x,
               maxConcurrent (after (enqueue env r s x)) = maxConcurrent x).
    { intros. unfold enqueue, drainQueue. by rewrite Hd. }
    destruct (createJob _ _ _ _ _) as [r st1] eqn:Hc.
    assert (maxConcurrent st1 = maxConcurrent st) as <-.
    { unfold createJob, nextJobId in Hc. simplify_eq.
      by rewrite persistJobs_maxConcurrent. }
    rewrite <- (He r script st1).
    destruct (enqueue _ _ _ _); simpl; by repeat case_match.
  - unfold cancelJob. frame_mc Hd.
  - unfold onData. frame_mc Hd.
  - unfold onTimeout. frame_mc Hd.
  - unfold onError. destruct (heap st !! r) as [[j [e|]]|]; try done.
    rewrite finishJob_maxConcurrent; [done|]. intros x. apply Hd.
  - unfold onClose. destruct (heap st !! r) as [[j [e|]]|]; try done.
    destruct (closeDecision _ _ _ _).
    rewrite finishJob_maxConcurrent; [done|]. intros x. apply Hd.
Qed.

Lemma loadJobsFromDisk_maxConcurrent t st :
  maxConcurrent (loadJobsFromDisk t st) = maxConcurrent st.
Proof.
  unfold loadJobsFromDisk. destruct (store st) as [| | |parsed]; try done.
  revert st. induction parsed as [|e parsed IH]; intros st; simpl; [done|].
  rewrite IH. destruct e; simpl; [done|]. by case_match.
Qed.

Lemma reachable_maxConcurrent config st :
  reachable config st -> maxConcurrent st = cfg_maxConcurrent (runner config).
Proof.
  induction 1.
  - unfold newScriptRunner. by rewrite loadJobsFromDisk_maxConcurrent.
  - by rewrite step_maxConcurrent.
Qed.

Lemma runningJobs_length st :
  length (runningJobs st) =
  length (filter (running_at (heap st)) (jobs st).*2).
Proof.
  unfold runningJobs. induction (jobs st) as [|[k r] js IH]; [done|].
  simpl. rewrite filter_cons.
  destruct (decide (running_at (heap st) r)) as [Hrun|Hrun];
    unfold running_at in Hrun;
    destruct (heap st !! r) as [c|] eqn:Hr; simpl; try done.
  - rewrite filter_cons, decide_True by done. simpl. f_equal. apply IH.
  - rewrite filter_cons, decide_False by done. apply IH.
Qed.

(** C2. At every state a runner can reach, the job objects of the job map
    whose status is [running] are at most [runningCount]; [runningCount] is
    exactly the number of job objects whose status is [running] (it goes up
    by one when a job enters [running] and down by one when a running job
    ends, and not otherwise); and it is at most [maxConcurrent], the value
    the constructor took from the configuration (a non-negative integer). *)
Theorem running_jobs_bounded config st :
  0 <= cfg_maxConcurrent (runner config) ->
  reachable config st ->
  Z.of_nat (length (runningJobs st)) <= runningCount st /\
  Z.of_nat (length (runningObjects (heap st))) = runningCount st /\
  runningCount st <= maxConcurrent st /\
  maxConcurrent st = cfg_maxConcurrent (runner config).
Proof.
  intros Hmc Hr.
  pose proof (reachable_Inv _ _ Hr) as HI.
  pose proof (reachable_maxConcurrent _ _ Hr) as Hcfg.
  destruct (inv_running _ _ _ _ _ HI) as [l [Hnd [Hl Hlen]]].
  assert (Hat : forall r, running_at (heap st) r <-> is_running (heap st) r).
  { intros r. unfold running_at, is_running.
    destruct (heap st !! r) as [c|]; split.
    - intros Hs. by exists c.
    - by intros [c' [[= <-] Hs]].
    - done.
    - by intros [c' [? _]]. }
  split; [|split; [|split]].
  - rewrite runningJobs_length, <- Hlen. apply inj_le, submseteq_length.
    apply NoDup_submseteq.
    + apply NoDup_filter, (inv_jobs_nodup _ _ _ _ _ HI).
    + intros r [Hrun _]%list_elem_of_filter. by apply Hl, Hat.
  - rewrite <- Hlen. f_equal. apply Permutation_length, NoDup_Permutation.
    + apply NoDup_filter, NoDup_seq.
    + done.
    + intros r. unfold runningObjects.
      rewrite list_elem_of_filter, Hl, Hat, elem_of_seq. split.
      * by intros [H _].
      * intros H. split; [done|]. destruct H as [c [Hc _]].
        apply lookup_lt_Some in Hc. lia.
  - apply (inv_count_le _ _ _ _ _ HI). by rewrite Hcfg.
  - done.
Qed.

(** ** What the scheduler leaves alone *)

Lemma upd_job_frame r r0 f st :
  r <> r0 ->
  heap (upd_job r0 f st) !! r = heap st !! r /\
  queue (upd_job r0 f st) = queue st.
Proof.
  intros Hne. unfold upd_job. destruct (heap st !! r0); [|done].
  simpl. by rewrite list_lookup_insert_ne.
Qed.

Lemma executeJob_frames drain env r0 s r st :
  frames r drain -> r <> r0 -> r ∉ (queue st).*1 ->
  heap (after (executeJob drain env r0 s st)) !! r = heap st !! r /\
  r ∉ (queue (after (executeJob drain env r0 s st))).*1.
Proof.
  intros Hd Hne Hq. unfold executeJob.
  set (st3 := persistJobs env _).
  assert (H3 : heap st3 !! r = heap st !! r /\ queue st3 = queue st).
  { subst st3. rewrite persistJobs_heap, persistJobs_queue.
    match goal with
    | |- context [upd_job r0 ?f ?x] =>
        destruct (upd_job_frame r r0 f x Hne) as [-> ->]
    end. done. }
  destruct H3 as [Hh3 Hq3]. clearbody st3.
  destruct (heap st3 !! r0) as [c|]; [|by simpl; rewrite Hq3].
  assert (Hfail : forall m fs,
    let x :=
      upd_job r0
        (fun j =>
           set_stderrPreview ("failed to open log files: " +:+ m)
             (set_durationMs (Some (now env - now env))
                (set_endedAt (Some (now env))
                   (set_code (Some (-1)) (set_status STATUS_FAILED j)))))
        (with_files fs st3) in
    let y :=
      after (drain (persistJobs env (with_runningCount (runningCount x - 1) x)))
    in
    heap y !! r = heap st !! r /\ r ∉ (queue y).*1).
  { intros m fs x y.
    destruct (upd_job_frame r r0
      (fun j =>
           set_stderrPreview ("failed to open log files: " +:+ m)
             (set_durationMs (Some (now env - now env))
                (set_endedAt (Some (now env))
                   (set_code (Some (-1)) (set_status STATUS_FAILED j)))))
      (with_files fs st3) Hne) as [Hx Hxq].
    fold x in Hx, Hxq. simpl in Hx, Hxq.
    destruct (Hd (persistJobs env (with_runningCount (runningCount x - 1) x)))
      as [Hy Hyq].
    - rewrite persistJobs_queue. simpl. by rewrite Hxq, Hq3.
    - subst y. split; [|done].
      rewrite Hy, persistJobs_heap. simpl. by rewrite Hx. }
  destruct (mkdir_ok env r0); simpl; [|by rewrite Hq3].
  destruct (open_logs env r0) as [|m|m].
  - destruct (spawn_ok env r0); simpl; [|by rewrite Hq3].
    rewrite list_lookup_insert_ne by done. by rewrite Hq3.
  - specialize (Hfail m (files st3)).
    assert (Hid : with_files (files st3) st3 = st3) by (by destruct st3).
    rewrite Hid in Hfail. exact Hfail.
  - apply Hfail.
Qed.

Lemma drainQueue_loop_frames fuel env r : frames r (drainQueue_loop fuel env).
Proof.
  induction fuel as [|fuel IH]; intros st Hq; simpl; [done|].
  destruct (runningCount st <? maxConcurrent st); [|done].
  destruct (queue st) as [|[r0 s] rest] eqn:Hqs; [by simpl; rewrite Hqs|].
  simpl in Hq. apply not_elem_of_cons in Hq as [Hne Hq].
  simpl. destruct (heap st !! r0) as [c|] eqn:Hr0; [|done].
  destruct (cancelRequested (job c)).
  - match goal with |- context [drainQueue_loop fuel env ?x] =>
      destruct (IH x) as [Hh Hq'] end.
    + by rewrite persistJobs_queue, (proj2 (upd_job_frame r r0 _ _ Hne)).
    + split; [|done]. rewrite Hh, persistJobs_heap.
      by rewrite (proj1 (upd_job_frame r r0 _ _ Hne)).
  - destruct (executeJob_frames (drainQueue_loop fuel env) env r0 s r
                (with_queue rest st) IH Hne Hq) as [Hh Hq'].
    destruct (executeJob _ _ _ _ _) as [st2|st2]; simpl in *; [|done].
    destruct (IH _ Hq') as [Hh2 Hq2].
    split; [|done]. by rewrite Hh2, Hh.
Qed.

Lemma drainQueue_frames env r : frames r (drainQueue env).
Proof. intros x. apply drainQueue_loop_frames. Qed.

(** ** The loop of [drainQueue] ends before its fuel does *)

Lemma upd_job_queue r f st : queue (upd_job r f st) = queue st.
Proof. unfold upd_job. by destruct (heap st !! r). Qed.

Lemma executeJob_queue_length drain env r s st :
  (forall x, (length (queue (after (drain x))) <= length (queue x))%nat) ->
  (length (queue (after (executeJob drain env r s st))) <= length (queue st))%nat.
Proof.
  intros Hd. unfold executeJob.
  set (st3 := persistJobs env _).
  assert (Hq3 : queue st3 = queue st).
  { subst st3. by rewrite persistJobs_queue, upd_job_queue. }
  clearbody st3.
  destruct (heap st3 !! r) as [c|]; [|by simpl; rewrite Hq3].
  destruct (mkdir_ok env r); simpl; [|by rewrite Hq3].
  destruct (open_logs env r) as [|m|m]; simpl.
  - destruct (spawn_ok env r); simpl; by rewrite Hq3.
  - etrans; [apply Hd|].
    by rewrite persistJobs_queue; simpl; rewrite upd_job_queue, Hq3.
  - etrans; [apply Hd|].
    by rewrite persistJobs_queue; simpl; rewrite upd_job_queue; simpl; rewrite Hq3.
Qed.

Lemma drainQueue_loop_queue_length fuel env st :
  (length (queue (after (drainQueue_loop fuel env st))) <= length (queue st))%nat.
Proof.
  revert st. induction fuel as [|fuel IH]; intros st; simpl; [done|].
  destruct (runningCount st <? maxConcurrent st); [|done].
  destruct (queue st) as [|[r s] rest] eqn:Hq; [by simpl; rewrite Hq|].
  simpl. destruct (heap st !! r) as [c|]; [|simpl; lia].
  destruct (cancelRequested (job c)).
  - etrans; [apply IH|].
    rewrite persistJobs_queue, upd_job_queue. simpl. lia.
  - pose proof (executeJob_queue_length (drainQueue_loop fuel env) env r s
                  (with_queue rest st) IH) as HE.
    destruct (executeJob _ _ _ _ _) as [st2|st2]; simpl in *.
    + etrans; [apply IH|]. lia.
    + lia.
Qed.

Lemma drainQueue_queue_length env st :
  (length (queue (after (drainQueue env st))) <= length (queue st))%nat.
Proof. apply drainQueue_loop_queue_length. Qed.

Lemma executeJob_ext d1 d2 env r s st :
  (forall x, queue x = queue st -> d1 x = d2 x) ->
  executeJob d1 env r s st = executeJob d2 env r s st.
Proof.
  intros Hd. unfold executeJob.
  set (st3 := persistJobs env _).
  assert (Hq3 : queue st3 = queue st).
  { subst st3. by rewrite persistJobs_queue, upd_job_queue. }
  clearbody st3.
  destruct (heap st3 !! r) as [c|]; [|done].
  destruct (mkdir_ok env r); simpl; [|done].
  destruct (open_logs env r) as [|m|m]; simpl; [done| |];
    apply Hd; rewrite persistJobs_queue; simpl; rewrite upd_job_queue; done.
Qed.

Lemma drainQueue_loop_enough n m env st :
  (length (queue st) < n)%nat -> (n <= m)%nat ->
  drainQueue_loop m env st = drainQueue_loop n env st.
Proof.
  revert m st. induction n as [|n IH]; intros m st Hlen Hnm; [lia|].
  destruct m as [|m]; [lia|]. simpl.
  destruct (runningCount st <? maxConcurrent st); [|done].
  destruct (queue st) as [|[r s] rest] eqn:Hq; [done|].
  simpl in Hlen. simpl.
  destruct (heap st !! r) as [c|]; [|done].
  destruct (cancelRequested (job c)).
  - apply IH; [|lia]. rewrite persistJobs_queue, upd_job_queue. simpl. lia.
  - rewrite (executeJob_ext (drainQueue_loop m env) (drainQueue_loop n env)).
    + pose proof (executeJob_queue_length (drainQueue_loop n env) env r s
                    (with_queue rest st)
                    (fun x => drainQueue_loop_queue_length n env x)) as HE.
      destruct (executeJob _ _ _ _ _) as [st2|st2]; simpl in *; [|done].
      apply IH; lia.
    + intros x Hx. apply IH; [|lia]. rewrite Hx. simpl. lia.
Qed.

(** More fuel than [drainQueue] gives its loop changes nothing: the loop
    has ended on its own condition. *)
Lemma drainQueue_total fuel env st :
  (length (queue st) < fuel)%nat ->
  drainQueue_loop fuel env st = drainQueue env st.
Proof.
  intros Hlen. unfold drainQueue.
  destruct (decide (S (length (queue st)) <= fuel)%nat) as [Hle|Hgt]; [|lia].
  apply drainQueue_loop_enough; lia.
Qed.

Lemma drainQueue_loop_S fuel env st :
  drainQueue_loop (S fuel) env st =
  if runningCount st <? maxConcurrent st then
    match queue st with
    | [] => Returns st
    | (r, script) :: rest =>
        let st1 := with_queue rest st in
        match heap st1 !! r with
        | None => Returns st1
        | Some c =>
            if cancelRequested (job c) then
              drainQueue_loop fuel env
                (persistJobs env
                   (upd_job r
                      (fun j =>
                         set_durationMs (Some 0)
                           (set_endedAt (Some (now env))
                              (set_code (Some (-1))
                                 (set_status STATUS_CANCELED j))))
                      st1))
            else
              match executeJob (drainQueue_loop fuel env) env r script st1
              with
              | Returns st2 => drainQueue_loop fuel env st2
              | Throws st2 => Throws st2
              end
        end
    end
  else Returns st.
Proof. reflexivity. Qed.

(** [drainQueue] as the source has it: the loop turned into recursion, the
    call inside [executeJob] being [drainQueue] itself, and an exception of
    [executeJob] leaving the loop. *)
Lemma drainQueue_unfold env st :
  drainQueue env st =
  if runningCount st <? maxConcurrent st then
    match queue st with
    | [] => Returns st
    | (r, script) :: rest =>
        let st1 := with_queue rest st in
        match heap st1 !! r with
        | None => Returns st1
        | Some c =>
            if cancelRequested (job c) then
              drainQueue env
                (persistJobs env
                   (upd_job r
                      (fun j =>
                         set_durationMs (Some 0)
                           (set_endedAt (Some (now env))
                              (set_code (Some (-1))
                                 (set_status STATUS_CANCELED j))))
                      st1))
            else
              match executeJob (drainQueue env) env r script st1 with
              | Returns st2 => drainQueue env st2
              | Throws st2 => Throws st2
              end
        end
    end
  else Returns st.
Proof.
  unfold drainQueue at 1. rewrite drainQueue_loop_S.
  destruct (runningCount st <? maxConcurrent st); [|done].
  destruct (queue st) as [|[r script] rest] eqn:Hq; [done|].
  cbv zeta. destruct (heap (with_queue rest st) !! r) as [c|]; [|done].
  destruct (cancelRequested (job c)).
  - apply drainQueue_total.
    rewrite persistJobs_queue, upd_job_queue. simpl. lia.
  - rewrite (executeJob_ext (drainQueue_loop (length ((r, script) :: rest)) env)
               (drainQueue env)).
    + pose proof (executeJob_queue_length (drainQueue env) env r script
                    (with_queue rest st)
                    (fun x => drainQueue_queue_length env x)) as HE.
      destruct (executeJob _ _ _ _ _) as [st2|st2]; simpl in HE; [|done].
      apply drainQueue_total. simpl. lia.
    + intros x Hx. apply drainQueue_total. rewrite Hx. simpl. lia.
Qed.

(** ** Exit classification *)

Lemma finishJob_result env r s c st j e :
  Inv st ->
  heap st !! r = Some {| job := j; exec := Some e |} ->
  finished e = false ->
  exists j' e',
    heap (after (finishJob (drainQueue env) env r s c st)) !! r
      = Some {| job := j'; exec := Some e' |} /\
    status j' = s /\ code j' = Some c /\ endedAt j' = Some (now env) /\
    finished e' = true.
Proof.
  intros HI Hr Hf. unfold finishJob. rewrite Hr, Hf.
  assert (Hlt : (r < length (heap st))%nat) by (by eapply lookup_lt_Some).
  match goal with |- context [drainQueue env ?x] =>
    destruct (drainQueue_frames env r x) as [Hh _] end.
  - rewrite persistJobs_queue. simpl. intros Hin.
    destruct (inv_queue_fresh _ _ _ _ _ HI r Hin) as [j0 Hj0]. congruence.
  - rewrite Hh, persistJobs_heap. simpl.
    rewrite list_lookup_insert_eq by done. eauto 10.
Qed.

(** C1. On the [close] event of the child of a running job, the job ends
    with the status and code of the first rule that applies: the timeout
    fired, a cancel was requested, the child was killed by a signal, the
    exit code is 0, any other exit code (-1 when there is none).  A job
    whose timeout fired or whose cancel was requested never ends as
    [failed].  The job has a child: [e] holds the variables of the
    [executeJob] call that spawned it.  The job is as stated when the
    handler is left, be it by an exception of the scheduler it calls. *)
Theorem close_priority config st env r c e exitCode signal :
  reachable config st ->
  heap st !! r = Some c ->
  status (job c) = STATUS_RUNNING ->
  exec c = Some e ->
  exists j',
    job <$> heap (after (onClose env r exitCode signal st)) !! r = Some j' /\
    (timedOut e = true ->
     status j' = STATUS_TIMED_OUT /\ code j' = Some (-1)) /\
    (timedOut e = false -> cancelRequested (job c) = true ->
     status j' = STATUS_CANCELED /\ code j' = Some (-1)) /\
    (timedOut e = false -> cancelRequested (job c) = false ->
     truthy_str signal = true ->
     status j' = STATUS_FAILED /\ code j' = Some (-1)) /\
    (timedOut e = false -> cancelRequested (job c) = false ->
     truthy_str signal = false -> exitCode = Some 0 ->
     status j' = STATUS_SUCCEEDED /\ code j' = Some 0) /\
    (timedOut e = false -> cancelRequested (job c) = false ->
     truthy_str signal = false ->
     forall n, exitCode = Some n -> n <> 0 ->
     status j' = STATUS_FAILED /\ code j' = Some n) /\
    (timedOut e = false -> cancelRequested (job c) = false ->
     truthy_str signal = false -> exitCode = None ->
     status j' = STATUS_FAILED /\ code j' = Some (-1)) /\
    (timedOut e = true \/ cancelRequested (job c) = true ->
     status j' <> STATUS_FAILED).
Proof.
  intros Hreach Hr Hrun He.
  pose proof (reachable_Inv _ _ Hreach) as HI.
  pose proof (inv_running_live _ _ _ _ _ HI r c e Hr Hrun He) as Hf.
  destruct c as [j ex]. simpl in He, Hrun. subst ex. simpl.
  unfold onClose. rewrite Hr.
  destruct (closeDecision (timedOut e) (cancelRequested j) exitCode signal)
    as [s cd] eqn:Hd.
  destruct (finishJob_result env r s cd st j e HI Hr Hf)
    as [j' [e' [Hh [Hs [Hc _]]]]].
  exists j'. rewrite Hh. split; [done|].
  rewrite Hs, Hc. unfold closeDecision in Hd.
  destruct (timedOut e), (cancelRequested j), (truthy_str signal),
    exitCode as [[| |]|]; simplify_eq;
    repeat split; intros; simplify_eq; try done; try lia;
    try (destruct_or?; done);
    try (match goal with H : _ = status _ |- _ => rewrite <- H end; done).
Qed.

(** ** Validation *)



(** ** Log cap *)

Lemma get_size_set_truncated k k' v j :
  get_size k (set_truncated k' v j) = get_size k j.
Proof. by destruct k, k'. Qed.

Lemma get_size_set_size k v j : get_size k (set_size k v j) = v.
Proof. by destruct k. Qed.

Lemma get_truncated_set_truncated k v j :
  get_truncated k (set_truncated k v j) = v.
Proof. by destruct k. Qed.

Lemma get_truncated_set_size k k' v j :
  get_truncated k (set_size k' v j) = get_truncated k j.
Proof. by destruct k, k'. Qed.

Lemma writeLogChunk_size_le cap wr fd chunk k j fs :
  get_size k j <= cap ->
  get_size k j <= get_size k (writeLogChunk cap wr fd chunk k j fs).1.1 <= cap.
Proof.
  intros Hle. unfold writeLogChunk.
  destruct (cap <=? get_size k j) eqn:Hcap; simpl.
  - rewrite get_size_set_truncated. lia.
  - apply Z.leb_gt in Hcap.
    pose proof (length_take_le chunk (Z.to_nat (cap - get_size k j))) as Hlen.
    set (toWrite := take _ chunk) in *.
    assert (Z.of_nat (length toWrite) <= cap - get_size k j).
    { subst toWrite. rewrite length_take. lia. }
    destruct (0 <? Z.of_nat (length toWrite)).
    + destruct (fs_writeSync wr fd toWrite fs); simpl; [lia|].
      destruct (_ <? _); simpl;
        rewrite ?get_size_set_truncated, get_size_set_size; lia.
    + destruct (_ <? _); simpl; rewrite ?get_size_set_truncated; lia.
Qed.

(** One chunk that is not empty, written without an I/O error. *)
Lemma writeLogChunk_ok cap p chunk k j fs :
  0 <= get_size k j <= cap ->
  chunk <> [] ->
  let res := writeLogChunk cap WriteOk (Some p) chunk k j fs in
  get_size k res.1.1 = Z.min cap (get_size k j + Z.of_nat (length chunk)) /\
  get_truncated k res.1.1 =
    get_truncated k j || (cap <? get_size k j + Z.of_nat (length chunk)).
Proof.
  intros Hsz Hne. unfold writeLogChunk.
  assert (Hpos : (0 < length chunk)%nat) by (destruct chunk; [done|simpl; lia]).
  destruct (cap <=? get_size k j) eqn:Hcap; simpl.
  - apply Z.leb_le in Hcap.
    rewrite get_size_set_truncated, get_truncated_set_truncated.
    split; [lia|].
    replace (cap <? get_size k j + Z.of_nat (length chunk)) with true
      by (symmetry; apply Z.ltb_lt; lia).
    by rewrite orb_true_r.
  - apply Z.leb_gt in Hcap.
    set (toWrite := take _ chunk).
    assert (Hlen : Z.of_nat (length toWrite)
                   = Z.min (cap - get_size k j) (Z.of_nat (length chunk))).
    { subst toWrite. rewrite length_take. lia. }
    replace (0 <? Z.of_nat (length toWrite)) with true
      by (symmetry; apply Z.ltb_lt; lia).
    simpl.
    destruct (Z.of_nat (length toWrite) <? Z.of_nat (length chunk)) eqn:Hclamp;
      simpl;
      rewrite ?get_size_set_truncated, ?get_truncated_set_truncated,
        ?get_size_set_size, ?get_truncated_set_size.
    + apply Z.ltb_lt in Hclamp. split; [lia|].
      replace (cap <? get_size k j + Z.of_nat (length chunk)) with true
        by (symmetry; apply Z.ltb_lt; lia).
      by rewrite orb_true_r.
    + apply Z.ltb_ge in Hclamp. split; [lia|].
      replace (cap <? get_size k j + Z.of_nat (length chunk)) with false
        by (symmetry; apply Z.ltb_ge; lia).
      by rewrite orb_false_r.
Qed.

Lemma writeChunks_size_le cap fd k chunks j fs :
  get_size k j <= cap ->
  get_size k (writeChunks cap fd k chunks j fs).1 <= cap.
Proof.
  revert j fs. induction chunks as [|[chunk wr] rest IH]; intros j fs Hle;
    simpl; [done|].
  pose proof (writeLogChunk_size_le cap wr fd chunk k j fs Hle) as Hs.
  destruct (writeLogChunk cap wr fd chunk k j fs) as [[j' fs'] m].
  apply IH. simpl in Hs. lia.
Qed.

Lemma writeChunks_ok cap p k chunks j fs :
  0 <= get_size k j <= cap ->
  Forall (fun c => c.1 <> [] /\ c.2 = WriteOk) chunks ->
  let res := writeChunks cap (Some p) k chunks j fs in
  get_size k res.1 = Z.min cap (get_size k j + attempted chunks) /\
  get_truncated k res.1 =
    get_truncated k j || (cap <? get_size k j + attempted chunks).
Proof.
  revert j fs. induction chunks as [|[chunk wr] rest IH]; intros j fs Hsz Hall.
  - unfold attempted. simpl.
    replace (cap <? get_size k j + Z.of_nat 0) with false
      by (symmetry; apply Z.ltb_ge; lia).
    rewrite orb_false_r. split; [lia|done].
  - apply Forall_cons in Hall as [[Hne Hwr] Hall]. simpl in Hne, Hwr. subst wr.
    simpl.
    destruct (writeLogChunk_ok cap p chunk k j fs Hsz Hne) as [Hs Ht].
    destruct (writeLogChunk cap WriteOk (Some p) chunk k j fs) as [[j' fs'] m].
    simpl in Hs, Ht.
    assert (Hsz' : 0 <= get_size k j' <= cap) by lia.
    destruct (IH j' fs' Hsz' Hall) as [Hs' Ht'].
    assert (Hatt : attempted ((chunk, WriteOk) :: rest)
                   = Z.of_nat (length chunk) + attempted rest).
    { unfold attempted. rewrite fmap_cons, concat_cons, length_app. simpl. lia. }
    assert (0 <= attempted rest) by (unfold attempted; lia).
    rewrite Hatt, Hs', Ht', Hs, Ht. split; [lia|].
    rewrite <- orb_assoc. f_equal.
    destruct (cap <? get_size k j + Z.of_nat (length chunk)) eqn:E1;
      destruct (cap <? Z.min cap (get_size k j + Z.of_nat (length chunk))
                       + attempted rest) eqn:E2;
      destruct (cap <? get_size k j + (Z.of_nat (length chunk) + attempted rest))
        eqn:E3; try done;
      rewrite ?Z.ltb_lt, ?Z.ltb_ge in *; lia.
Qed.

(** The writes of the chunks that do not throw. *)
Lemma written_all_ok chunks :
  Forall (fun c : list byte * WriteOutcome => c.2 = WriteOk) chunks ->
  written chunks = chunks.*1.
Proof.
  induction 1 as [|[chunk wr] rest Hwr _ IH]; [done|].
  simpl in Hwr. subst wr.
  change (written ((chunk, WriteOk) :: rest)) with (chunk :: written rest).
  by rewrite IH.
Qed.

Lemma attempted_cons chunk wr rest :
  attempted ((chunk, wr) :: rest) = Z.of_nat (length chunk) + attempted rest.
Proof. unfold attempted. rewrite fmap_cons, concat_cons, length_app. simpl. lia. Qed.

(** One chunk that is not empty sets the flag only when it takes the
    bytes attempted past the cap, whatever its write does. *)
Lemma writeLogChunk_flag cap wr fd chunk k j fs :
  get_size k j <= cap ->
  chunk <> [] ->
  let res := writeLogChunk cap wr fd chunk k j fs in
  get_size k res.1.1 <= get_size k j + Z.of_nat (length chunk) /\
  (get_truncated k res.1.1 = true ->
   get_truncated k j = true \/ cap < get_size k j + Z.of_nat (length chunk)).
Proof.
  intros Hsz Hne. unfold writeLogChunk.
  assert (Hpos : (0 < length chunk)%nat) by (destruct chunk; [done|simpl; lia]).
  destruct (cap <=? get_size k j) eqn:Hcap; simpl.
  - apply Z.leb_le in Hcap. rewrite get_size_set_truncated.
    split; [lia|]. intros _. right. lia.
  - apply Z.leb_gt in Hcap.
    set (toWrite := take _ chunk).
    assert (Hlen : Z.of_nat (length toWrite)
                   = Z.min (cap - get_size k j) (Z.of_nat (length chunk))).
    { subst toWrite. rewrite length_take. lia. }
    destruct (0 <? Z.of_nat (length toWrite)).
    + destruct (fs_writeSync wr fd toWrite fs); simpl; [split; [lia|by left]|].
      destruct (Z.of_nat (length toWrite) <? Z.of_nat (length chunk)) eqn:Hclamp;
        simpl;
        rewrite ?get_size_set_truncated, ?get_truncated_set_truncated,
          ?get_size_set_size, ?get_truncated_set_size.
      * apply Z.ltb_lt in Hclamp. split; [lia|]. intros _. right. lia.
      * split; [lia|]. by left.
    + destruct (Z.of_nat (length toWrite) <? Z.of_nat (length chunk)) eqn:Hclamp;
        simpl; rewrite ?get_size_set_truncated.
      * apply Z.ltb_lt in Hclamp. split; [lia|]. intros _. right. lia.
      * split; [lia|]. by left.
Qed.

Lemma writeChunks_flag cap fd k chunks j fs :
  0 <= get_size k j <= cap ->
  Forall (fun c => c.1 <> []) chunks ->
  get_truncated k (writeChunks cap fd k chunks j fs).1 = true ->
  get_truncated k j = true \/ cap < get_size k j + attempted chunks.
Proof.
  revert j fs. induction chunks as [|[chunk wr] rest IH]; intros j fs Hsz Hall.
  - simpl. by left.
  - apply Forall_cons in Hall as [Hne Hall]. simpl in Hne. simpl.
    pose proof (writeLogChunk_size_le cap wr fd chunk k j fs (proj2 Hsz)) as Hle.
    destruct (writeLogChunk_flag cap wr fd chunk k j fs (proj2 Hsz) Hne)
      as [Hstep Hflag].
    destruct (writeLogChunk cap wr fd chunk k j fs) as [[j' fs'] m].
    simpl in Hle, Hstep, Hflag. intros Ht.
    rewrite attempted_cons.
    assert (0 <= attempted rest) by (unfold attempted; lia).
    destruct (IH j' fs' ltac:(lia) Hall Ht) as [Ht'|Hover].
    + destruct (Hflag Ht') as [?|?]; [by left|right; lia].
    + right. lia.
Qed.

(** One chunk that is not empty and whose write throws: nothing is
    written, and the flag is set when the size is at the cap. *)
Lemma writeLogChunk_fails cap m p chunk k j fs :
  0 <= get_size k j <= cap ->
  chunk <> [] ->
  let res := writeLogChunk cap (WriteFails m) (Some p) chunk k j fs in
  get_size k res.1.1 = get_size k j /\
  (get_truncated k j = true -> get_truncated k res.1.1 = true).
Proof.
  intros Hsz Hne. unfold writeLogChunk.
  assert (Hpos : (0 < length chunk)%nat) by (destruct chunk; [done|simpl; lia]).
  destruct (cap <=? get_size k j) eqn:Hcap; simpl.
  - by rewrite get_size_set_truncated, get_truncated_set_truncated.
  - apply Z.leb_gt in Hcap.
    set (toWrite := take _ chunk).
    assert (Hlen : Z.of_nat (length toWrite)
                   = Z.min (cap - get_size k j) (Z.of_nat (length chunk))).
    { subst toWrite. rewrite length_take. lia. }
    replace (0 <? Z.of_nat (length toWrite)) with true
      by (symmetry; apply Z.ltb_lt; lia).
    done.
Qed.

Lemma writeChunks_written cap p k chunks j fs :
  0 <= get_size k j <= cap ->
  Forall (fun c => c.1 <> []) chunks ->
  let res := writeChunks cap (Some p) k chunks j fs in
  let bytes := Z.of_nat (length (concat (written chunks))) in
  get_size k res.1 = Z.min cap (get_size k j + bytes) /\
  (get_truncated k j = true \/ cap < get_size k j + bytes ->
   get_truncated k res.1 = true).
Proof.
  revert j fs. induction chunks as [|[chunk wr] rest IH]; intros j fs Hsz Hall.
  - simpl. split; [lia|]. intros [?|?]; [done|lia].
  - apply Forall_cons in Hall as [Hne Hall]. simpl in Hne.
    destruct wr as [|m]; cbn [writeChunks].
    + destruct (writeLogChunk_ok cap p chunk k j fs Hsz Hne) as [Hs Ht].
      destruct (writeLogChunk cap WriteOk (Some p) chunk k j fs) as [[j' fs'] e].
      simpl in Hs, Ht.
      destruct (IH j' fs' ltac:(lia) Hall) as [Hs' Ht'].
      change (written ((chunk, WriteOk) :: rest)) with (chunk :: written rest).
      rewrite concat_cons, length_app.
      set (w := Z.of_nat (length (concat (written rest)))) in *.
      assert (0 <= w) by (subst w; lia).
      split; [rewrite Hs', Hs; lia|].
      intros Hpre. apply Ht'. rewrite Ht, Hs.
      destruct (Z.ltb_spec cap (get_size k j + Z.of_nat (length chunk))).
      * left. by rewrite orb_true_r.
      * destruct Hpre as [->|Hover]; [by left|right; lia].
    + destruct (writeLogChunk_fails cap m p chunk k j fs Hsz Hne) as [Hs Ht].
      destruct (writeLogChunk cap (WriteFails m) (Some p) chunk k j fs)
        as [[j' fs'] e].
      simpl in Hs, Ht.
      destruct (IH j' fs' ltac:(lia) Hall) as [Hs' Ht'].
      change (written ((chunk, WriteFails m) :: rest)) with (written rest).
      rewrite Hs', Hs. split; [done|].
      intros [Hpre|Hpre]; apply Ht'; [left; by apply Ht|right; lia].
Qed.

(** C4 as amended.  On either stream, for a job that starts at size 0
    with the flag unset, and chunks that are not empty (a stream delivers
    no empty chunk): the log-write steps keep the size within the cap
    after every chunk, whatever the writes do, and a set flag means that
    the chunks add up to more than the cap.  The size ends at the bytes
    of the chunks whose write did not throw, clamped to the cap, and the
    flag ends set when those bytes exceed the cap; so when every write
    succeeds, the flag ends set exactly when the chunks add up to more
    than the cap. *)
Theorem log_cap_respected cap fd k chunks j fs :
  0 <= cap ->
  get_size k j = 0 ->
  get_truncated k j = false ->
  Forall (fun c => c.1 <> []) chunks ->
  let final := (writeChunks cap fd k chunks j fs).1 in
  (forall n, get_size k (writeChunks cap fd k (take n chunks) j fs).1 <= cap) /\
  (get_truncated k final = true -> cap < attempted chunks) /\
  (forall p, fd = Some p ->
     get_size k final = Z.min cap (Z.of_nat (length (concat (written chunks)))) /\
     (cap < Z.of_nat (length (concat (written chunks))) ->
      get_truncated k final = true) /\
     (Forall (fun c => c.2 = WriteOk) chunks ->
      get_size k final = Z.min cap (attempted chunks) /\
      (get_truncated k final = true <-> cap < attempted chunks))).
Proof.
  intros Hcap Hs Ht Hne final.
  assert (Hsz : 0 <= get_size k j <= cap) by lia.
  assert (Hsound : get_truncated k final = true -> cap < attempted chunks).
  { intros Hf. destruct (writeChunks_flag cap fd k chunks j fs Hsz Hne Hf);
      [congruence|lia]. }
  split; [|split; [done|]].
  - intros n. apply writeChunks_size_le. lia.
  - intros p ->.
    destruct (writeChunks_written cap p k chunks j fs Hsz Hne) as [Hs' Ht'].
    fold final in Hs', Ht'. rewrite Hs in Hs', Ht'.
    split; [done|]. split; [intros Hover; apply Ht'; by right|].
    intros Hok. rewrite (written_all_ok _ Hok) in *.
    fold (attempted chunks) in *.
    split; [done|]. split; [done|]. intros Hover. apply Ht'. by right.
Qed.

(** ** Reading logs *)

Lemma stream_name_eqb k :
  String.eqb (stream_name k) "stdout" = match k with Stdout => true | Stderr => false end /\
  String.eqb (stream_name k) "stderr" = match k with Stdout => false | Stderr => true end.
Proof. by destruct k. Qed.

Lemma take_min_drop {A} (l : list A) (n o : nat) :
  take (n `min` (length l - o)) (drop o l) = take n (drop o l).
Proof.
  destruct (decide (n <= length l - o)%nat) as [Hle|Hgt].
  - by rewrite Nat.min_l.
  - rewrite Nat.min_r by lia.
    rewrite !take_ge; [done| |]; rewrite length_drop; lia.
Qed.

(** C6. For a known job, a stream of [stdout] and [stderr], an integer
    offset that is not negative and a positive integer limit, [getJobLogs]
    answers with the offset it was given and the truncation flag of the
    stream; when the job names no log file or the file does not exist, with
    total size 0, no data and the same next offset; otherwise with the size
    of the file as total size and, when the offset is at or past that size,
    no data and the same next offset, else the decoding of the bytes read
    from the offset on, at most [min limit 1MiB] of them, the next offset
    advanced by their number. *)
Theorem getJobLogs_page jobId k offset limit st c :
  known_job jobId st = Some c ->
  0 <= offset ->
  0 < limit ->
  exists page,
    getJobLogs jobId (Some (stream_name k)) (NumInt offset) (NumInt limit) st
      = ApiOk page /\
    page_jobId page = jobId /\
    page_stream page = stream_name k /\
    page_offset page = offset /\
    page_truncated page = get_truncated k (job c) /\
    match log_content st k (job c) with
    | None =>
        page_totalSize page = 0 /\ page_nextOffset page = offset /\
        page_data page = ""
    | Some bytes =>
        page_totalSize page = Z.of_nat (length bytes) /\
        if decide (Z.of_nat (length bytes) <= offset) then
          page_nextOffset page = offset /\ page_data page = ""
        else
          let read :=
            take (Z.to_nat (Z.min limit (1024 * 1024)))
                 (drop (Z.to_nat offset) bytes) in
          page_data page = utf8_decode read /\
          page_nextOffset page = offset + Z.of_nat (length read) /\
          0 < Z.of_nat (length read) <= Z.min limit (1024 * 1024)
    end.
Proof.
  intros Hjob Hoff Hlim. unfold known_job in Hjob.
  unfold getJobLogs, log_content. simpl. rewrite Hjob.
  destruct (stream_name_eqb k) as [E1 E2]. rewrite E1, E2.
  replace (0 <=? offset) with true by (symmetry; by apply Z.leb_le).
  replace (0 <? limit) with true by (symmetry; by apply Z.ltb_lt).
  assert (Hsel :
    (if match k with Stdout => true | Stderr => false end
     then stdoutRef (job c) else stderrRef (job c)) = get_ref k (job c) /\
    (if match k with Stdout => true | Stderr => false end
     then stdoutTruncated (job c) else stderrTruncated (job c))
      = get_truncated k (job c) /\
    negb match k with Stdout => true | Stderr => false end
      && negb match k with Stdout => false | Stderr => true end = false)
    by (by destruct k).
  destruct Hsel as [-> [-> ->]].
  destruct (truthy_str (get_ref k (job c))); simpl; [|eauto 10].
  destruct (files st !! path_join (logsDir st) (default "" (get_ref k (job c))))
    as [bytes|]; [|eauto 10].
  destruct (Z.of_nat (length bytes) <=? offset) eqn:Hge.
  - apply Z.leb_le in Hge. eexists. split; [done|]. simpl.
    rewrite decide_True by done. done.
  - apply Z.leb_gt in Hge. eexists. split; [done|]. simpl.
    rewrite decide_False by lia.
    set (L := Z.min limit (1024 * 1024)).
    assert (HL : 0 < L) by (subst L; lia).
    replace (Z.to_nat (Z.min L (Z.of_nat (length bytes) - offset)))
      with (Z.to_nat L `min` (length bytes - Z.to_nat offset))%nat by lia.
    rewrite take_min_drop.
    repeat split; try done; rewrite length_take, length_drop; lia.
Qed.

Lemma safe_offset_nonneg offset : 0 <= safe_offset offset.
Proof.
  unfold safe_offset. destruct offset as [|o|]; try lia.
  destruct (Z.leb_spec 0 o); lia.
Qed.

Lemma safe_limit_pos limit : 0 < safe_limit limit <= 1024 * 1024.
Proof.
  unfold safe_limit. destruct limit as [|l|]; try lia.
  destruct (Z.ltb_spec 0 l); lia.
Qed.

Lemma getJobLogs_normalised jobId stream offset limit st :
  getJobLogs jobId stream offset limit st
  = getJobLogs jobId stream (NumInt (safe_offset offset))
      (NumInt (safe_limit limit)) st.
Proof.
  pose proof (safe_offset_nonneg offset) as Ho.
  pose proof (safe_limit_pos limit) as Hl.
  unfold getJobLogs. simpl.
  destruct (map_get jobId (jobs st) ≫= (fun r => heap st !! r)) as [c|]; [|done].
  destruct (negb (default "stdout" stream =? "stdout")%string
            && negb (default "stdout" stream =? "stderr")%string); [done|].
  assert (Hoff : match int_or offset 0 with
                 | NumInt o => if 0 <=? o then o else 0
                 | _ => 0
                 end = safe_offset offset) by (by destruct offset).
  assert (Hlim : Z.min (match int_or limit 65536 with
                        | NumInt l => if 0 <? l then l else 65536
                        | _ => 65536
                        end) (1024 * 1024) = safe_limit limit)
    by (by destruct limit).
  rewrite Hoff, Hlim.
  replace (0 <=? safe_offset offset) with true
    by (symmetry; by apply Z.leb_le).
  replace (0 <? safe_limit limit) with true
    by (symmetry; apply Z.ltb_lt; lia).
  replace (Z.min (safe_limit limit) (1024 * 1024)) with (safe_limit limit)
    by lia.
  done.
Qed.

Lemma getJobLogs_ok jobId stream offset limit st c k :
  known_job jobId st = Some c ->
  default "stdout" stream = stream_name k ->
  exists page,
    getJobLogs jobId stream offset limit st = ApiOk page /\
    page_offset page = safe_offset offset.
Proof.
  unfold known_job. intros Hjob Hk. unfold getJobLogs. rewrite Hjob, Hk.
  destruct (stream_name_eqb k) as [-> ->].
  assert (Hoff : match int_or offset 0 with
                 | NumInt o => if 0 <=? o then o else 0
                 | _ => 0
                 end = safe_offset offset) by (by destruct offset).
  rewrite Hoff.
  destruct k; simpl; repeat case_match; eauto.
Qed.

(** C10. [getJobLogs] has two error results and no other:
    [JOB_NOT_FOUND] for an unknown job, whatever the other arguments, and
    [INVALID_ARGS] for a known job and a stream name other than [stdout]
    and [stderr].  For a known job and a stream of [stdout] and [stderr]
    it answers [ok] whatever the paging parameters are: it reads them as
    [safe_offset] and [safe_limit] say, and reports the offset it used. *)
Theorem getJobLogs_paging_never_fails jobId stream offset limit st :
  (known_job jobId st = None ->
   getJobLogs jobId stream offset limit st
   = ApiError "JOB_NOT_FOUND" ("job not found: " +:+ jobId)) /\
  (forall c,
     known_job jobId st = Some c ->
     default "stdout" stream <> "stdout" ->
     default "stdout" stream <> "stderr" ->
     getJobLogs jobId stream offset limit st
     = ApiError "INVALID_ARGS" "stream must be stdout or stderr") /\
  (forall c k,
     known_job jobId st = Some c ->
     default "stdout" stream = stream_name k ->
     exists page,
       getJobLogs jobId stream offset limit st = ApiOk page /\
       page_offset page = safe_offset offset /\
       getJobLogs jobId stream offset limit st
         = getJobLogs jobId stream (NumInt (safe_offset offset))
             (NumInt (safe_limit limit)) st) /\
  (forall c m,
     getJobLogs jobId stream offset limit st = ApiError c m ->
     (c = "JOB_NOT_FOUND" /\ known_job jobId st = None) \/
     (c = "INVALID_ARGS" /\ is_Some (known_job jobId st) /\
      default "stdout" stream <> "stdout" /\
      default "stdout" stream <> "stderr")).
Proof.
  split; [|split; [|split]].
  - unfold getJobLogs, known_job. by intros ->.
  - unfold getJobLogs, known_job. intros c -> E1 E2.
    apply String.eqb_neq in E1, E2. by rewrite E1, E2.
  - intros c k Hjob Hk.
    destruct (getJobLogs_ok jobId stream offset limit st c k Hjob Hk)
      as [page [Hp Hoff]].
    exists page. split; [done|]. split; [done|].
    apply getJobLogs_normalised.
  - intros c m. unfold getJobLogs, known_job.
    destruct (map_get jobId (jobs st) ≫= (fun r => heap st !! r)) as [cell|];
      [|intros [= <- <-]; by left].
    destruct (String.eqb_spec (default "stdout" stream) "stdout") as [E1|E1];
      destruct (String.eqb_spec (default "stdout" stream) "stderr") as [E2|E2];
      simpl; repeat case_match; try done.
    intros [= <- <-]. right. eauto.
Qed.

(** ** Loading the job store *)

Lemma serialize_recover t id r :
  snap_jobId r = Some id ->
  serializeJob (recover t (job_of_entry id r)) = recovered t r.
Proof.
  intros Hid. unfold recover, recovered. simpl.
  destruct r as [jid sid st c sa ea d ca m so se sos ses sot set sop sep].
  simpl in *. subst jid.
  destruct (String.eqb st STATUS_RUNNING), (String.eqb st STATUS_QUEUED);
    simpl; try done; by destruct sa.
Qed.

Lemma loadEntry_valid t st e :
  (forall r, r ∈ (jobs st).*2 -> (r < length (heap st))%nat) ->
  forall r, r ∈ (jobs (loadEntry t st e)).*2 ->
            (r < length (heap (loadEntry t st e)))%nat.
Proof.
  intros Hv r. destruct e as [|rec]; simpl; [apply Hv|].
  destruct (truthy_str (snap_jobId rec)); simpl; [|apply Hv].
  rewrite length_app. simpl.
  intros [->|Hin]%map_set_values; [lia|]. apply Hv in Hin. lia.
Qed.

Lemma loadEntry_getJob t st e id :
  (forall r, r ∈ (jobs st).*2 -> (r < length (heap st))%nat) ->
  getJob id (loadEntry t st e)
  = match entry_of id e with
    | Some r => Some (recovered t r)
    | None => getJob id st
    end.
Proof.
  intros Hv. destruct e as [|rec]; simpl; [done|].
  unfold truthy_str. destruct (snap_jobId rec) as [id'|] eqn:Hid; simpl;
    [|done].
  destruct (String.eqb_spec id' "") as [->|Hne]; simpl; [done|].
  unfold getJob. simpl.
  destruct (String.eqb_spec id' id) as [->|Hneq].
  - rewrite map_get_set_eq.
    rewrite lookup_app_r by done. rewrite Nat.sub_diag. simpl.
    by rewrite serialize_recover.
  - rewrite map_get_set_ne by done.
    destruct (map_get id (jobs st)) as [r|] eqn:Hr; [|done].
    apply map_get_Some_values, Hv in Hr.
    by rewrite lookup_app_l.
Qed.

Lemma load_getJob t parsed st id :
  (forall r, r ∈ (jobs st).*2 -> (r < length (heap st))%nat) ->
  getJob id (fold_left (loadEntry t) parsed st)
  = match stored_entry id parsed with
    | Some r => Some (recovered t r)
    | None => getJob id st
    end.
Proof.
  revert st. induction parsed as [|e rest IH]; intros st Hv; simpl; [done|].
  rewrite IH by (by apply loadEntry_valid).
  destruct (stored_entry id rest); [done|].
  by apply loadEntry_getJob.
Qed.

(** C7. After construction, the job a job id names is the record of that
    id in the job store file (the last one, should the file repeat an id),
    recovered: a record stored as [queued] or [running] is [failed] with
    code -1, ended at the load time, with the duration computed from
    [startedAt] when it is known; any other record is as stored.  Entries
    that are not objects or have no job id name no job, and neither does a
    file that is missing, unreadable or not an array. *)
Theorem load_recovers_jobs config t disk logs id :
  getJob id (newScriptRunner config t disk logs)
  = recovered t <$> stored_record id disk.
Proof.
  unfold newScriptRunner, loadJobsFromDisk. simpl.
  destruct disk as [| | |parsed]; simpl; try done.
  rewrite load_getJob.
  - by destruct (stored_entry id parsed).
  - simpl. intros r Hr. by apply not_elem_of_nil in Hr.
Qed.

(** ** Cancellation *)

#[local] Arguments is_terminal : simpl never.

(** C8. A second [cancelJob] on the same id, with no event in between,
    returns what the first returned and leaves the runner as the first
    left it (and asks for the same signal).  On an unknown id the result is
    [JOB_NOT_FOUND]; on a job in a terminal state the runner is unchanged
    and the result is the job's snapshot; on a queued job the snapshot both
    calls return is [canceled] with code -1. *)
Theorem cancelJob_idempotent env1 env2 jobId st :
  cancelJob env2 jobId (cancelJob env1 jobId st).2 = cancelJob env1 jobId st /\
  (known_job jobId st = None ->
   cancelJob env1 jobId st
     = (ApiError "JOB_NOT_FOUND" ("job not found: " +:+ jobId), [], st)) /\
  (forall c, known_job jobId st = Some c ->
     is_terminal (status (job c)) = true ->
     cancelJob env1 jobId st = (ApiOk (serializeJob (job c)), [], st)) /\
  (forall c, known_job jobId st = Some c ->
     status (job c) = STATUS_QUEUED ->
     exists snap,
       (cancelJob env1 jobId st).1.1 = ApiOk snap /\
       (cancelJob env2 jobId (cancelJob env1 jobId st).2).1.1 = ApiOk snap /\
       snap_status snap = STATUS_CANCELED /\ snap_code snap = Some (-1) /\
       snap_endedAt snap = Some (now env1)).
Proof.
  unfold known_job.
  assert (Hidem :
    cancelJob env2 jobId (cancelJob env1 jobId st).2 = cancelJob env1 jobId st).
  { unfold cancelJob at 2 3.
    destruct (map_get jobId (jobs st)) as [r|] eqn:Hm.
    2:{ simpl. unfold cancelJob. by rewrite Hm. }
    destruct (heap st !! r) as [[j ex]|] eqn:Hr.
    2:{ simpl. unfold cancelJob. by rewrite Hm, Hr. }
    assert (Hlt : (r < length (heap st))%nat) by (by eapply lookup_lt_Some).
    simpl.
    destruct (is_terminal (status j)) eqn:Hterm.
    { simpl. unfold cancelJob. rewrite Hm, Hr. simpl. by rewrite Hterm. }
    destruct (String.eqb (status j) STATUS_RUNNING && bool_decide (is_Some ex))
      eqn:Hrun; simpl.
    - unfold cancelJob. simpl. rewrite Hm, list_lookup_insert_eq by done.
      simpl. rewrite Hterm, Hrun. simpl.
      unfold upd_cell, with_heap. simpl. by rewrite list_insert_insert_eq.
    - destruct (String.eqb (status j) STATUS_QUEUED) eqn:Hq; simpl.
      + unfold cancelJob.
        rewrite persistJobs_jobs, persistJobs_heap. simpl.
        rewrite Hm, list_lookup_insert_eq by done. simpl. done.
      + unfold cancelJob. simpl. rewrite Hm, list_lookup_insert_eq by done.
        simpl. rewrite Hterm, Hrun, Hq. simpl.
        unfold upd_cell, with_heap. simpl. by rewrite list_insert_insert_eq. }
  split; [done|]. split; [|split].
  - unfold cancelJob. destruct (map_get jobId (jobs st)) as [r|]; simpl.
    + by intros ->.
    + done.
  - intros c Hc Hterm. unfold cancelJob.
    destruct (map_get jobId (jobs st)) as [r|]; simpl in Hc; [|done].
    by rewrite Hc, Hterm.
  - intros c Hc Hq. rewrite Hidem. unfold cancelJob.
    destruct (map_get jobId (jobs st)) as [r|]; simpl in Hc; [|done].
    rewrite Hc. simpl. rewrite Hq. simpl. eauto 10.
Qed.

(** ** Jobs that have ended *)

Lemma kept_refl t j : kept t j j.
Proof. unfold kept, same_result. tauto. Qed.

Lemma kept_trans t j1 j2 j3 : kept t j1 j2 -> kept t j2 j3 -> kept t j1 j3.
Proof.
  unfold kept, same_result. intros [H1 E1] [H2 E2].
  split; [intuition congruence|]. destruct E1, E2; [left|right|right|right];
    congruence.
Qed.

Lemma kept_canceled_queued t j j' :
  kept t j j' -> canceled_queued j -> canceled_queued j'.
Proof.
  unfold kept, same_result, canceled_queued. intros [H _] ?.
  intuition congruence.
Qed.

Lemma is_terminal_not_waiting s :
  is_terminal s = true -> s <> STATUS_RUNNING /\ s <> STATUS_QUEUED.
Proof.
  unfold is_terminal. intros H. split; intros ->; vm_compute in H; done.
Qed.

Lemma executeJob_keeps drain env r0 s r :
  keeps (now env) r drain -> r <> r0 ->
  keeps (now env) r (executeJob drain env r0 s).
Proof.
  intros Hd Hne x c Hc Hq. unfold executeJob.
  set (st3 := persistJobs env _).
  assert (H3 : heap st3 !! r = heap x !! r /\ queue st3 = queue x).
  { subst st3. rewrite persistJobs_heap, persistJobs_queue.
    match goal with
    | |- context [upd_job r0 ?f ?y] =>
        destruct (upd_job_frame r r0 f y Hne) as [-> ->]
    end. done. }
  destruct H3 as [Hh3 Hq3]. clearbody st3.
  assert (Hsame : forall fs,
    exists c',
      heap (with_files fs st3) !! r = Some c' /\
      kept (now env) (job c) (job c') /\
      (r ∉ (queue x).*1 -> c' = c /\ r ∉ (queue (with_files fs st3)).*1)).
  { intros fs. exists c. simpl. rewrite Hh3, Hq3.
    split; [done|]. split; [apply kept_refl|done]. }
  destruct (heap st3 !! r0) as [c0|].
  2:{ exists c. simpl. rewrite Hh3, Hq3.
      split; [done|]. split; [apply kept_refl|done]. }
  assert (Hfail : forall m fs,
    let y :=
      upd_job r0
        (fun j =>
           set_stderrPreview ("failed to open log files: " +:+ m)
             (set_durationMs (Some (now env - now env))
                (set_endedAt (Some (now env))
                   (set_code (Some (-1)) (set_status STATUS_FAILED j)))))
        (with_files fs st3) in
    let z :=
      after (drain (persistJobs env (with_runningCount (runningCount y - 1) y)))
    in
    exists c',
      heap z !! r = Some c' /\ kept (now env) (job c) (job c') /\
      (r ∉ (queue x).*1 -> c' = c /\ r ∉ (queue z).*1)).
  { intros m fs y z.
    destruct (upd_job_frame r r0
      (fun j =>
           set_stderrPreview ("failed to open log files: " +:+ m)
             (set_durationMs (Some (now env - now env))
                (set_endedAt (Some (now env))
                   (set_code (Some (-1)) (set_status STATUS_FAILED j)))))
      (with_files fs st3) Hne) as [Hy Hyq].
    fold y in Hy, Hyq. simpl in Hy, Hyq.
    destruct (Hd (persistJobs env (with_runningCount (runningCount y - 1) y)) c)
      as [c' [Hz [Hk Hfr]]].
    - rewrite persistJobs_heap. simpl. by rewrite Hy, Hh3.
    - rewrite persistJobs_queue. simpl. by rewrite Hyq, Hq3.
    - exists c'. split; [done|]. split; [done|].
      intros Hnq. apply Hfr. rewrite persistJobs_queue. simpl.
      by rewrite Hyq, Hq3. }
  assert (Hid : with_files (files st3) st3 = st3) by (by destruct st3).
  destruct (mkdir_ok env r0); simpl.
  2:{ specialize (Hsame (files st3)). by rewrite Hid in Hsame. }
  destruct (open_logs env r0) as [|m|m].
  - destruct (spawn_ok env r0); simpl; [|apply (Hsame ∅)].
    exists c. simpl. rewrite list_lookup_insert_ne by done.
    rewrite Hh3, Hq3. split; [done|]. split; [apply kept_refl|done].
  - specialize (Hfail m (files st3)).
    rewrite Hid in Hfail. exact Hfail.
  - apply Hfail.
Qed.

Lemma drainQueue_loop_keeps fuel env r :
  keeps (now env) r (drainQueue_loop fuel env).
Proof.
  induction fuel as [|fuel IH]; intros st c Hc Hq; simpl.
  { exists c. split; [done|]. split; [apply kept_refl|done]. }
  destruct (runningCount st <? maxConcurrent st).
  2:{ exists c. split; [done|]. split; [apply kept_refl|done]. }
  destruct (queue st) as [|[r0 s] rest] eqn:Hqs.
  { exists c. simpl. rewrite Hqs. split; [done|]. split; [apply kept_refl|done]. }
  simpl. destruct (heap st !! r0) as [c0|] eqn:Hr0.
  2:{ exists c. simpl. split; [done|]. split; [apply kept_refl|].
      intros Hn. split; [done|]. simpl in Hn. set_solver. }
  destruct (decide (r = r0)) as [->|Hne].
  - (* the head of the queue is the job itself: it is canceled *)
    assert (c0 = c) as -> by congruence.
    destruct (Hq ltac:(simpl; set_solver)) as (Hs & Hcr & Hcode & Hdur).
    rewrite Hcr.
    set (c1 := {| job := set_durationMs (Some 0)
                           (set_endedAt (Some (now env))
                              (set_code (Some (-1))
                                 (set_status STATUS_CANCELED (job c))));
                  exec := exec c |}).
    assert (Hk1 : kept (now env) (job c) (job c1)).
    { subst c1. unfold kept, same_result. simpl. rewrite Hs, Hcode, Hdur.
      split; [tauto|by right]. }
    match goal with |- context [drainQueue_loop fuel env ?x] =>
      destruct (IH x c1) as [c' [Hz [Hk Hfr]]] end.
    + rewrite persistJobs_heap. unfold upd_job. simpl. rewrite Hr0.
      simpl. rewrite list_lookup_insert_eq; [done|by eapply lookup_lt_Some].
    + intros _. eapply kept_canceled_queued; [exact Hk1|]. done.
    + exists c'. split; [done|]. split; [by eapply kept_trans|].
      intros Hn. simpl in Hn. set_solver.
  - destruct (cancelRequested (job c0)).
    + match goal with |- context [drainQueue_loop fuel env ?x] =>
        destruct (IH x c) as [c' [Hz [Hk Hfr]]] end.
      * rewrite persistJobs_heap.
        by rewrite (proj1 (upd_job_frame r r0 _ _ Hne)).
      * rewrite persistJobs_queue, (proj2 (upd_job_frame r r0 _ _ Hne)).
        simpl. intros Hin. apply Hq. simpl. set_solver.
      * exists c'. split; [done|]. split; [done|].
        intros Hn. apply Hfr.
        rewrite persistJobs_queue, (proj2 (upd_job_frame r r0 _ _ Hne)).
        simpl. simpl in Hn. set_solver.
    + destruct (executeJob_keeps (drainQueue_loop fuel env) env r0 s r IH Hne
                  (with_queue rest st) c) as [c1 [H1 [Hk1 Hfr1]]].
      * done.
      * simpl. intros Hin. apply Hq. simpl. set_solver.
      * destruct (executeJob _ _ _ _ _) as [st2|st2]; simpl in H1, Hfr1; simpl.
        2:{ exists c1. split; [done|]. split; [done|].
            intros Hn. apply Hfr1. set_solver. }
        destruct (decide (r ∈ rest.*1)) as [Hin|Hnin].
        -- assert (Hcq : canceled_queued (job c))
             by (apply Hq; simpl; set_solver).
           destruct (IH _ c1 H1) as [c' [Hz [Hk Hfr]]].
           { intros _. by eapply kept_canceled_queued. }
           exists c'. split; [done|]. split; [by eapply kept_trans|].
           intros Hn. simpl in Hn. set_solver.
        -- destruct (Hfr1 Hnin) as [-> Hnq].
           destruct (IH _ c H1) as [c' [Hz [Hk Hfr]]]; [done|].
           exists c'. split; [done|]. split; [done|].
           intros _. by apply Hfr.
Qed.

Lemma drainQueue_keeps env r : keeps (now env) r (drainQueue env).
Proof. intros x. apply drainQueue_loop_keeps. Qed.

Lemma terminal_in_queue st r c :
  Inv st -> heap st !! r = Some c -> is_terminal (status (job c)) = true ->
  r ∈ (queue st).*1 -> canceled_queued (job c).
Proof.
  intros HI Hc Hterm Hin.
  destruct (inv_queue_waiting _ _ _ _ _ HI r c Hin Hc) as [Hq|Hq]; [|done].
  apply is_terminal_not_waiting in Hterm as [_ Hn]. done.
Qed.

Lemma finishJob_kept env r' s cd st r c :
  Inv st -> heap st !! r = Some c -> is_terminal (status (job c)) = true ->
  exists c',
    heap (after (finishJob (drainQueue env) env r' s cd st)) !! r = Some c' /\
    kept (now env) (job c) (job c') /\
    (r ∉ (queue st).*1 -> c' = c).
Proof.
  intros HI Hc Hterm. unfold finishJob.
  destruct (heap st !! r') as [[j [e|]]|] eqn:Hr';
    try (exists c; split; [done|]; split; [apply kept_refl|done]).
  destruct (finished e) eqn:Hf;
    [exists c; split; [done|]; split; [apply kept_refl|done]|].
  assert (Hne : r <> r').
  { intros ->. assert (c = {| job := j; exec := Some e |}) as -> by congruence.
    pose proof (inv_live _ _ _ _ _ HI r' j e Hr' Hf) as Hrun.
    apply is_terminal_not_waiting in Hterm as [Hn _]. done. }
  match goal with |- context [drainQueue env ?x] =>
    destruct (drainQueue_keeps env r x c) as [c' [Hz [Hk Hfr]]] end.
  - rewrite persistJobs_heap. simpl. by rewrite list_lookup_insert_ne.
  - rewrite persistJobs_queue. simpl. by apply terminal_in_queue.
  - exists c'. split; [done|]. split; [done|].
    intros Hn. apply Hfr. by rewrite persistJobs_queue.
Qed.

Lemma writeLogChunk_same_result cap wr fd chunk k j fs :
  same_result j (writeLogChunk cap wr fd chunk k j fs).1.1 /\
  endedAt (writeLogChunk cap wr fd chunk k j fs).1.1 = endedAt j.
Proof.
  unfold writeLogChunk, same_result.
  repeat (case_match; simpl); destruct k; simpl; tauto.
Qed.

(** X18. Once a job is in a terminal state, an event leaves what the job reports
    as it is, log metadata apart, except that the end time of a job that
    [cancelJob] canceled while it was queued is set again, to the time of
    the event, when the scheduler takes the job off the queue. *)
Theorem terminal_job_kept config st env ev r c :
  reachable config st ->
  heap st !! r = Some c ->
  is_terminal (status (job c)) = true ->
  exists c',
    heap (step env ev st) !! r = Some c' /\
    same_result (job c) (job c') /\
    (endedAt (job c') = endedAt (job c) \/
     (r ∈ (queue st).*1 /\ canceled_queued (job c) /\
      endedAt (job c') = Some (now env))).
Proof.
  intros Hreach Hc Hterm.
  pose proof (reachable_Inv _ _ Hreach) as HI.
  assert (Hlt : (r < length (heap st))%nat) by (by eapply lookup_lt_Some).
  assert (Hsettle : forall c',
    kept (now env) (job c) (job c') ->
    (r ∉ (queue st).*1 -> c' = c) ->
    same_result (job c) (job c') /\
    (endedAt (job c') = endedAt (job c) \/
     (r ∈ (queue st).*1 /\ canceled_queued (job c) /\
      endedAt (job c') = Some (now env)))).
  { intros c' [Hs He] Hfr. split; [done|].
    destruct (decide (r ∈ (queue st).*1)) as [Hin|Hnin].
    - destruct He as [He|He]; [by left|right].
      split; [done|]. split; [by eapply terminal_in_queue|done].
    - left. by rewrite (Hfr Hnin). }
  assert (Hsame : forall c', c' = c ->
    same_result (job c) (job c') /\
    (endedAt (job c') = endedAt (job c) \/
     (r ∈ (queue st).*1 /\ canceled_queued (job c) /\
      endedAt (job c') = Some (now env)))).
  { intros c' ->. apply Hsettle; [apply kept_refl|done]. }
  destruct ev as [req|jobId|k r' chunk wr|r'|r' m|r' cd sg]; simpl.
  - (* submit *)
    unfold submitRun.
    destruct (validateRequest _ _ _) as [script|cc m|]; simpl; eauto.
    unfold createJob, nextJobId. simpl.
    match goal with |- context [enqueue env ?r0 script ?x] =>
      assert (Hst2 : exists c',
        heap (after (enqueue env r0 script x)) !! r = Some c' /\
        kept (now env) (job c) (job c') /\ (r ∉ (queue st).*1 -> c' = c));
      [|destruct (enqueue env r0 script x) as [st2|st2]; simpl in Hst2]
    end.
    { unfold enqueue.
      match goal with |- context [drainQueue env ?x] =>
        destruct (drainQueue_keeps env r x c) as [c' [Hz [Hk Hfr]]] end.
      - simpl. rewrite persistJobs_heap. simpl. by rewrite lookup_app_l.
      - simpl. rewrite persistJobs_queue. simpl.
        rewrite fmap_app. intros [Hin|Hin]%elem_of_app.
        + by eapply terminal_in_queue.
        + simpl in Hin. apply list_elem_of_singleton in Hin. lia.
      - exists c'. split; [done|]. split; [done|].
        intros Hn. apply Hfr. simpl.
        rewrite persistJobs_queue. simpl. rewrite fmap_app.
        intros [Hin|Hin]%elem_of_app; [done|].
        simpl in Hin. apply list_elem_of_singleton in Hin. lia. }
    all: destruct Hst2 as [c' [Hz [Hk Hfr]]].
    all: exists c'; split; [|by apply Hsettle].
    + destruct (String.eqb _ "async"); [|done].
      by destruct (heap st2 !! length (heap st)).
    + done.
  - (* cancel *)
    unfold cancelJob.
    destruct (map_get jobId (jobs st)) as [r'|]; simpl; eauto.
    destruct (heap st !! r') as [[j ex]|] eqn:Hr'; simpl; eauto.
    destruct (is_terminal (status j)) eqn:Ht; simpl; eauto.
    assert (Hne : r <> r').
    { intros ->. assert (c = {| job := j; exec := ex |}) as -> by congruence.
      simpl in Hterm. congruence. }
    exists c. split; [|by apply Hsame].
    repeat case_match; simpl; rewrite ?persistJobs_heap; simpl;
      by rewrite list_lookup_insert_ne.
  - (* a chunk of output *)
    unfold onData.
    destruct (heap st !! r') as [[j [e|]]|] eqn:Hr'; eauto.
    match goal with
    | |- context [writeLogChunk ?a ?b ?c ?d ?e ?f ?g] =>
        pose proof (writeLogChunk_same_result a b c d e f g) as [Hs He];
        destruct (writeLogChunk a b c d e f g) as [[j' fs'] [msg|]]
    end; simpl in Hs, He.
    all: destruct (decide (r = r')) as [->|Hne];
      [ assert (c = {| job := j; exec := Some e |}) as -> by congruence;
        eexists; split;
          [simpl; by rewrite list_lookup_insert_eq
          |simpl; split; [done|by left]]
      | exists c; split; [simpl; by rewrite list_lookup_insert_ne
                         |by apply Hsame] ].
  - (* the timer *)
    unfold onTimeout.
    destruct (heap st !! r') as [[j [e|]]|] eqn:Hr'; eauto.
    destruct (timerPending e); eauto.
    destruct (decide (r = r')) as [->|Hne].
    + assert (c = {| job := j; exec := Some e |}) as -> by congruence.
      eexists. split; [simpl; by rewrite list_lookup_insert_eq|].
      simpl. split; [|by left]. unfold same_result. tauto.
    + exists c. split; [simpl; by rewrite list_lookup_insert_ne|by apply Hsame].
  - (* a spawn error *)
    unfold onError.
    destruct (heap st !! r') as [[j [e|]]|] eqn:Hr'; eauto.
    set (e1 := with_previewBuf Stderr _ e).
    assert (HI1 : Inv (upd_cell r' {| job := j; exec := Some e1 |} st))
      by (eapply Inv_touch_exec; done).
    destruct (decide (r = r')) as [->|Hne].
    + assert (c = {| job := j; exec := Some e |}) as -> by congruence.
      destruct (finishJob_kept env r' STATUS_FAILED (-1)
                  (upd_cell r' {| job := j; exec := Some e1 |} st) r'
                  {| job := j; exec := Some e1 |} HI1)
        as [c' [Hz [Hk Hfr]]]; [simpl; by rewrite list_lookup_insert_eq|done|].
      exists c'. split; [done|]. simpl in *. destruct Hk as [Hs He].
      split; [done|].
      destruct (decide (r' ∈ (queue st).*1)) as [Hin|Hnin].
      * destruct (inv_queue_fresh _ _ _ _ _ HI r' Hin) as [j0 Hj0]. congruence.
      * left. by rewrite (Hfr Hnin).
    + destruct (finishJob_kept env r' STATUS_FAILED (-1)
                  (upd_cell r' {| job := j; exec := Some e1 |} st) r c HI1)
        as [c' [Hz [Hk Hfr]]]; [simpl; by rewrite list_lookup_insert_ne|done|].
      exists c'. split; [done|]. by apply Hsettle.
  - (* the exit of the child *)
    unfold onClose.
    destruct (heap st !! r') as [[j [e|]]|] eqn:Hr'; eauto.
    destruct (closeDecision _ _ _ _) as [s0 c0].
    destruct (finishJob_kept env r' s0 c0 st r c HI Hc Hterm)
      as [c' [Hz [Hk Hfr]]].
    exists c'. split; [done|]. by apply Hsettle.
Qed.

(** ** The handlers and the log cap *)

(** The ["data"] handler does to the job and the log files what
    [writeLogChunk] does, with the cap of the runner and the descriptor of
    the stream. *)
Lemma onData_writes k r chunk wr st j e :
  heap st !! r = Some {| job := j; exec := Some e |} ->
  let res :=
    writeLogChunk (maxLogBytesPerStream st) wr (get_fd k e) chunk k j (files st)
  in
  job <$> heap (onData k r chunk wr st) !! r = Some res.1.1 /\
  files (onData k r chunk wr st) = res.1.2.
Proof.
  intros Hr. unfold onData. rewrite Hr.
  assert (Hlt : (r < length (heap st))%nat) by (by eapply lookup_lt_Some).
  assert (Hfd : forall buf, get_fd k (with_previewBuf k buf e) = get_fd k e)
    by (by destruct k).
  rewrite Hfd. simpl.
  destruct (writeLogChunk _ _ _ _ _ _ _) as [[j' fs'] [m|]]; simpl;
    by rewrite list_lookup_insert_eq.
Qed.

Lemma loadJobsFromDisk_cap t st :
  maxLogBytesPerStream (loadJobsFromDisk t st) = maxLogBytesPerStream st.
Proof.
  unfold loadJobsFromDisk. destruct (store st) as [| | |parsed]; try done.
  revert st. induction parsed as [|e parsed IH]; intros st; simpl; [done|].
  rewrite IH. destruct e; simpl; [done|]. by case_match.
Qed.

(** The cap a runner works with is the configured one, or 1 MiB when the
    configured one is absent or 0. *)
Lemma newScriptRunner_cap config t disk logs :
  maxLogBytesPerStream (newScriptRunner config t disk logs)
  = num_or (cfg_maxLogBytesPerStream (runner config)) (1024 * 1024).
Proof. unfold newScriptRunner. by rewrite loadJobsFromDisk_cap. Qed.

End Scheduler.

(** ** The command line of a child *)

Section CommandLine.

Context {node : NodeRuntime}.

Lemma app_String c (a b : string) : String c a +:+ b = String c (a +:+ b).
Proof. reflexivity. Qed.

Lemma app_empty (b : string) : "" +:+ b = b.
Proof. reflexivity. Qed.

Lemma app_String_assoc (a : string) c (b : string) :
  (a +:+ String c "") +:+ b = a +:+ String c b.
Proof.
  induction a as [|x a IH]; [done|]. rewrite !app_String. by rewrite IH.
Qed.

Lemma string_app_assoc (a b c : string) : (a +:+ b) +:+ c = a +:+ (b +:+ c).
Proof.
  induction a as [|x a IH]; [done|]. rewrite !app_String. by rewrite IH.
Qed.

Lemma string_app_nil_r (a : string) : a +:+ "" = a.
Proof. induction a as [|x a IH]; [done|]. rewrite app_String. by rewrite IH. Qed.

Lemma sh_read_single w s rest :
  sh_read ShSingle (Some w) (replace_quotes quote_escape s +:+ String "'" rest)
  = sh_read ShPlain (Some (w +:+ s)) rest.
Proof.
  revert w. induction s as [|c s IH]; intros w.
  - simpl. by rewrite string_app_nil_r.
  - simpl. destruct (Ascii.eqb_spec c "'") as [->|Hne].
    + unfold quote_escape. rewrite !app_String, app_empty. simpl.
      rewrite IH. by rewrite app_String_assoc.
    + rewrite app_String. simpl.
      destruct (Ascii.eqb_spec c "'") as [|_]; [done|].
      rewrite IH. by rewrite app_String_assoc.
Qed.

Lemma sh_read_word w rest :
  sh_read ShPlain None (shellQuote (JStr w) +:+ rest)
  = sh_read ShPlain (Some w) rest.
Proof.
  unfold shellQuote, to_String. rewrite app_String, app_empty.
  rewrite app_String. simpl. rewrite string_app_assoc.
  rewrite app_String, app_empty. by rewrite sh_read_single.
Qed.

Lemma sh_read_words (ws : list string) w :
  sh_read ShPlain None (String.concat " " (shellQuote <$> (JStr <$> (w :: ws))))
  = Some (w :: ws).
Proof.
  revert w. induction ws as [|w' ws IH]; intros w.
  - cbn [fmap list_fmap String.concat].
    rewrite <- (string_app_nil_r (shellQuote _)).
    by rewrite sh_read_word.
  - change (String.concat " " (shellQuote <$> (JStr <$> w :: w' :: ws)))
      with (shellQuote (JStr w) +:+ " " +:+
            String.concat " " (shellQuote <$> (JStr <$> (w' :: ws)))).
    rewrite sh_read_word, app_String, app_empty.
    change (sh_read ShPlain (Some w) (String " " ?s))
      with (cons w <$> sh_read ShPlain None s).
    by rewrite IH.
Qed.

(** X2. The command line [executeJob] hands to the shell reads back, by the
    quoting rules of [sh], as the path of the script followed by the
    arguments of the job, whatever characters they hold. *)
Theorem command_reads_back script (ws : list string) :
  sh_words (command script (JStr <$> ws)) = Some (script_path script :: ws).
Proof. unfold sh_words, command. apply (sh_read_words ws). Qed.

End CommandLine.

(** ** Output buffers *)

Section Buffers.

Context {node : NodeRuntime}.

Lemma appendTailBuffer_last current chunk maxBytes :
  appendTailBuffer current chunk maxBytes = last_bytes maxBytes (current ++ chunk).
Proof.
  unfold appendTailBuffer, last_bytes.
  destruct (Z.leb_spec maxBytes 0) as [Hm|Hm].
  - rewrite drop_ge; [done|]. replace (Z.to_nat maxBytes) with 0%nat by lia. lia.
  - cbv zeta. destruct (Z.leb_spec (Z.of_nat (length (current ++ chunk))) maxBytes)
      as [Hl|Hl].
    + replace (length (current ++ chunk) - Z.to_nat maxBytes)%nat with 0%nat by lia.
      done.
    + f_equal. lia.
Qed.

Lemma last_bytes_app n a b :
  last_bytes n (last_bytes n a ++ b) = last_bytes n (a ++ b).
Proof.
  unfold last_bytes. set (k := Z.to_nat n).
  destruct (decide (length a <= k)%nat) as [Hle|Hgt].
  - replace (length a - k)%nat with 0%nat by lia. done.
  - rewrite !length_app, length_drop.
    replace (length a - (length a - k) + length b - k)%nat with (length b) by lia.
    replace (length a + length b - k)%nat
      with ((length a - k) + length b)%nat by lia.
    rewrite <- drop_drop. f_equal.
    rewrite drop_app_le by lia. done.
Qed.

Lemma previewAfter_last maxBytes a chunks :
  previewAfter maxBytes (last_bytes maxBytes a) chunks
  = last_bytes maxBytes (a ++ concat chunks).
Proof.
  unfold previewAfter. revert a.
  induction chunks as [|c chunks IH]; intros a; simpl.
  - by rewrite app_nil_r.
  - rewrite appendTailBuffer_last, last_bytes_app, IH. by rewrite <- app_assoc.
Qed.

Lemma previewAfter_nil maxBytes chunks :
  previewAfter maxBytes [] chunks = last_bytes maxBytes (concat chunks).
Proof.
  change (@nil byte) with (last_bytes maxBytes []) at 1.
  by rewrite previewAfter_last.
Qed.

(** X19. The preview buffer of a stream holds the last [maxBytes] bytes of
    everything the stream delivered, chunk boundaries notwithstanding, and
    never more than [maxBytes] bytes; with [maxBytes <= 0] it is empty. *)
Theorem preview_is_tail maxBytes chunks :
  previewAfter maxBytes [] chunks = last_bytes maxBytes (concat chunks) /\
  Z.of_nat (length (previewAfter maxBytes [] chunks)) <= Z.max 0 maxBytes /\
  (Z.of_nat (length (concat chunks)) <= maxBytes ->
   previewAfter maxBytes [] chunks = concat chunks).
Proof.
  pose proof (previewAfter_nil maxBytes chunks) as H.
  split; [done|]. rewrite H. unfold last_bytes. split.
  - rewrite length_drop. lia.
  - intros Hle.
    replace (length (concat chunks) - Z.to_nat maxBytes)%nat with 0%nat by lia.
    done.
Qed.

Lemma clampBufferAppend_take current chunk maxBytes :
  Z.of_nat (length current) <= Z.max 0 maxBytes ->
  clampBufferAppend current chunk maxBytes
  = take (Z.to_nat maxBytes) (current ++ chunk).
Proof.
  intros Hlen. unfold clampBufferAppend.
  destruct (Z.eqb_spec maxBytes 0) as [->|Hne]; simpl.
  { destruct current; [done|simpl in Hlen; lia]. }
  destruct (Z.leb_spec maxBytes (Z.of_nat (length current))) as [Hle|Hgt].
  - rewrite take_app_le by lia. rewrite take_ge by lia. done.
  - rewrite take_app_ge by lia. f_equal. f_equal. lia.
Qed.

Lemma clampedAfter_take maxBytes a chunks :
  clampedAfter maxBytes (take (Z.to_nat maxBytes) a) chunks
  = take (Z.to_nat maxBytes) (a ++ concat chunks).
Proof.
  unfold clampedAfter. revert a.
  induction chunks as [|c chunks IH]; intros a; simpl.
  - by rewrite app_nil_r.
  - rewrite clampBufferAppend_take by (rewrite length_take; lia).
    assert (Ht : take (Z.to_nat maxBytes) (take (Z.to_nat maxBytes) a ++ c)
                 = take (Z.to_nat maxBytes) (a ++ c)).
    { destruct (decide (length a <= Z.to_nat maxBytes)%nat) as [Hle|Hgt].
      - by rewrite (take_ge a) by lia.
      - rewrite !take_app_le by (rewrite ?length_take; lia).
        by rewrite take_take, Nat.min_id. }
    rewrite Ht, IH. by rewrite <- app_assoc.
Qed.

(** X23. The buffer of the first version of the runner holds the first
    [maxBytes] bytes of everything the stream delivered. *)
Theorem clamped_is_head maxBytes chunks :
  clampedAfter maxBytes [] chunks = take (Z.to_nat maxBytes) (concat chunks).
Proof.
  pose proof (clampedAfter_take maxBytes [] chunks) as H.
  by rewrite take_nil in H.
Qed.

End Buffers.

(** ** Log files, paging and validation *)

Section LogFiles.

Context {node : NodeRuntime}.

Lemma take_take_app {A} (n : nat) (a b : list A) :
  take n (take n a ++ b) = take n (a ++ b).
Proof.
  destruct (decide (length a <= n)%nat) as [Hle|Hgt].
  - by rewrite (take_ge a) by lia.
  - rewrite !take_app_le by (rewrite ?length_take; lia).
    by rewrite take_take, Nat.min_id.
Qed.

Lemma writeLogChunk_content cap wr p chunk k j fs :
  get_size k j = Z.of_nat (length (default [] (fs !! p))) ->
  get_size k j <= cap ->
  let res := writeLogChunk cap wr (Some p) chunk k j fs in
  default [] (res.1.2 !! p)
  = take (Z.to_nat cap)
      (default [] (fs !! p) ++ match wr with WriteOk => chunk | _ => [] end) /\
  get_size k res.1.1 = Z.of_nat (length (default [] (res.1.2 !! p))) /\
  (forall q, q <> p -> res.1.2 !! q = fs !! q).
Proof.
  intros Hsz Hle. set (content := default [] (fs !! p)) in *.
  assert (Hkeep : forall x, (length x = 0%nat \/ Z.of_nat (length content) = cap) ->
            content = take (Z.to_nat cap) (content ++ x)).
  { intros x [Hx|Hx].
    - destruct x; [|done]. rewrite app_nil_r, take_ge; [done|lia].
    - rewrite take_app_le by lia. rewrite take_ge; [done|lia]. }
  unfold writeLogChunk.
  destruct (Z.leb_spec cap (get_size k j)) as [Hcap|Hcap]; simpl.
  - rewrite get_size_set_truncated. fold content.
    split; [apply Hkeep; right; lia|done].
  - set (toWrite := take _ chunk).
    assert (Hlen : Z.of_nat (length toWrite)
                   = Z.min (cap - get_size k j) (Z.of_nat (length chunk))).
    { subst toWrite. rewrite length_take. lia. }
    destruct (Z.ltb_spec 0 (Z.of_nat (length toWrite))) as [Hpos|Hzero].
    + destruct wr as [|m]; simpl.
      * assert (Hres : forall j', get_size k j' = get_size k j + Z.of_nat (length toWrite) ->
          default [] (<[p:=content ++ toWrite]> fs !! p)
          = take (Z.to_nat cap) (content ++ chunk) /\
          get_size k j' = Z.of_nat (length (default [] (<[p:=content ++ toWrite]> fs !! p))) /\
          (forall q, q <> p -> <[p:=content ++ toWrite]> fs !! q = fs !! q)).
        { intros j' Hj'. rewrite lookup_insert_eq. simpl. split; [|split].
          - rewrite take_app_ge by lia. f_equal. subst toWrite. f_equal. lia.
          - rewrite Hj', length_app. lia.
          - intros q Hq. by rewrite lookup_insert_ne. }
        destruct (_ <? _); simpl; apply Hres;
          by rewrite ?get_size_set_truncated, get_size_set_size.
      * fold content. split; [apply (Hkeep []); by left|done].
    + assert (length chunk = 0%nat) by lia.
      assert (Hsame : content
        = take (Z.to_nat cap) (content ++ match wr with WriteOk => chunk | _ => [] end)).
      { apply Hkeep. left. by destruct wr. }
      destruct (_ <? _); simpl; rewrite ?get_size_set_truncated; fold content;
        done.
Qed.

Lemma writeChunks_content cap p k chunks j fs :
  get_size k j = Z.of_nat (length (default [] (fs !! p))) ->
  get_size k j <= cap ->
  let res := writeChunks cap (Some p) k chunks j fs in
  default [] (res.2 !! p)
  = take (Z.to_nat cap) (default [] (fs !! p) ++ concat (written chunks)) /\
  get_size k res.1 = Z.of_nat (length (default [] (res.2 !! p))) /\
  (forall q, q <> p -> res.2 !! q = fs !! q).
Proof.
  revert j fs. induction chunks as [|[chunk wr] rest IH]; intros j fs Hsz Hle.
  - simpl. rewrite app_nil_r. split; [|done]. rewrite take_ge; [done|lia].
  - simpl.
    destruct (writeLogChunk_content cap wr p chunk k j fs Hsz Hle)
      as [Hc [Hs Ho]].
    pose proof (writeLogChunk_size_le cap wr (Some p) chunk k j fs Hle) as Hb.
    destruct (writeLogChunk cap wr (Some p) chunk k j fs) as [[j' fs'] m].
    simpl in Hc, Hs, Ho, Hb.
    destruct (IH j' fs' Hs ltac:(lia)) as [Hc' [Hs' Ho']].
    split; [|split].
    + rewrite Hc', Hc, take_take_app. f_equal. rewrite <- app_assoc. f_equal.
      unfold written. simpl. by destruct wr.
    + done.
    + intros q Hq. by rewrite Ho', Ho.
Qed.

(** X21. A log file that starts empty holds, after any sequence of chunks,
    the first [cap] bytes of what was written without an I/O error, the
    size field of the job is the length of the file, and no other file is
    touched. *)
Theorem log_file_is_head cap p k chunks j fs :
  0 <= cap ->
  get_size k j = 0 ->
  default [] (fs !! p) = [] ->
  let res := writeChunks cap (Some p) k chunks j fs in
  default [] (res.2 !! p) = take (Z.to_nat cap) (concat (written chunks)) /\
  get_size k res.1 = Z.of_nat (length (default [] (res.2 !! p))) /\
  (forall q, q <> p -> res.2 !! q = fs !! q).
Proof.
  intros Hcap Hs Hf.
  destruct (writeChunks_content cap p k chunks j fs) as [Hc Hrest].
  - by rewrite Hf, Hs.
  - lia.
  - rewrite Hf in Hc. done.
Qed.

(** X22. A page of [getJobLogs] never goes backwards and never past the end
    of the file: while the offset is before the end the next offset is
    strictly further, by at most 1 MiB; at or past the end the page is empty
    and the next offset is the offset. *)
Theorem getJobLogs_progress jobId stream offset limit st page :
  getJobLogs jobId stream offset limit st = ApiOk page ->
  0 <= page_offset page /\
  (page_offset page < page_totalSize page ->
   page_offset page < page_nextOffset page <= page_totalSize page /\
   page_nextOffset page - page_offset page <= 1024 * 1024) /\
  (page_totalSize page <= page_offset page ->
   page_nextOffset page = page_offset page /\ page_data page = "").
Proof.
  unfold getJobLogs.
  destruct (map_get jobId (jobs st) ≫= _) as [c|]; [|done].
  destruct (_ && _); [done|].
  set (o := match int_or offset 0 with NumInt o => if 0 <=? o then o else 0 | _ => 0 end).
  set (l := match int_or limit 65536 with NumInt l => if 0 <? l then l else 65536 | _ => 65536 end).
  assert (Ho : 0 <= o) by (subst o; repeat case_match; lia).
  assert (Hl : 0 < l) by (subst l; repeat case_match; lia).
  destruct (negb (truthy_str _)).
  { intros [= <-]. simpl. split; [done|]. split; [lia|done]. }
  destruct (files st !! _) as [content|].
  2:{ intros [= <-]. simpl. split; [done|]. split; [lia|done]. }
  destruct (Z.leb_spec (Z.of_nat (length content)) o) as [Hge|Hlt].
  { intros [= <-]. simpl. split; [done|]. split; [lia|done]. }
  intros [= <-]. simpl. split; [done|].
  rewrite length_take, length_drop. split; [|lia]. intros _. lia.
Qed.

(** [s.length] on examples: [é] (U+00E9, the bytes C3 A9) counts 1, the
    code point U+1F600 (the bytes F0 9F 98 80) counts 2, an ASCII string
    counts its characters. *)
Lemma js_length_code_units :
  js_length (String (ascii_of_nat 195) (String (ascii_of_nat 169) "")) = 1 /\
  js_length
    (String (ascii_of_nat 240)
       (String (ascii_of_nat 159)
          (String (ascii_of_nat 152) (String (ascii_of_nat 128) "")))) = 2 /\
  js_length "abc" = 3.
Proof. repeat split. Qed.

(** X1. [validateRequest] accepts a request exactly when the script is
    configured and the arguments are an array of at most [maxItems]
    strings, each of a [length] of at most [itemMaxLength] (in UTF-16 code
    units) and matching [itemPattern], a pattern the [RegExp] constructor
    accepts; the script it returns is the configured one. *)
Theorem validateRequest_accepts st scriptId args script :
  validateRequest st scriptId args = ValidOk script <->
  scriptMap_get st scriptId = Some script /\
  exists ws test,
    args = JArr (JStr <$> ws) /\
    Z.of_nat (length ws) <= maxItems (script_args script) /\
    RegExp (itemPattern (script_args script)) = Some test /\
    Forall (fun w => js_length w <= itemMaxLength (script_args script)
                     /\ test w = true) ws.
Proof.
  assert (Hitems : forall test policy items i,
    validateItems test policy i items = None <->
    exists ws, items = JStr <$> ws /\
      Forall (fun w => js_length w <= itemMaxLength policy
                       /\ test w = true) ws).
  { intros test policy items. induction items as [|v items IH]; intros i.
    - simpl. split; [|done]. intros _. by exists [].
    - simpl. split.
      + destruct v as [| | | |s| |]; try done.
        destruct (Z.ltb_spec (itemMaxLength policy) (js_length s));
          [done|].
        destruct (test s) eqn:Ht; simpl; [|done].
        intros [ws [-> Hall]]%IH. exists (s :: ws). split; [done|].
        constructor; [split; [lia|done]|done].
      + intros [[|w ws] [Heq Hall]]; [done|]. simpl in Heq.
        injection Heq as -> ->. apply Forall_cons in Hall as [[Hlen Ht] Hall].
        destruct (Z.ltb_spec (itemMaxLength policy) (js_length w));
          [lia|].
        rewrite Ht. simpl. apply IH. eauto. }
  unfold validateRequest. split.
  - destruct (scriptMap_get st scriptId) as [s|]; [|done].
    destruct args as [| | | | |items|]; try done.
    destruct (Z.ltb_spec (maxItems (script_args s)) (Z.of_nat (length items)));
      [done|].
    destruct (RegExp _) as [test|] eqn:Hre; [|done].
    destruct (validateItems _ _ _ _) as [[c m]|] eqn:Hv; [done|].
    intros [= <-]. split; [done|].
    apply Hitems in Hv as [ws [-> Hall]].
    exists ws, test. rewrite length_fmap in *. done.
  - intros [-> [ws [test [-> [Hlen [-> Hall]]]]]].
    rewrite length_fmap.
    destruct (Z.ltb_spec (maxItems (script_args script)) (Z.of_nat (length ws)));
      [lia|].
    assert (Hv : validateItems test (script_args script) 0 (JStr <$> ws) = None)
      by (apply Hitems; eauto).
    by rewrite Hv.
Qed.

End LogFiles.

(** ** Code that makes no job *)

Section Evolution.

Context {node : NodeRuntime}.

Lemma same_identity_refl j : same_identity j j.
Proof. unfold same_identity. tauto. Qed.

Lemma same_identity_trans j1 j2 j3 :
  same_identity j1 j2 -> same_identity j2 j3 -> same_identity j1 j3.
Proof. unfold same_identity. intuition congruence. Qed.

Lemma same_config_refl st : same_config st st.
Proof. unfold same_config. tauto. Qed.

Lemma same_config_trans s1 s2 s3 :
  same_config s1 s2 -> same_config s2 s3 -> same_config s1 s3.
Proof. unfold same_config. intuition congruence. Qed.

Lemma evolves_refl st : evolves st st.
Proof.
  split; [apply same_config_refl|]. repeat split; try done.
  intros r c Hc. exists c. split; [done|apply same_identity_refl].
Qed.

Lemma evolves_trans s1 s2 s3 : evolves s1 s2 -> evolves s2 s3 -> evolves s1 s3.
Proof.
  intros (C1 & J1 & S1 & L1 & H1) (C2 & J2 & S2 & L2 & H2).
  split; [by eapply same_config_trans|]. repeat split; try congruence.
  intros r c Hc. destruct (H1 r c Hc) as [c1 [Hc1 I1]].
  destruct (H2 r c1 Hc1) as [c2 [Hc2 I2]].
  exists c2. split; [done|by eapply same_identity_trans].
Qed.

(** A state that differs in the counter of running jobs, the queue, the
    log files or the job store file only. *)
Lemma evolves_fields st st' :
  scriptMap st' = scriptMap st -> maxConcurrent st' = maxConcurrent st ->
  defaultMode st' = defaultMode st -> jobStoreFile st' = jobStoreFile st ->
  logsDir st' = logsDir st ->
  maxLogBytesPerStream st' = maxLogBytesPerStream st ->
  previewMaxBytes st' = previewMaxBytes st ->
  jobs st' = jobs st -> r_seq st' = r_seq st -> heap st' = heap st ->
  evolves st st'.
Proof.
  intros. split; [by repeat split|]. repeat split; try congruence.
  intros r c Hc. exists c. split; [congruence|apply same_identity_refl].
Qed.

Lemma evolves_persist env st : evolves st (persistJobs env st).
Proof.
  unfold persistJobs. destruct (persist_ok env); [|apply evolves_refl].
  by apply evolves_fields.
Qed.

Lemma evolves_upd_cell r c c' st :
  heap st !! r = Some c -> same_identity (job c) (job c') ->
  evolves st (upd_cell r c' st).
Proof.
  intros Hr Hid. split; [by repeat split|].
  repeat split; try done.
  - simpl. by rewrite length_insert.
  - intros r0 c0 Hc0. simpl. destruct (decide (r0 = r)) as [->|Hne].
    + exists c'. rewrite list_lookup_insert_eq by (by eapply lookup_lt_Some).
      split; [done|]. congruence.
    + exists c0. rewrite list_lookup_insert_ne by done.
      split; [done|apply same_identity_refl].
Qed.

Lemma evolves_upd_job r f st :
  (forall j, same_identity j (f j)) -> evolves st (upd_job r f st).
Proof.
  intros Hf. unfold upd_job. destruct (heap st !! r) as [c|] eqn:Hr;
    [|apply evolves_refl].
  eapply evolves_upd_cell; [done|apply Hf].
Qed.

Ltac identity := intros; unfold same_identity; simpl; tauto.

Lemma executeJob_evolves drain env r s st :
  (forall x, evolves x (after (drain x))) ->
  evolves st (after (executeJob drain env r s st)).
Proof.
  intros Hd. unfold executeJob.
  set (st3 := persistJobs env _).
  assert (H3 : evolves st st3).
  { subst st3. eapply evolves_trans; [|apply evolves_persist].
    eapply evolves_trans; [|apply evolves_upd_job; identity].
    by apply evolves_fields. }
  clearbody st3.
  destruct (heap st3 !! r) as [c|] eqn:Hr; [|done].
  assert (Hfail : forall m fs,
    evolves st3
      (after (drain (persistJobs env
        (with_runningCount
           (runningCount
              (upd_job r
                 (fun j =>
                    set_stderrPreview ("failed to open log files: " +:+ m)
                      (set_durationMs (Some (now env - now env))
                         (set_endedAt (Some (now env))
                            (set_code (Some (-1)) (set_status STATUS_FAILED j)))))
                 (with_files fs st3)) - 1)
           (upd_job r
              (fun j =>
                 set_stderrPreview ("failed to open log files: " +:+ m)
                   (set_durationMs (Some (now env - now env))
                      (set_endedAt (Some (now env))
                         (set_code (Some (-1)) (set_status STATUS_FAILED j)))))
              (with_files fs st3))))))).
  { intros m fs. eapply evolves_trans; [|apply Hd].
    eapply evolves_trans; [|apply evolves_persist].
    eapply evolves_trans; [|by apply evolves_fields].
    eapply evolves_trans; [|apply evolves_upd_job; identity].
    by apply evolves_fields. }
  eapply evolves_trans; [exact H3|].
  destruct (mkdir_ok env r); simpl; [|apply evolves_refl].
  destruct (open_logs env r) as [|m|m].
  - destruct (spawn_ok env r); simpl; [|by apply evolves_fields].
    eapply evolves_trans; [|by apply evolves_fields].
    eapply evolves_upd_cell; [done|apply same_identity_refl].
  - specialize (Hfail m (files st3)).
    assert (Hid : with_files (files st3) st3 = st3) by (by destruct st3).
    rewrite Hid in Hfail. exact Hfail.
  - apply Hfail.
Qed.

Lemma drainQueue_loop_evolves fuel env st :
  evolves st (after (drainQueue_loop fuel env st)).
Proof.
  revert st. induction fuel as [|fuel IH]; intros st; simpl;
    [apply evolves_refl|].
  destruct (runningCount st <? maxConcurrent st); [|apply evolves_refl].
  destruct (queue st) as [|[r s] rest]; [apply evolves_refl|].
  assert (H1 : evolves st (with_queue rest st)) by (by apply evolves_fields).
  simpl. destruct (heap st !! r) as [c|]; [|done].
  eapply evolves_trans; [exact H1|].
  destruct (cancelRequested (job c)).
  - eapply evolves_trans; [|apply IH].
    eapply evolves_trans; [|apply evolves_persist].
    apply evolves_upd_job. identity.
  - pose proof (executeJob_evolves (drainQueue_loop fuel env) env r s
                  (with_queue rest st) IH) as HE.
    destruct (executeJob _ _ _ _ _) as [st2|st2]; simpl in HE; [|done].
    eapply evolves_trans; [exact HE|apply IH].
Qed.

Lemma drainQueue_evolves env st : evolves st (after (drainQueue env st)).
Proof. apply drainQueue_loop_evolves. Qed.

Lemma finishJob_evolves env r s c st :
  evolves st (after (finishJob (drainQueue env) env r s c st)).
Proof.
  unfold finishJob.
  destruct (heap st !! r) as [[j [e|]]|] eqn:Hr; try apply evolves_refl.
  destruct (finished e); [apply evolves_refl|].
  eapply evolves_trans; [|apply drainQueue_evolves].
  eapply evolves_trans; [|apply evolves_persist].
  eapply evolves_trans; [|by apply evolves_fields].
  eapply evolves_upd_cell; [done|]. identity.
Qed.

Lemma writeLogChunk_identity cap wr fd chunk k j fs :
  same_identity j (writeLogChunk cap wr fd chunk k j fs).1.1.
Proof.
  unfold writeLogChunk, same_identity.
  repeat (case_match; simpl); destruct k; simpl; tauto.
Qed.

Lemma onData_evolves k r chunk wr st : evolves st (onData k r chunk wr st).
Proof.
  unfold onData.
  destruct (heap st !! r) as [[j [e|]]|] eqn:Hr; try apply evolves_refl.
  match goal with
  | |- context [writeLogChunk ?a ?b ?c ?d ?e ?f ?g] =>
      pose proof (writeLogChunk_identity a b c d e f g) as Hid;
      destruct (writeLogChunk a b c d e f g) as [[j' fs'] [msg|]]
  end; simpl in Hid.
  all: eapply evolves_trans; [|by apply evolves_fields].
  all: by eapply evolves_upd_cell.
Qed.

Lemma onTimeout_evolves r st : evolves st (onTimeout r st).
Proof.
  unfold onTimeout.
  destruct (heap st !! r) as [[j [e|]]|] eqn:Hr; try apply evolves_refl.
  destruct (timerPending e); [|apply evolves_refl].
  eapply evolves_upd_cell; [done|apply same_identity_refl].
Qed.

Lemma onError_evolves env r m st : evolves st (after (onError env r m st)).
Proof.
  unfold onError.
  destruct (heap st !! r) as [[j [e|]]|] eqn:Hr; try apply evolves_refl.
  eapply evolves_trans; [|apply finishJob_evolves].
  eapply evolves_upd_cell; [done|apply same_identity_refl].
Qed.

Lemma onClose_evolves env r code signal st :
  evolves st (after (onClose env r code signal st)).
Proof.
  unfold onClose.
  destruct (heap st !! r) as [[j [e|]]|] eqn:Hr; try apply evolves_refl.
  destruct (closeDecision _ _ _ _). apply finishJob_evolves.
Qed.

Lemma cancelJob_evolves env jobId st : evolves st (cancelJob env jobId st).2.
Proof.
  unfold cancelJob.
  destruct (map_get jobId (jobs st)) as [r|]; [|apply evolves_refl].
  destruct (heap st !! r) as [c|] eqn:Hr; [|apply evolves_refl].
  destruct (is_terminal _); [apply evolves_refl|].
  destruct (_ && _); simpl.
  { eapply evolves_upd_cell; [done|]. identity. }
  destruct (String.eqb _ _); simpl.
  - eapply evolves_trans; [|apply evolves_persist].
    eapply evolves_upd_cell; [done|]. identity.
  - eapply evolves_upd_cell; [done|]. identity.
Qed.

End Evolution.

(** ** The identity of jobs and the configuration *)

Section Identity.

Context {node : NodeRuntime}.

Ltac identity := intros; unfold same_identity; simpl; tauto.

Lemma createJob_spec env sid a m st :
  exists j,
    createJob env sid a m st
    = (length (heap st),
       persistJobs env
         (with_jobs (map_set (jobId j) (length (heap st)) (jobs st))
            (with_heap (heap st ++ [ {| job := j; exec := None |} ])
               (with_seq (r_seq st + 1) st)))) /\
    jobId j = "job_" +:+ pretty (now env) +:+ "_" +:+ pretty (r_seq st + 1) /\
    scriptId j = sid /\ args j = a /\ mode j = m /\
    status j = STATUS_QUEUED /\ cancelRequested j = false /\
    createdAt j = Some (now env) /\ code j = None /\ endedAt j = None.
Proof.
  unfold createJob, nextJobId. simpl.
  match goal with |- context [ {| job := ?J; exec := None |} ] => exists J end.
  done.
Qed.

(** What [submitRun] does to the job objects there are and to the
    configuration. *)
Lemma submitRun_old env req st :
  same_config st (submitRun env req st).2 /\
  (length (heap st) <= length (heap (submitRun env req st).2))%nat /\
  forall r c, heap st !! r = Some c ->
    exists c', heap (submitRun env req st).2 !! r = Some c' /\
               same_identity (job c) (job c').
Proof.
  unfold submitRun.
  destruct (validateRequest _ _ _) as [script|cc m|].
  2,3: simpl; split; [apply same_config_refl|]; split; [done|];
       intros r c Hc; exists c; split; [done|apply same_identity_refl].
  destruct (createJob_spec env (script_id script) (args_or_default (req_args req))
              (resolveMode st script (req_mode req)) st) as [j [-> _]].
  set (st1 := persistJobs env _).
  assert (H2 : evolves st1 (after (enqueue env (length (heap st)) script st1))).
  { unfold enqueue.
    eapply evolves_trans; [|apply drainQueue_evolves]. by apply evolves_fields. }
  assert (H1 : same_config st st1 /\
               heap st1 = heap st ++ [ {| job := j; exec := None |} ]).
  { subst st1. rewrite persistJobs_heap. split; [|done].
    destruct (evolves_persist env
      (with_jobs (map_set (jobId j) (length (heap st)) (jobs st))
         (with_heap (heap st ++ [ {| job := j; exec := None |} ])
            (with_seq (r_seq st + 1) st)))) as [C _].
    eapply same_config_trans; [|exact C]. by repeat split. }
  clearbody st1. destruct H1 as [C1 Hh1].
  assert (Hres : forall st2, evolves st1 st2 ->
    same_config st st2 /\
    (length (heap st) <= length (heap st2))%nat /\
    forall r c, heap st !! r = Some c ->
      exists c', heap st2 !! r = Some c' /\ same_identity (job c) (job c')).
  { intros st2 (C2 & _ & _ & L2 & Hh2).
    split; [by eapply same_config_trans|]. split.
    - rewrite L2, Hh1, length_app. lia.
    - intros r c Hc. apply (Hh2 r c). rewrite Hh1. by apply lookup_app_l_Some. }
  destruct (enqueue _ _ _ st1) as [st2|st2]; simpl in H2; [|by apply Hres].
  destruct (String.eqb _ "async"); [|by apply Hres].
  destruct (heap st2 !! length (heap st)); by apply Hres.
Qed.

Lemma step_old env ev st :
  same_config st (step env ev st) /\
  (length (heap st) <= length (heap (step env ev st)))%nat /\
  forall r c, heap st !! r = Some c ->
    exists c', heap (step env ev st) !! r = Some c' /\
               same_identity (job c) (job c').
Proof.
  assert (He : forall st', evolves st st' ->
    same_config st st' /\
    (length (heap st) <= length (heap st'))%nat /\
    forall r c, heap st !! r = Some c ->
      exists c', heap st' !! r = Some c' /\ same_identity (job c) (job c')).
  { intros st' (C & _ & _ & L & H). split; [done|]. split; [lia|done]. }
  destruct ev; simpl.
  - apply submitRun_old.
  - apply He, cancelJob_evolves.
  - apply He, onData_evolves.
  - apply He, onTimeout_evolves.
  - apply He, onError_evolves.
  - apply He, onClose_evolves.
Qed.

(** X4. No event changes what a job is: the id, the script, the mode, the
    arguments, the creation time and the names of the two log files of
    every job object stay as [createJob] or the job store file set them,
    and no job object goes away. *)
Theorem job_identity_kept env ev st r c :
  heap st !! r = Some c ->
  exists c',
    heap (step env ev st) !! r = Some c' /\ same_identity (job c) (job c').
Proof. intros Hc. by apply step_old. Qed.

(** ** The configuration of a runner *)

Lemma scriptMap_fold (l : list Script) (m0 : gmap string Script) id :
  fold_left (fun m s => <[script_id s := s]> m) l m0 !! id
  = match last (filter (fun s => script_id s = id) l) with
    | Some s => Some s
    | None => m0 !! id
    end.
Proof.
  revert m0. induction l as [|s l IH]; intros m0; simpl; [done|].
  rewrite IH, filter_cons.
  destruct (decide (script_id s = id)) as [Heq|Hne].
  - rewrite last_cons. destruct (last (filter _ l)); [done|].
    by rewrite <- Heq, lookup_insert_eq.
  - destruct (last (filter _ l)); [done|]. by rewrite lookup_insert_ne.
Qed.

Lemma loadJobsFromDisk_config t st : same_config st (loadJobsFromDisk t st).
Proof.
  unfold loadJobsFromDisk.
  destruct (store st) as [| | |parsed]; try apply same_config_refl.
  revert st. induction parsed as [|e parsed IH]; intros st; simpl;
    [apply same_config_refl|].
  eapply same_config_trans; [|apply IH].
  destruct e as [|r]; simpl; [apply same_config_refl|].
  destruct (truthy_str _); simpl; [|apply same_config_refl]. by repeat split.
Qed.

(** X6. A runner works with the configuration it was constructed with,
    whatever happens: the limits, the paths and the script map are those
    the constructor computed, a script id naming the last script of the
    configuration with that id. *)
Theorem configuration_is_fixed config st :
  reachable config st ->
  maxConcurrent st = cfg_maxConcurrent (runner config) /\
  defaultMode st = cfg_defaultMode (runner config) /\
  jobStoreFile st = cfg_jobStoreFile (runner config) /\
  logsDir st
  = str_or (cfg_logsDir (runner config))
      (path_join (path_dirname (cfg_jobStoreFile (runner config))) "logs") /\
  maxLogBytesPerStream st
  = num_or (cfg_maxLogBytesPerStream (runner config)) (1024 * 1024) /\
  previewMaxBytes st = num_or (cfg_previewMaxBytes (runner config)) 4096 /\
  forall id, scriptMap st !! id = configured_script config id.
Proof.
  intros Hreach.
  assert (H : same_config (newScriptRunner config 0 StoreMissing ∅) st).
  { induction Hreach as [t disk logs|st env ev _ IH].
    - unfold newScriptRunner.
      match goal with |- same_config ?a (loadJobsFromDisk t ?b) =>
        eapply (same_config_trans a b); [by repeat split|] end.
      apply loadJobsFromDisk_config.
    - eapply same_config_trans; [exact IH|]. apply step_old. }
  destruct H as (H1 & H2 & H3 & H4 & H5 & H6 & H7).
  rewrite H1, H2, H3, H4, H5, H6, H7. repeat split.
  intros id. unfold newScriptRunner, configured_script. simpl.
  rewrite scriptMap_fold. by destruct (last _).
Qed.

(** ** The job map *)

Lemma map_set_keys {V} (k : string) (v : V) (m : list (string * V)) x :
  x ∈ (map_set k v m).*1 <-> x = k \/ x ∈ m.*1.
Proof.
  induction m as [|[k' v'] m IH]; simpl.
  - set_solver.
  - destruct (String.eqb_spec k' k) as [->|Hne]; simpl; set_solver.
Qed.

Lemma map_set_keys_NoDup {V} (k : string) (v : V) (m : list (string * V)) :
  NoDup m.*1 -> NoDup (map_set k v m).*1.
Proof.
  induction m as [|[k' v'] m IH]; simpl; intros Hnd.
  - apply NoDup_singleton.
  - apply NoDup_cons in Hnd as [Hk Hnd].
    destruct (String.eqb_spec k' k) as [->|Hne]; simpl.
    + by apply NoDup_cons.
    + apply NoDup_cons. split; [|by apply IH].
      rewrite map_set_keys. intros [?|?]; done.
Qed.

Lemma map_set_elem {V} (k : string) (v : V) (m : list (string * V)) x :
  NoDup m.*1 -> x ∈ map_set k v m -> x = (k, v) \/ (x ∈ m /\ x.1 <> k).
Proof.
  induction m as [|[k' v'] m IH]; simpl; intros Hnd.
  - set_solver.
  - apply NoDup_cons in Hnd as [Hk Hnd].
    destruct (String.eqb_spec k' k) as [->|Hne]; simpl.
    + intros [->|Hin]%elem_of_cons; [by left|]. right.
      split; [set_solver|]. intros <-. apply Hk.
      apply list_elem_of_fmap. by exists x.
    + intros [->|Hin]%elem_of_cons; [right; split; [set_solver|done]|].
      destruct (IH Hnd Hin) as [->|[Hin' Hx]]; [by left|right].
      split; [set_solver|done].
Qed.

Lemma map_get_elem {V} (k : string) (v : V) (m : list (string * V)) :
  NoDup m.*1 -> (map_get k m = Some v <-> (k, v) ∈ m).
Proof.
  induction m as [|[k' v'] m IH]; simpl; intros Hnd.
  - split; [done|]. by intros ?%not_elem_of_nil.
  - apply NoDup_cons in Hnd as [Hk Hnd].
    destruct (String.eqb_spec k' k) as [->|Hne].
    + split.
      * intros [= ->]. apply list_elem_of_here.
      * intros [[= ->]|Hin]%elem_of_cons; [done|].
        exfalso. apply Hk. apply list_elem_of_fmap. by exists (k, v).
    + rewrite IH by done. split; [set_solver|].
      intros [[= -> ->]|Hin]%elem_of_cons; done.
Qed.

Lemma Ids_evolves st st' : evolves st st' -> Ids st -> Ids st'.
Proof.
  intros (_ & J & _ & _ & H) [Hnd Hids]. unfold Ids. rewrite J. split; [done|].
  intros k r Hin. destruct (Hids k r Hin) as [Hk [c [Hc Hid]]].
  split; [done|]. destruct (H r c Hc) as [c' [Hc' Hi]].
  exists c'. split; [done|]. destruct Hi as [-> _]. done.
Qed.

Lemma Ids_alloc st j :
  Ids st -> jobId j <> "" ->
  Ids (with_jobs (map_set (jobId j) (length (heap st)) (jobs st))
         (with_heap (heap st ++ [ {| job := j; exec := None |} ]) st)).
Proof.
  intros [Hnd Hids] Hj. split; simpl.
  - by apply map_set_keys_NoDup.
  - intros k r [[= -> ->]|[Hin Hk]]%map_set_elem; [| |done].
    + split; [done|]. eexists. rewrite lookup_app_r by done.
      rewrite Nat.sub_diag. done.
    + destruct (Hids k r Hin) as [Hne [c [Hc Hid]]]. split; [done|].
      exists c. split; [by apply lookup_app_l_Some|done].
Qed.

Lemma loadJobsFromDisk_Ids t st : Ids st -> Ids (loadJobsFromDisk t st).
Proof.
  unfold loadJobsFromDisk. destruct (store st) as [| | |parsed]; try done.
  revert st. induction parsed as [|e parsed IH]; intros st HI; simpl; [done|].
  apply IH. destruct e as [|r]; simpl; [done|].
  unfold truthy_str. destruct (snap_jobId r) as [id|]; simpl; [|done].
  destruct (String.eqb_spec id "") as [->|Hne]; simpl; [done|].
  assert (Hrec : jobId (recover t (job_of_entry id r)) = id).
  { unfold recover. repeat case_match; done. }
  pose proof (Ids_alloc st (recover t (job_of_entry id r)) HI) as Ha.
  rewrite Hrec in Ha. by apply Ha.
Qed.

Lemma submitRun_Ids env req st : Ids st -> Ids (submitRun env req st).2.
Proof.
  intros HI. unfold submitRun.
  destruct (validateRequest _ _ _) as [script|cc m|]; [|done|done].
  destruct (createJob_spec env (script_id script) (args_or_default (req_args req))
              (resolveMode st script (req_mode req)) st) as [j [-> [Hid _]]].
  set (st1 := persistJobs env _).
  assert (H1 : Ids st1).
  { subst st1. eapply Ids_evolves; [apply evolves_persist|].
    apply (Ids_alloc (with_seq (r_seq st + 1) st)); [exact HI|].
    rewrite Hid. intros H. discriminate H. }
  assert (H2 : Ids (after (enqueue env (length (heap st)) script st1))).
  { unfold enqueue. eapply Ids_evolves; [apply drainQueue_evolves|].
    eapply Ids_evolves; [|exact H1]. by apply evolves_fields. }
  destruct (enqueue _ _ _ st1) as [st2|st2]; simpl in H2; [|done].
  destruct (String.eqb _ "async"); [|done].
  by destruct (heap _ !! length (heap st)).
Qed.

Lemma reachable_Ids config st : reachable config st -> Ids st.
Proof.
  induction 1 as [t disk logs|st env ev _ IH].
  - apply loadJobsFromDisk_Ids. split; simpl; [apply NoDup_nil_2|].
    by intros k r ?%not_elem_of_nil.
  - destruct ev; simpl.
    + by apply submitRun_Ids.
    + eapply Ids_evolves; [apply cancelJob_evolves|done].
    + eapply Ids_evolves; [apply onData_evolves|done].
    + eapply Ids_evolves; [apply onTimeout_evolves|done].
    + eapply Ids_evolves; [apply onError_evolves|done].
    + eapply Ids_evolves; [apply onClose_evolves|done].
Qed.

(** X5. The job map is keyed by the jobs' own ids: the job [getJob] finds
    under an id carries that id, which is not empty. *)
Theorem getJob_finds_its_id config st id snap :
  reachable config st ->
  getJob id st = Some snap ->
  snap_jobId snap = Some id /\ id <> "".
Proof.
  intros Hreach Hget. destruct (reachable_Ids _ _ Hreach) as [Hnd Hids].
  unfold getJob in Hget.
  destruct (map_get id (jobs st)) as [r|] eqn:Hm; [|done].
  apply map_get_elem in Hm; [|done].
  destruct (Hids id r Hm) as [Hne [c [Hc Hid]]].
  rewrite Hc in Hget. simpl in Hget. injection Hget as <-. simpl.
  by rewrite Hid.
Qed.

End Identity.

(** ** Restarting *)

Section Restart.

Context {node : NodeRuntime}.

Lemma stored_entry_jobs (h : list Cell) (m : list (string * nat)) id :
  NoDup m.*1 ->
  (forall k r, (k, r) ∈ m ->
     k <> "" /\ exists c, h !! r = Some c /\ jobId (job c) = k) ->
  stored_entry id
    (omap (fun kv : string * nat =>
             (fun c => EntryObject (serializeJobForStore (job c))) <$> h !! kv.2)
          m)
  = (fun c => serializeJob (job c)) <$> (map_get id m ≫= (fun r => h !! r)).
Proof.
  set (F := fun kv : string * nat =>
              (fun c => EntryObject (serializeJobForStore (job c))) <$> h !! kv.2).
  induction m as [|[k r] m IH]; intros Hnd Hids; [done|].
  simpl in Hnd. apply NoDup_cons in Hnd as [Hk Hnd].
  destruct (Hids k r ltac:(apply list_elem_of_here)) as [Hne [c [Hc Hid]]].
  assert (Hcons : omap F ((k, r) :: m)
                  = EntryObject (serializeJobForStore (job c)) :: omap F m).
  { change (omap F ((k, r) :: m))
      with (match F (k, r) with Some y => y :: omap F m | None => omap F m end).
    unfold F at 1. simpl. by rewrite Hc. }
  rewrite Hcons.
  change (stored_entry id (?e :: ?rest))
    with (match stored_entry id rest with
          | Some r => Some r
          | None => entry_of id e
          end).
  rewrite IH; [|done|].
  2:{ intros k' r' Hin. apply Hids. by apply list_elem_of_further. }
  change (map_get id ((k, r) :: m))
    with (if String.eqb k id then Some r else map_get id m).
  assert (Hentry : entry_of id (EntryObject (serializeJobForStore (job c)))
                   = if String.eqb k id then Some (serializeJob (job c)) else None).
  { unfold entry_of, serializeJobForStore. simpl. rewrite Hid.
    destruct (String.eqb_spec k "") as [|_]; [done|]. simpl.
    by destruct (String.eqb k id). }
  rewrite Hentry.
  destruct (String.eqb_spec k id) as [->|Hkid].
  - assert (Hnone : map_get id m = None).
    { destruct (map_get id m) as [r'|] eqn:Hm; [|done].
      exfalso. apply Hk. apply map_get_elem in Hm; [|done].
      apply list_elem_of_fmap. by exists (id, r'). }
    rewrite Hnone. simpl. by rewrite Hc.
  - by destruct (map_get id m ≫= _).
Qed.

(** X8. What the job store file holds after [persistJobs] is what a new
    runner starts from: a runner constructed on that file knows the same
    jobs under the same ids, each as it was when the file was written,
    except that a job then [queued] or [running] is now [failed] with code
    -1, ended at the time of the restart. *)
Theorem restart_recovers_jobs config config' st env t logs id :
  reachable config st ->
  persist_ok env = true ->
  getJob id (newScriptRunner config' t (store (persistJobs env st)) logs)
  = recovered t <$> getJob id st.
Proof.
  intros Hreach Hok. destruct (reachable_Ids _ _ Hreach) as [Hnd Hids].
  unfold newScriptRunner, loadJobsFromDisk, persistJobs. rewrite Hok. simpl.
  rewrite load_getJob.
  2:{ simpl. intros r Hr. by apply not_elem_of_nil in Hr. }
  rewrite stored_entry_jobs by done.
  unfold getJob. simpl.
  destruct (map_get id (jobs st)) as [r|]; simpl; [|done].
  by destruct (heap st !! r).
Qed.

End Restart.

(** ** Queued jobs *)

Section QueuedJobs.

Context {node : NodeRuntime}.

Ltac unfold_st :=
  unfold Inv, Queued, Busy, upd_cell, with_heap, with_files, with_runningCount,
    with_queue, with_jobs, with_store, with_seq in *;
  simpl in *.

Lemma QueuedP_insert q h r c' :
  (forall r1 c, r1 <> r -> h !! r1 = Some c ->
                status (job c) = STATUS_QUEUED -> r1 ∈ q.*1) ->
  (status (job c') = STATUS_QUEUED -> r ∈ q.*1) ->
  QueuedP q (<[r := c']> h).
Proof.
  intros Hold Hnew r1 c Hc Hs.
  apply list_lookup_insert_Some in Hc as [(<- & <- & _)|[Hne Hc]]; eauto.
Qed.

Lemma Queued_persist env st : Queued (persistJobs env st) <-> Queued st.
Proof. unfold Queued, persistJobs. by destruct (persist_ok env). Qed.

Lemma Queued_upd_job r f st :
  (forall r1 c, r1 <> r -> heap st !! r1 = Some c ->
                status (job c) = STATUS_QUEUED -> r1 ∈ (queue st).*1) ->
  (forall j, status (f j) <> STATUS_QUEUED) ->
  Queued (upd_job r f st).
Proof.
  intros Hold Hf. unfold upd_job.
  destruct (heap st !! r) as [c|] eqn:Hr.
  - unfold_st. apply QueuedP_insert; [done|]. simpl. intros Hs. by apply Hf in Hs.
  - intros r1 c Hc. apply Hold; [|done]. intros ->. congruence.
Qed.

Lemma executeJob_Queued drain env r s st :
  (forall x, Queued x -> Queued (after (drain x))) ->
  (forall r1 c, r1 <> r -> heap st !! r1 = Some c ->
                status (job c) = STATUS_QUEUED -> r1 ∈ (queue st).*1) ->
  Queued (after (executeJob drain env r s st)).
Proof.
  intros Hd Hold. unfold executeJob.
  set (st3 := persistJobs env _).
  assert (H3 : Queued st3).
  { subst st3. apply Queued_persist. by apply Queued_upd_job. }
  clearbody st3.
  destruct (heap st3 !! r) as [c|] eqn:Hr; [|done].
  assert (Hfail : forall m fs,
    Queued
      (after (drain (persistJobs env
        (with_runningCount
           (runningCount
              (upd_job r
                 (fun j =>
                    set_stderrPreview ("failed to open log files: " +:+ m)
                      (set_durationMs (Some (now env - now env))
                         (set_endedAt (Some (now env))
                            (set_code (Some (-1)) (set_status STATUS_FAILED j)))))
                 (with_files fs st3)) - 1)
           (upd_job r
              (fun j =>
                 set_stderrPreview ("failed to open log files: " +:+ m)
                   (set_durationMs (Some (now env - now env))
                      (set_endedAt (Some (now env))
                         (set_code (Some (-1)) (set_status STATUS_FAILED j)))))
              (with_files fs st3))))))).
  { intros m fs. apply Hd, Queued_persist.
    match goal with |- Queued (with_runningCount _ ?x) =>
      assert (Hx : Queued x); [|exact Hx] end.
    apply Queued_upd_job; [|done].
    intros r1 c1 _ Hc1 Hs1. by apply (H3 r1 c1). }
  destruct (mkdir_ok env r); simpl; [|done].
  destruct (open_logs env r) as [|m|m].
  - destruct (spawn_ok env r); simpl; [|exact H3].
    unfold_st. apply QueuedP_insert.
    + intros r1 c1 _. apply H3.
    + simpl. by apply H3.
  - specialize (Hfail m (files st3)).
    assert (Hid : with_files (files st3) st3 = st3) by (by destruct st3).
    rewrite Hid in Hfail. exact Hfail.
  - apply Hfail.
Qed.

Lemma drainQueue_loop_Queued fuel env st :
  Queued st -> Queued (after (drainQueue_loop fuel env st)).
Proof.
  revert st. induction fuel as [|fuel IH]; intros st HQ; simpl; [done|].
  destruct (runningCount st <? maxConcurrent st); [|done].
  destruct (queue st) as [|[r s] rest] eqn:Hq; [done|].
  assert (Hold : forall r1 c, r1 <> r -> heap st !! r1 = Some c ->
            status (job c) = STATUS_QUEUED -> r1 ∈ rest.*1).
  { intros r1 c Hne Hc Hs. specialize (HQ r1 c Hc Hs). rewrite Hq in HQ.
    simpl in HQ. set_solver. }
  simpl. destruct (heap st !! r) as [c|] eqn:Hr.
  2:{ intros r1 c1 Hc1. apply Hold; [|done]. intros ->. simpl in Hc1. congruence. }
  destruct (cancelRequested (job c)).
  - apply IH, Queued_persist. by apply Queued_upd_job.
  - pose proof (executeJob_Queued (drainQueue_loop fuel env) env r s
                  (with_queue rest st) IH Hold) as HE.
    destruct (executeJob _ _ _ _ _) as [st2|st2]; simpl in HE; [by apply IH|done].
Qed.

Lemma finishJob_Queued env r s c st :
  s <> STATUS_QUEUED ->
  Queued st -> Queued (after (finishJob (drainQueue env) env r s c st)).
Proof.
  intros Hs HQ. unfold finishJob.
  destruct (heap st !! r) as [[j [e|]]|] eqn:Hr; try done.
  destruct (finished e); [done|].
  apply drainQueue_loop_Queued, Queued_persist. unfold_st.
  apply QueuedP_insert; [|done]. intros r1 c1 _. apply HQ.
Qed.

Lemma closeDecision_not_queued t cr code signal :
  (closeDecision t cr code signal).1 <> STATUS_QUEUED.
Proof. unfold closeDecision. repeat case_match; done. Qed.

Lemma recover_not_queued t j : status (recover t j) <> STATUS_QUEUED.
Proof.
  unfold recover.
  destruct (String.eqb_spec (status j) STATUS_RUNNING) as [E1|E1]; simpl.
  - by destruct (startedAt j).
  - destruct (String.eqb_spec (status j) STATUS_QUEUED) as [E2|E2]; [|done].
    by destruct (startedAt j).
Qed.

Lemma QueuedP_alloc q h j :
  QueuedP q h -> (status j = STATUS_QUEUED -> length h ∈ q.*1) ->
  QueuedP q (h ++ [ {| job := j; exec := None |} ]).
Proof.
  intros HQ Hj r c Hc Hs.
  apply lookup_app_Some in Hc as [Hc|[Hge Hc]]; [eauto|].
  apply list_lookup_singleton_Some in Hc as [Hr <-].
  assert (r = length h) as -> by lia. by apply Hj.
Qed.

Lemma QueuedP_push q h j s :
  QueuedP q h ->
  QueuedP (q ++ [(length h, s)]) (h ++ [ {| job := j; exec := None |} ]).
Proof.
  intros HQ r c Hc Hs. rewrite fmap_app. apply elem_of_app.
  apply lookup_app_Some in Hc as [Hc|[Hge Hc]]; [left; eauto|right].
  apply list_lookup_singleton_Some in Hc as [Hr _].
  assert (r = length h) as -> by lia. apply list_elem_of_here.
Qed.

Lemma step_Queued env ev st : Queued st -> Queued (step env ev st).
Proof.
  intros HQ. destruct ev as [req|jobId|k r chunk wr|r|r m|r cd sg]; simpl.
  - unfold submitRun.
    destruct (validateRequest _ _ _) as [script|cc m|]; [|done|done].
    destruct (createJob_spec env (script_id script)
                (args_or_default (req_args req))
                (resolveMode st script (req_mode req)) st) as [j [-> _]].
    set (st1 := persistJobs env _).
    assert (H2 : Queued (after (enqueue env (length (heap st)) script st1))).
    { unfold enqueue. apply drainQueue_loop_Queued.
      subst st1. unfold Queued. simpl.
      rewrite persistJobs_heap, persistJobs_queue.
      simpl. by apply QueuedP_push. }
    destruct (enqueue _ _ _ st1) as [st2|st2]; simpl in H2; [|done].
    destruct (String.eqb _ "async"); [|done].
    by destruct (heap _ !! length (heap st)).
  - unfold cancelJob.
    destruct (map_get jobId (jobs st)) as [r|]; [|done].
    destruct (heap st !! r) as [c|] eqn:Hr; [|done].
    destruct (is_terminal _); [done|].
    destruct (_ && _); simpl.
    { unfold_st. apply QueuedP_insert; [intros r1 c1 _; apply HQ|].
      simpl. by apply HQ. }
    destruct (String.eqb _ _); simpl.
    + apply Queued_persist. unfold_st.
      apply QueuedP_insert; [intros r1 c1 _; apply HQ|done].
    + unfold_st. apply QueuedP_insert; [intros r1 c1 _; apply HQ|].
      simpl. by apply HQ.
  - unfold onData.
    destruct (heap st !! r) as [[j [e|]]|] eqn:Hr; try done.
    match goal with
    | |- context [writeLogChunk ?a ?b ?c ?d ?e ?f ?g] =>
        pose proof (writeLogChunk_status a b c d e f g) as Hs;
        destruct (writeLogChunk a b c d e f g) as [[j' fs'] [msg|]]
    end; simpl in Hs.
    all: unfold_st; apply QueuedP_insert; [intros r1 c1 _; apply HQ|];
      simpl; rewrite Hs; by apply (HQ r _ Hr).
  - unfold onTimeout.
    destruct (heap st !! r) as [[j [e|]]|] eqn:Hr; try done.
    destruct (timerPending e); [|done].
    unfold_st. apply QueuedP_insert; [intros r1 c1 _; apply HQ|].
    by apply (HQ r _ Hr).
  - unfold onError.
    destruct (heap st !! r) as [[j [e|]]|] eqn:Hr; try done.
    apply finishJob_Queued; [done|].
    unfold_st. apply QueuedP_insert; [intros r1 c1 _; apply HQ|].
    by apply (HQ r _ Hr).
  - unfold onClose.
    destruct (heap st !! r) as [[j [e|]]|] eqn:Hr; try done.
    pose proof (closeDecision_not_queued (timedOut e) (cancelRequested j) cd sg).
    destruct (closeDecision _ _ _ _). by apply finishJob_Queued.
Qed.

Lemma reachable_Queued config st : reachable config st -> Queued st.
Proof.
  induction 1 as [t disk logs|st env ev _ IH]; [|by apply step_Queued].
  unfold newScriptRunner, loadJobsFromDisk. simpl.
  destruct disk as [| | |parsed]; try (by intros r c Hc).
  match goal with |- Queued (fold_left _ _ ?x) =>
    assert (H0 : Queued x /\ queue x = []) by (split; [by intros r c Hc|done]);
    revert H0; generalize x end.
  induction parsed as [|e parsed IH]; intros st [HQ Hq]; simpl; [done|].
  apply IH. destruct e as [|r]; simpl; [done|].
  destruct (truthy_str _); simpl; [|done]. split; [|done].
  unfold_st. apply QueuedP_alloc; [done|]. intros Hs.
  by apply recover_not_queued in Hs.
Qed.

(** X11. A job is [queued] exactly while it waits in the queue without
    having been canceled; a queued job has no child process. *)
Theorem queued_jobs_are_in_the_queue config st r c :
  reachable config st ->
  heap st !! r = Some c ->
  (status (job c) = STATUS_QUEUED <->
   r ∈ (queue st).*1 /\ status (job c) <> STATUS_CANCELED) /\
  (r ∈ (queue st).*1 -> exec c = None).
Proof.
  intros Hreach Hc.
  pose proof (reachable_Inv _ _ Hreach) as HI.
  pose proof (reachable_Queued _ _ Hreach) as HQ.
  split; [split|].
  - intros Hs. split; [by apply (HQ r c)|]. by rewrite Hs.
  - intros [Hin Hn].
    destruct (inv_queue_waiting _ _ _ _ _ HI r c Hin Hc) as [Hq|[Hq _]]; done.
  - intros Hin. destruct (inv_queue_fresh _ _ _ _ _ HI r Hin) as [j Hj].
    rewrite Hj in Hc. by injection Hc as <-.
Qed.

End QueuedJobs.

(** ** Slots and the order of the queue *)

Section Slots.

Context {node : NodeRuntime}.

Ltac unfold_st :=
  unfold Inv, Queued, Busy, upd_cell, with_heap, with_files, with_runningCount,
    with_queue, with_jobs, with_store, with_seq in *;
  simpl in *.

Lemma Busy_persist env st : Busy (persistJobs env st) <-> Busy st.
Proof. unfold Busy, persistJobs. by destruct (persist_ok env). Qed.

(** When [drainQueue] is left, the queue is empty or every slot is taken,
    provided that it was called with at most one job waiting or at most
    one slot free: an exception of [executeJob] leaves the loop after the
    job has taken its slot. *)
Lemma drainQueue_loop_Busy fuel env st :
  Inv st -> (length (queue st) < fuel)%nat ->
  (length (queue st) <= 1)%nat \/ maxConcurrent st <= runningCount st + 1 ->
  Busy (after (drainQueue_loop fuel env st)).
Proof.
  revert st. induction fuel as [|fuel IH]; intros st HI Hlen HW; [lia|].
  simpl. destruct (Z.ltb_spec (runningCount st) (maxConcurrent st)) as [Hlt|Hge];
    [|by right].
  destruct (queue st) as [|[r script] rest] eqn:Hq; [by left|].
  assert (Hidle : forall j, heap st !! r = Some {| job := j; exec := None |} ->
                            status j <> STATUS_RUNNING).
  { intros j Hj. apply waiting_not_running.
    apply (inv_queue_waiting _ _ _ _ _ HI r {| job := j; exec := None |});
      [|done].
    rewrite Hq. set_solver. }
  assert (HI1 : Inv (with_queue rest st) /\ (r ∉ rest.*1) /\
                exists j, heap st !! r = Some {| job := j; exec := None |}).
  { unfold Inv in HI. rewrite Hq in HI. apply InvP_shift in HI. done. }
  destruct HI1 as [HI1 [Hr [j Hj]]].
  assert (HV : rest = [] \/ maxConcurrent st <= runningCount st + 1).
  { destruct HW as [HW|HW]; [left|by right].
    simpl in HW. destruct rest; [done|simpl in HW; lia]. }
  simpl in Hlen. simpl. rewrite Hj. simpl.
  destruct (cancelRequested j) eqn:Hcr.
  - apply IH.
    + pose proof (drainQueue_loop_Inv 1 env st HI) as H1.
      simpl in H1. apply Z.ltb_lt in Hlt. rewrite Hlt, Hq in H1. simpl in H1.
      rewrite Hj in H1. simpl in H1. by rewrite Hcr in H1.
    + rewrite persistJobs_queue, upd_job_queue. simpl. lia.
    + rewrite persistJobs_queue, upd_job_queue, persistJobs_maxConcurrent,
        persistJobs_runningCount. unfold upd_job. simpl. rewrite Hj. simpl.
      destruct HV as [->|HV]; [left; simpl; lia|by right].
  - assert (HE :
      Inv (after (executeJob (drainQueue_loop fuel env) env r script
                    (with_queue rest st))) /\
      Busy (after (executeJob (drainQueue_loop fuel env) env r script
                     (with_queue rest st)))).
    { apply (executeJob_Inv_and Busy (drainQueue_loop fuel env) env r script
               (with_queue rest st) j); try done.
      - intros x HIx Hqx Hcx Hmx. split; [by apply drainQueue_loop_Inv|].
        apply IH; [done|rewrite Hqx; simpl; lia|].
        rewrite Hqx, Hcx, Hmx. simpl.
        destruct HV as [->|HV]; [left; simpl; lia|by right].
      - intros x Hqx Hcx Hmx. unfold Busy. rewrite Hqx, Hcx, Hmx. simpl.
        destruct HV as [->|HV]; [by left|by right].
      - by apply Hidle. }
    destruct HE as [HI2 HB2].
    pose proof (executeJob_queue_length (drainQueue_loop fuel env) env r script
                    (with_queue rest st)
                    (fun x => drainQueue_loop_queue_length fuel env x)) as HL.
      destruct (executeJob _ _ _ _ _) as [st2|st2]; simpl in HI2, HB2, HL;
        [|done].
      apply IH; [done|lia|].
      destruct HB2 as [->|HB2]; [left; simpl; lia|right; lia].
Qed.

Lemma drainQueue_Busy env st :
  Inv st ->
  (length (queue st) <= 1)%nat \/ maxConcurrent st <= runningCount st + 1 ->
  Busy (after (drainQueue env st)).
Proof. intros HI HW. apply drainQueue_loop_Busy; [done|lia|done]. Qed.

Lemma finishJob_Busy env r s c st :
  s <> STATUS_RUNNING ->
  Inv st -> Busy st -> Busy (after (finishJob (drainQueue env) env r s c st)).
Proof.
  intros Hs HI HB.
  pose proof (finishJob_Inv (fun x => Returns x) env r s c st (fun _ H => H) Hs HI)
    as HX.
  unfold finishJob in *.
  destruct (heap st !! r) as [[j [e|]]|] eqn:Hr; try done.
  destruct (finished e); [done|]. simpl in HX.
  apply drainQueue_Busy; [done|].
  rewrite persistJobs_queue, persistJobs_maxConcurrent, persistJobs_runningCount.
  simpl. destruct HB as [->|HB]; [left; simpl; lia|right; lia].
Qed.

Lemma step_Busy env ev st : Inv st -> Busy st -> Busy (step env ev st).
Proof.
  intros HI HB. destruct ev as [req|jobId|k r chunk wr|r|r m|r cd sg]; simpl.
  - unfold submitRun.
    destruct (validateRequest _ _ _) as [script|cc m|]; [|done|done].
    pose proof (createJob_Inv env (script_id script)
                  (args_or_default (req_args req))
                  (resolveMode st script (req_mode req)) st HI) as Hc.
    destruct (createJob _ _ _ _ _) as [r st1] eqn:Hcreate.
    destruct Hc as [HI1 [-> [Hq [j [Hj Hjq]]]]].
    assert (Hc1 : runningCount st1 = runningCount st /\
                  maxConcurrent st1 = maxConcurrent st).
    { destruct (createJob_spec env (script_id script)
                  (args_or_default (req_args req))
                  (resolveMode st script (req_mode req)) st) as [j1 [Hcj _]].
      rewrite Hcj in Hcreate. injection Hcreate as <-.
      by rewrite persistJobs_runningCount, persistJobs_maxConcurrent. }
    destruct Hc1 as [Hrc1 Hmc1].
    assert (H2 : Busy (after (enqueue env (length (heap st)) script st1))).
    { unfold enqueue. apply drainQueue_Busy.
      - unfold_st.
        eapply InvP_enqueue; try done; [by left|].
        rewrite Hq. intros Hin.
        destruct (inv_queue_fresh _ _ _ _ _ HI _ Hin) as [j0 Hj0].
        apply lookup_lt_Some in Hj0. lia.
      - simpl. rewrite Hq, Hrc1, Hmc1, length_app. simpl.
        destruct HB as [->|HB]; [left; simpl; lia|right; lia]. }
    destruct (enqueue _ _ _ st1) as [st2|st2]; simpl in H2; [|exact H2].
    destruct (String.eqb _ "async"); [|exact H2].
    destruct (heap st2 !! _); exact H2.
  - unfold cancelJob.
    destruct (map_get jobId (jobs st)) as [r|]; [|done].
    destruct (heap st !! r) as [c|] eqn:Hr; [|done].
    destruct (is_terminal _); [done|].
    destruct (_ && _); simpl; [exact HB|].
    destruct (String.eqb _ _); simpl; [|exact HB]. apply Busy_persist. exact HB.
  - unfold onData.
    destruct (heap st !! r) as [[j [e|]]|] eqn:Hr; try done.
    destruct (writeLogChunk _ _ _ _ _ _ _) as [[j' fs'] [msg|]]; exact HB.
  - unfold onTimeout.
    destruct (heap st !! r) as [[j [e|]]|] eqn:Hr; try done.
    destruct (timerPending e); exact HB.
  - unfold onError.
    destruct (heap st !! r) as [[j [e|]]|] eqn:Hr; try done.
    set (e1 := with_previewBuf Stderr _ e).
    apply finishJob_Busy; [done| |exact HB].
    eapply Inv_touch_exec; done.
  - unfold onClose.
    destruct (heap st !! r) as [[j [e|]]|] eqn:Hr; try done.
    pose proof (closeDecision_status (timedOut e) (cancelRequested j) cd sg).
    destruct (closeDecision _ _ _ _). by apply finishJob_Busy.
Qed.

Lemma reachable_Busy config st : reachable config st -> Busy st.
Proof.
  induction 1 as [t disk logs|st env ev Hreach IH].
  - left. unfold newScriptRunner, loadJobsFromDisk. simpl.
    destruct disk as [| | |parsed]; try done.
    match goal with |- queue (fold_left _ _ ?x) = [] =>
      assert (H0 : queue x = []) by done; revert H0; generalize x end.
    induction parsed as [|e parsed IH]; intros st Hq; simpl; [done|].
    apply IH. destruct e as [|r]; simpl; [done|]. by destruct (truthy_str _).
  - apply step_Busy; [by eapply reachable_Inv|done].
Qed.

(** X12. No job waits while a slot is free: between two events the queue is
    empty or the counter of running jobs has reached [maxConcurrent] (and
    is equal to it, when [maxConcurrent] is not negative). *)
Theorem no_job_waits_for_a_free_slot config st :
  reachable config st ->
  queue st <> [] ->
  maxConcurrent st <= runningCount st /\
  (0 <= maxConcurrent st -> runningCount st = maxConcurrent st).
Proof.
  intros Hreach Hq.
  destruct (reachable_Busy _ _ Hreach) as [?|Hb]; [done|].
  split; [done|]. intros Hmc.
  pose proof (inv_count_le _ _ _ _ _ (reachable_Inv _ _ Hreach) Hmc). lia.
Qed.

(** ** The order of the queue *)

Lemma executeJob_suffix drain env r s st :
  (forall x, queue (after (drain x)) `suffix_of` queue x) ->
  queue (after (executeJob drain env r s st)) `suffix_of` queue st.
Proof.
  intros Hd. unfold executeJob.
  set (st3 := persistJobs env _).
  assert (Hq3 : queue st3 = queue st).
  { subst st3. by rewrite persistJobs_queue, upd_job_queue. }
  clearbody st3.
  destruct (heap st3 !! r) as [c|]; [|by simpl; rewrite Hq3].
  destruct (mkdir_ok env r); simpl; [|by rewrite Hq3].
  destruct (open_logs env r) as [|m|m]; simpl.
  - destruct (spawn_ok env r); simpl; by rewrite Hq3.
  - etrans; [apply Hd|].
    by rewrite persistJobs_queue; simpl; rewrite upd_job_queue, Hq3.
  - etrans; [apply Hd|].
    by rewrite persistJobs_queue; simpl; rewrite upd_job_queue; simpl; rewrite Hq3.
Qed.

Lemma drainQueue_loop_suffix fuel env st :
  queue (after (drainQueue_loop fuel env st)) `suffix_of` queue st.
Proof.
  revert st. induction fuel as [|fuel IH]; intros st; simpl; [done|].
  destruct (runningCount st <? maxConcurrent st); [|done].
  destruct (queue st) as [|[r s] rest] eqn:Hq; [by simpl; rewrite Hq|].
  simpl. destruct (heap st !! r) as [c|]; [|by apply suffix_cons_r].
  apply suffix_cons_r.
  destruct (cancelRequested (job c)).
  - etrans; [apply IH|].
    by rewrite persistJobs_queue, upd_job_queue.
  - pose proof (executeJob_suffix (drainQueue_loop fuel env) env r s
                  (with_queue rest st) IH) as HE.
    destruct (executeJob _ _ _ _ _) as [st2|st2]; simpl in HE; [|done].
    etrans; [apply IH|done].
Qed.

Lemma finishJob_suffix env r s c st :
  queue (after (finishJob (drainQueue env) env r s c st)) `suffix_of` queue st.
Proof.
  unfold finishJob.
  destruct (heap st !! r) as [[j [e|]]|] eqn:Hr; try done.
  destruct (finished e); [done|].
  etrans; [apply drainQueue_loop_suffix|]. by rewrite persistJobs_queue.
Qed.

(** X13. The queue is first in, first out: an event takes jobs off the head
    of the queue and nowhere else, never reorders it, and only a submit
    adds to it, one job, at the tail. *)
Theorem queue_is_fifo env ev st :
  exists new,
    queue (step env ev st) `suffix_of` (queue st ++ new) /\
    (length new <= 1)%nat /\
    (forall x, x ∈ new -> x.1 = length (heap st) /\
                         exists req, ev = EvSubmit req).
Proof.
  destruct ev as [req|jobId|k r chunk wr|r|r m|r cd sg]; simpl.
  - unfold submitRun.
    destruct (validateRequest _ _ _) as [script|cc m|].
    2,3: exists []; rewrite app_nil_r; split; [done|]; split; [simpl; lia|];
         by intros x ?%not_elem_of_nil.
    destruct (createJob_spec env (script_id script)
                (args_or_default (req_args req))
                (resolveMode st script (req_mode req)) st) as [j [-> _]].
    exists [(length (heap st), script)].
    split; [|split; [simpl; lia|]].
    2:{ intros x ->%list_elem_of_singleton. eauto. }
    set (st1 := persistJobs env _).
    assert (H2 : queue (after (enqueue env (length (heap st)) script st1))
                 `suffix_of` (queue st ++ [(length (heap st), script)])).
    { unfold enqueue. etrans; [apply drainQueue_loop_suffix|].
      subst st1. simpl. by rewrite persistJobs_queue. }
    destruct (enqueue _ _ _ st1) as [st2|st2]; simpl in H2; [|done].
    destruct (String.eqb _ "async"); [|done].
    by destruct (heap _ !! length (heap st)).
  - exists []. rewrite app_nil_r. split; [|split; [simpl; lia|by intros x ?%not_elem_of_nil]].
    unfold cancelJob.
    destruct (map_get jobId (jobs st)) as [r|]; [|done].
    destruct (heap st !! r) as [c|] eqn:Hr; [|done].
    destruct (is_terminal _); [done|].
    destruct (_ && _); simpl; [done|].
    destruct (String.eqb _ _); simpl; [|done]. by rewrite persistJobs_queue.
  - exists []. rewrite app_nil_r. split; [|split; [simpl; lia|by intros x ?%not_elem_of_nil]].
    unfold onData.
    destruct (heap st !! r) as [[j [e|]]|] eqn:Hr; try done.
    by destruct (writeLogChunk _ _ _ _ _ _ _) as [[j' fs'] [msg|]].
  - exists []. rewrite app_nil_r. split; [|split; [simpl; lia|by intros x ?%not_elem_of_nil]].
    unfold onTimeout.
    destruct (heap st !! r) as [[j [e|]]|] eqn:Hr; try done.
    by destruct (timerPending e).
  - exists []. rewrite app_nil_r. split; [|split; [simpl; lia|by intros x ?%not_elem_of_nil]].
    unfold onError.
    destruct (heap st !! r) as [[j [e|]]|] eqn:Hr; try done.
    etrans; [apply finishJob_suffix|]. done.
  - exists []. rewrite app_nil_r. split; [|split; [simpl; lia|by intros x ?%not_elem_of_nil]].
    unfold onClose.
    destruct (heap st !! r) as [[j [e|]]|] eqn:Hr; try done.
    destruct (closeDecision _ _ _ _). apply finishJob_suffix.
Qed.

End Slots.

(** ** The end of a child *)

Section Completion.

Context {node : NodeRuntime}.

Lemma Started_insert h r c' :
  (forall r1 c, r1 <> r -> h !! r1 = Some c ->
                status (job c) = STATUS_RUNNING -> is_Some (exec c)) ->
  (status (job c') = STATUS_RUNNING -> is_Some (exec c')) ->
  Started (<[r := c']> h).
Proof.
  intros Hold Hnew r1 c Hc Hs.
  apply list_lookup_insert_Some in Hc as [(<- & <- & _)|[Hne Hc]]; eauto.
Qed.

Lemma Started_upd_job r f st :
  (forall r1 c, r1 <> r -> heap st !! r1 = Some c ->
                status (job c) = STATUS_RUNNING -> is_Some (exec c)) ->
  (forall j, status (f j) <> STATUS_RUNNING) ->
  Started (heap (upd_job r f st)).
Proof.
  intros Hold Hf. unfold upd_job.
  destruct (heap st !! r) as [c|] eqn:Hr.
  - simpl. apply Started_insert; [exact Hold|]. simpl. intros Hs.
    destruct (Hf _ Hs).
  - intros r1 c Hc Hs. apply (Hold r1 c); [|done|done]. intros ->. congruence.
Qed.

Lemma Started_alloc h j :
  Started h -> status j <> STATUS_RUNNING ->
  Started (h ++ [ {| job := j; exec := None |} ]).
Proof.
  intros HS Hj r c Hc Hs.
  apply lookup_app_Some in Hc as [Hc|[Hge Hc]]; [eauto|].
  apply list_lookup_singleton_Some in Hc as [_ <-]. done.
Qed.

(** An [executeJob] that returns has given the job a child, or has ended
    it. *)
Lemma executeJob_Started drain env r s st st' :
  (forall x x', Started (heap x) -> drain x = Returns x' -> Started (heap x')) ->
  (forall r1 c, r1 <> r -> heap st !! r1 = Some c ->
                status (job c) = STATUS_RUNNING -> is_Some (exec c)) ->
  executeJob drain env r s st = Returns st' -> Started (heap st').
Proof.
  intros Hd Hold. unfold executeJob.
  set (st3 := persistJobs env _).
  assert (H3 : forall r1 c, r1 <> r -> heap st3 !! r1 = Some c ->
                 status (job c) = STATUS_RUNNING -> is_Some (exec c)).
  { intros r1 c Hne. subst st3. rewrite persistJobs_heap.
    rewrite (proj1 (upd_job_frame r1 r _ _ Hne)). simpl. by apply Hold. }
  clearbody st3.
  destruct (heap st3 !! r) as [c|] eqn:Hr.
  2:{ intros [= <-]. intros r1 c Hc Hs. apply (H3 r1 c); [|done|done].
      intros ->. congruence. }
  destruct (mkdir_ok env r); simpl; [|done].
  assert (Hfail : forall f z x',
    (forall j, status (f j) <> STATUS_RUNNING) -> heap z = heap st3 ->
    drain (persistJobs env
             (with_runningCount (runningCount (upd_job r f z) - 1) (upd_job r f z)))
    = Returns x' ->
    Started (heap x')).
  { intros f z x' Hf Hz. apply Hd. rewrite persistJobs_heap.
    change (heap (with_runningCount ?a ?x)) with (heap x).
    apply Started_upd_job; [|done]. intros r1 c1 Hne. rewrite Hz. by apply H3. }
  destruct (open_logs env r) as [|m|m].
  - destruct (spawn_ok env r); [|done]. intros [= <-]. simpl.
    apply Started_insert; [done|]. simpl. eauto.
  - by apply Hfail.
  - by apply Hfail.
Qed.

Lemma drainQueue_loop_Started fuel env st st' :
  Started (heap st) -> drainQueue_loop fuel env st = Returns st' ->
  Started (heap st').
Proof.
  revert st st'. induction fuel as [|fuel IH]; intros st st' HS; simpl.
  { by intros [= <-]. }
  destruct (runningCount st <? maxConcurrent st); [|by intros [= <-]].
  destruct (queue st) as [|[r s] rest]; [by intros [= <-]|].
  simpl. destruct (heap st !! r) as [c|] eqn:Hr; [|by intros [= <-]].
  destruct (cancelRequested (job c)).
  - apply IH. rewrite persistJobs_heap. apply Started_upd_job; [|done].
    intros r1 c1 _. apply HS.
  - destruct (executeJob _ _ _ _ _) as [st2|st2] eqn:HE; [|done].
    apply IH. eapply executeJob_Started; [|..|exact HE].
    + intros x x'. apply IH.
    + intros r1 c1 _. apply HS.
Qed.

Lemma finishJob_Started env r s c st st' :
  Started (heap st) ->
  finishJob (drainQueue env) env r s c st = Returns st' -> Started (heap st').
Proof.
  intros HS. unfold finishJob.
  destruct (heap st !! r) as [[j [e|]]|] eqn:Hr; try by intros [= <-].
  destruct (finished e); [by intros [= <-]|].
  apply drainQueue_loop_Started. rewrite persistJobs_heap. simpl.
  apply Started_insert; [|simpl; eauto]. intros r1 c1 _. apply HS.
Qed.

(** A callback that no exception leaves keeps every running job with a
    child. *)
Lemma step_Started env ev st :
  Started (heap st) -> throws env ev st = false ->
  Started (heap (step env ev st)).
Proof.
  intros HS. destruct ev as [req|jobId|k r chunk wr|r|r m|r cd sg]; simpl.
  - unfold submitRun.
    destruct (validateRequest _ _ _) as [script|cc m|]; [|done|done].
    destruct (createJob_spec env (script_id script)
                (args_or_default (req_args req))
                (resolveMode st script (req_mode req)) st)
      as [j [-> (_ & _ & _ & _ & Hst & _)]].
    set (st1 := persistJobs env _).
    assert (H1 : Started (heap (with_queue (queue st1 ++ [(length (heap st), script)])
                                  st1))).
    { subst st1. simpl. rewrite persistJobs_heap. simpl.
      apply Started_alloc; [done|]. by rewrite Hst. }
    unfold enqueue.
    destruct (drainQueue env _) as [st2|st2] eqn:HE; [|done].
    intros _.
    assert (H2 : Started (heap st2)) by (eapply drainQueue_loop_Started; eauto).
    destruct (String.eqb _ "async"); [|done].
    by destruct (heap st2 !! length (heap st)).
  - intros _. unfold cancelJob.
    destruct (map_get jobId (jobs st)) as [r|]; [|done].
    destruct (heap st !! r) as [c|] eqn:Hr; [|done].
    destruct (is_terminal _); [done|].
    destruct (_ && _); simpl.
    { apply Started_insert; [intros r1 c1 _; apply HS|]. simpl. intros Hs0. by apply (HS r c). }
    destruct (String.eqb _ _); simpl.
    + rewrite persistJobs_heap. simpl.
      apply Started_insert; [intros r1 c1 _; apply HS|done].
    + apply Started_insert; [intros r1 c1 _; apply HS|]. simpl. intros Hs0. by apply (HS r c).
  - intros _. unfold onData.
    destruct (heap st !! r) as [[j [e|]]|] eqn:Hr; try done.
    destruct (writeLogChunk _ _ _ _ _ _ _) as [[j' fs'] [msg|]]; simpl;
      (apply Started_insert; [intros r1 c1 _; apply HS|simpl; eauto]).
  - intros _. unfold onTimeout.
    destruct (heap st !! r) as [[j [e|]]|] eqn:Hr; try done.
    destruct (timerPending e); [|done]. simpl.
    apply Started_insert; [intros r1 c1 _; apply HS|simpl; eauto].
  - unfold onError.
    destruct (heap st !! r) as [[j [e|]]|] eqn:Hr; try done.
    destruct (finishJob _ _ _ _ _ _) as [st2|st2] eqn:HF; [|done].
    intros _. simpl. eapply finishJob_Started; [|exact HF]. simpl.
    apply Started_insert; [intros r1 c1 _; apply HS|simpl; eauto].
  - unfold onClose.
    destruct (heap st !! r) as [[j [e|]]|] eqn:Hr; try done.
    destruct (closeDecision _ _ _ _) as [s0 c0].
    destruct (finishJob _ _ _ _ _ _) as [st2|st2] eqn:HF; [|done].
    intros _. simpl. by eapply finishJob_Started.
Qed.

Lemma quietly_reachable config st :
  reachable_quietly config st -> reachable config st.
Proof. induction 1; [apply reachable_new|by apply reachable_step]. Qed.

Lemma quietly_Started config st :
  reachable_quietly config st -> Started (heap st).
Proof.
  induction 1 as [t disk logs|st env ev _ IH Hq]; [|by apply step_Started].
  unfold newScriptRunner, loadJobsFromDisk. simpl.
  destruct disk as [| | |parsed]; try (by intros r c Hc).
  match goal with |- Started (heap (fold_left _ _ ?x)) =>
    assert (H0 : Started (heap x)) by (by intros r c Hc);
    revert H0; generalize x end.
  induction parsed as [|e parsed IH]; intros st HS; simpl; [done|].
  apply IH. destruct e as [|r]; simpl; [done|].
  destruct (truthy_str _); simpl; [|done].
  apply Started_alloc; [done|]. apply recover_not_running.
Qed.

(** X10. A job object that has a child is [running] exactly until the end
    of the child has been handled.  As long as no callback was left by an
    exception, every running job has a child: a job object is then
    [running] exactly when it has a child whose end has not been handled
    yet. *)
Theorem running_iff_child_alive config st r c :
  reachable config st ->
  heap st !! r = Some c ->
  (forall e, exec c = Some e ->
     (status (job c) = STATUS_RUNNING <-> finished e = false)) /\
  (reachable_quietly config st ->
   (status (job c) = STATUS_RUNNING <->
    exists e, exec c = Some e /\ finished e = false)).
Proof.
  intros Hreach Hc. pose proof (reachable_Inv _ _ Hreach) as HI.
  assert (Hlive : forall e, exec c = Some e -> finished e = false ->
                            status (job c) = STATUS_RUNNING).
  { intros e He Hf. destruct c as [j ex]. simpl in He. subst ex.
    apply (inv_live _ _ _ _ _ HI r j e Hc Hf). }
  split.
  - intros e He. split; [|by apply Hlive].
    intros Hrun. by apply (inv_running_live _ _ _ _ _ HI r c e Hc Hrun).
  - intros Hquiet. split.
    + intros Hrun.
      destruct (quietly_Started _ _ Hquiet r c Hc Hrun) as [e He].
      exists e. split; [done|].
      by apply (inv_running_live _ _ _ _ _ HI r c e Hc Hrun).
    + intros [e [He Hf]]. by apply (Hlive e).
Qed.

(** What [finishJob] leaves at [r] when the job has not finished yet. *)
Lemma finishJob_done env r s c st j e :
  Inv st ->
  heap st !! r = Some {| job := j; exec := Some e |} ->
  finished e = false ->
  heap (after (finishJob (drainQueue env) env r s c st)) !! r
  = Some {| job :=
              set_durationMs (Some (now env - startedMs e))
                (set_endedAt (Some (now env))
                   (set_code (Some c)
                      (set_status s
                         (set_stderrPreview (utf8_decode (stderrPreviewBuf e))
                            (set_stdoutPreview (utf8_decode (stdoutPreviewBuf e))
                               j)))));
            exec :=
              Some {| startedMs := startedMs e; stdoutFd := None; stderrFd := None;
                      stdoutPreviewBuf := stdoutPreviewBuf e;
                      stderrPreviewBuf := stderrPreviewBuf e;
                      timerPending := false; timedOut := timedOut e;
                      finished := true |} |}.
Proof.
  intros HI Hr Hf. unfold finishJob. rewrite Hr, Hf.
  assert (Hlt : (r < length (heap st))%nat) by (by eapply lookup_lt_Some).
  match goal with |- context [drainQueue env ?x] =>
    destruct (drainQueue_frames env r x) as [Hh _] end.
  - rewrite persistJobs_queue. simpl. intros Hin.
    destruct (inv_queue_fresh _ _ _ _ _ HI r Hin) as [j0 Hj0]. congruence.
  - rewrite Hh, persistJobs_heap. simpl.
    by rewrite list_lookup_insert_eq.
Qed.

(** X15. [cancelJob] on a running job answers with the job still
    [running], marks the request on the job and touches nothing else.
    When the job has a child, it asks for SIGTERM to that child only, and
    when the child then exits, in whatever way, the job ends [canceled]
    with code -1 (or [timed_out], had its timer fired before).  When the
    job has no child (an exception left the [executeJob] that started it)
    no signal is asked for. *)
Theorem cancel_of_a_running_job config st env1 env2 jobId r c exitCode signal :
  reachable config st ->
  map_get jobId (jobs st) = Some r ->
  heap st !! r = Some c ->
  status (job c) = STATUS_RUNNING ->
  let j1 := set_cancelRequested true (job c) in
  cancelJob env1 jobId st
  = (ApiOk (serializeJob j1),
     match exec c with Some _ => [r] | None => [] end,
     upd_cell r {| job := j1; exec := exec c |} st) /\
  status j1 = STATUS_RUNNING /\
  forall e, exec c = Some e ->
    exists j',
      job <$> heap (after (onClose env2 r exitCode signal
                             (cancelJob env1 jobId st).2)) !! r
      = Some j' /\
      status j' = (if timedOut e then STATUS_TIMED_OUT else STATUS_CANCELED) /\
      code j' = Some (-1) /\ endedAt j' = Some (now env2).
Proof.
  intros Hreach Hm Hc Hrun j1.
  pose proof (reachable_Inv _ _ Hreach) as HI.
  destruct c as [j ex]. simpl in *.
  pose proof (cancelJob_Inv env1 jobId st HI) as HI1.
  assert (Hcancel : cancelJob env1 jobId st
    = (ApiOk (serializeJob j1),
       match ex with Some _ => [r] | None => [] end,
       upd_cell r {| job := j1; exec := ex |} st)).
  { unfold cancelJob. rewrite Hm, Hc. simpl. rewrite Hrun. simpl.
    by destruct ex. }
  split; [done|]. split; [done|].
  intros e ->.
  pose proof (inv_running_live _ _ _ _ _ HI r _ e Hc Hrun eq_refl) as Hf.
  rewrite Hcancel in *. simpl in HI1.
  assert (Hlt : (r < length (heap st))%nat) by (by eapply lookup_lt_Some).
  assert (Hr1 : heap (upd_cell r {| job := j1; exec := Some e |} st) !! r
                = Some {| job := j1; exec := Some e |}).
  { simpl. by rewrite list_lookup_insert_eq. }
  simpl. unfold onClose. rewrite Hr1. unfold closeDecision. simpl.
  destruct (timedOut e);
    rewrite (finishJob_done _ _ _ _ _ _ _ HI1 Hr1 Hf); simpl;
    eexists; (split; [reflexivity|]); simpl; done.
Qed.

(** X16. When the timer of a running job fires the job is marked; when the
    child then exits, in whatever way and whether or not a cancel was
    requested, the job ends [timed_out] with code -1.  A timer that is not
    pending (the script has no timeout, or the job has ended) does
    nothing. *)
Theorem timeout_of_a_running_job config st env r j e exitCode signal :
  reachable config st ->
  heap st !! r = Some {| job := j; exec := Some e |} ->
  finished e = false ->
  (timerPending e = false -> onTimeout r st = st) /\
  (timerPending e = true ->
   exists j',
     job <$> heap (after (onClose env r exitCode signal (onTimeout r st))) !! r
     = Some j' /\
     status j' = STATUS_TIMED_OUT /\ code j' = Some (-1) /\
     endedAt j' = Some (now env)).
Proof.
  intros Hreach Hc Hf.
  pose proof (reachable_Inv _ _ Hreach) as HI.
  pose proof (onTimeout_Inv r st HI) as HI1.
  unfold onTimeout in *. rewrite Hc in *. split.
  - by intros ->.
  - intros Hp. rewrite Hp in *.
    assert (Hlt : (r < length (heap st))%nat) by (by eapply lookup_lt_Some).
    eexists. unfold onClose. simpl.
    rewrite list_lookup_insert_eq by done. simpl.
    erewrite finishJob_done; [| exact HI1 | simpl; by rewrite list_lookup_insert_eq | done].
    simpl. split; [reflexivity|]. simpl. done.
Qed.

Lemma completes_finished config st env r ev :
  reachable config st -> completes r ev ->
  forall j e, heap (step env ev st) !! r = Some {| job := j; exec := Some e |} ->
              finished e = true.
Proof.
  intros Hreach Hev j' e' Hc'.
  pose proof (reachable_Inv _ _ Hreach) as HI.
  assert (Hany : forall s c x jx ex,
    Inv x -> heap x !! r = Some {| job := jx; exec := Some ex |} ->
    heap (after (finishJob (drainQueue env) env r s c x)) !! r
      = Some {| job := j'; exec := Some e' |} ->
    finished e' = true).
  { intros s c x jx ex HIx Hx Hfin.
    destruct (finished ex) eqn:Hf.
    - unfold finishJob in Hfin. rewrite Hx, Hf in Hfin. simpl in Hfin. congruence.
    - rewrite (finishJob_done _ _ _ _ _ _ _ HIx Hx Hf) in Hfin.
      by injection Hfin as _ <-. }
  destruct ev as [| | | |r' m|r' cd sg]; try done; simpl in Hev; subst r';
    simpl in Hc'.
  - unfold onError in Hc'.
    destruct (heap st !! r) as [[j [e|]]|] eqn:Hr; simpl in Hc'; try congruence.
    assert (Hlt : (r < length (heap st))%nat) by (by eapply lookup_lt_Some).
    eapply Hany; [| |exact Hc'].
    + eapply Inv_touch_exec; done.
    + simpl. by rewrite list_lookup_insert_eq.
  - unfold onClose in Hc'.
    destruct (heap st !! r) as [[j [e|]]|] eqn:Hr; simpl in Hc'; try congruence.
    destruct (closeDecision _ _ _ _). by eapply Hany.
Qed.

(** X17. The end of a child is handled once: after the [close] or the
    [error] of a child, a second such event for the same child changes no
    job, and neither the counter of running jobs, the queue, the job store
    file nor the log files. *)
Theorem second_completion_is_ignored config st env1 env2 r ev1 ev2 :
  reachable config st ->
  completes r ev1 -> completes r ev2 ->
  let st1 := step env1 ev1 st in
  let st2 := step env2 ev2 st1 in
  job <$> heap st2 = job <$> heap st1 /\
  runningCount st2 = runningCount st1 /\ queue st2 = queue st1 /\
  store st2 = store st1 /\ files st2 = files st1 /\ jobs st2 = jobs st1.
Proof.
  intros Hreach H1 H2 st1 st2.
  pose proof (completes_finished config st env1 r ev1 Hreach H1) as Hfin.
  fold st1 in Hfin. subst st2. clearbody st1.
  destruct ev2 as [| | | |r' m|r' cd sg]; try done; simpl in H2; subst r'; simpl.
  - unfold onError.
    destruct (heap st1 !! r) as [[j [e|]]|] eqn:Hr; try done.
    assert (Hlt : (r < length (heap st1))%nat) by (by eapply lookup_lt_Some).
    unfold finishJob. simpl. rewrite list_lookup_insert_eq by done. simpl.
    rewrite (Hfin j e eq_refl). simpl. repeat split.
    rewrite list_fmap_insert. simpl. apply list_insert_id.
    by rewrite list_lookup_fmap, Hr.
  - unfold onClose.
    destruct (heap st1 !! r) as [[j [e|]]|] eqn:Hr; try done.
    destruct (closeDecision _ _ _ _). unfold finishJob.
    by rewrite Hr, (Hfin j e eq_refl).
Qed.

End Completion.

(** ** Admission of a submitted job *)

Section Admission.

Context {node : NodeRuntime}.

Lemma drainQueue_nil env st : queue st = [] -> drainQueue env st = Returns st.
Proof.
  intros Hq. rewrite drainQueue_unfold, Hq. by destruct (_ <? _).
Qed.

Lemma drainQueue_full env st :
  maxConcurrent st <= runningCount st -> drainQueue env st = Returns st.
Proof.
  intros Hge. rewrite drainQueue_unfold.
  destruct (Z.ltb_spec (runningCount st) (maxConcurrent st)); [lia|done].
Qed.

Lemma persistJobs_files env st : files (persistJobs env st) = files st.
Proof. unfold persistJobs. by destruct (persist_ok env). Qed.

Lemma persistJobs_logsDir env st : logsDir (persistJobs env st) = logsDir st.
Proof. unfold persistJobs. by destruct (persist_ok env). Qed.

(** [drainQueue] with a free slot and one job waiting, whose log
    directory is there, whose log files open and whose child is spawned. *)
Lemma drainQueue_starts env x r script j0 :
  runningCount x < maxConcurrent x ->
  queue x = [(r, script)] ->
  heap x !! r = Some {| job := j0; exec := None |} ->
  cancelRequested j0 = false ->
  mkdir_ok env r = true ->
  open_logs env r = OpenOk ->
  spawn_ok env r = true ->
  let stdoutPath := path_join (logsDir x) (default "" (stdoutRef j0)) in
  let stderrPath := path_join (logsDir x) (default "" (stderrRef j0)) in
  exists y,
    drainQueue env x = Returns y /\
    heap y
    = <[r := {| job := set_startedAt (Some (now env))
                         (set_status STATUS_RUNNING j0);
                exec := Some {| startedMs := now env;
                                stdoutFd := Some stdoutPath;
                                stderrFd := Some stderrPath;
                                stdoutPreviewBuf := []; stderrPreviewBuf := [];
                                timerPending := 0 <? timeoutSec script;
                                timedOut := false; finished := false |} |}]>
        (heap x) /\
    queue y = [] /\ runningCount y = runningCount x + 1 /\ jobs y = jobs x /\
    files y = <[stderrPath := []]> (<[stdoutPath := []]> (files x)).
Proof.
  intros Hlt Hq Hr Hcr Hmk Hopen Hsp stdoutPath stderrPath.
  assert (Hlen : (r < length (heap x))%nat) by (by eapply lookup_lt_Some).
  rewrite drainQueue_unfold.
  apply Z.ltb_lt in Hlt. rewrite Hlt, Hq. cbv zeta.
  change (heap (with_queue [] x)) with (heap x). rewrite Hr.
  change (cancelRequested (job {| job := j0; exec := None |}))
    with (cancelRequested j0). rewrite Hcr.
  unfold executeJob.
  set (j2 := set_startedAt (Some (now env)) (set_status STATUS_RUNNING j0)).
  assert (Hst2 :
    upd_job r (fun j => set_startedAt (Some (now env)) (set_status STATUS_RUNNING j))
      (with_runningCount (runningCount (with_queue [] x) + 1) (with_queue [] x))
    = with_runningCount (runningCount x + 1)
        (upd_cell r {| job := j2; exec := None |} (with_queue [] x))).
  { unfold upd_job. simpl. rewrite Hr. done. }
  rewrite Hst2. clear Hst2.
  set (st3 := persistJobs env _).
  assert (Hh3 : heap st3 = <[r := {| job := j2; exec := None |}]> (heap x))
    by (subst st3; by rewrite persistJobs_heap).
  assert (Hq3 : queue st3 = []) by (subst st3; by rewrite persistJobs_queue).
  assert (Hj3 : jobs st3 = jobs x) by (subst st3; by rewrite persistJobs_jobs).
  assert (Hc3 : runningCount st3 = runningCount x + 1)
    by (subst st3; by rewrite persistJobs_runningCount).
  assert (Hf3 : files st3 = files x) by (subst st3; by rewrite persistJobs_files).
  assert (Hl3 : logsDir st3 = logsDir x)
    by (subst st3; by rewrite persistJobs_logsDir).
  assert (Hr3 : heap st3 !! r = Some {| job := j2; exec := None |})
    by (rewrite Hh3; by apply list_lookup_insert_eq).
  clearbody st3. rewrite Hr3, Hmk, Hopen, Hsp. cbv zeta. simpl negb. cbv iota.
  rewrite drainQueue_nil by (simpl; exact Hq3).
  eexists. split; [reflexivity|].
  simpl. rewrite Hh3, Hq3, Hj3, Hc3, Hf3, Hl3, list_insert_insert_eq.
  done.
Qed.

(** [drainQueue] with a free slot and one job waiting, when the log
    directory cannot be made or the child cannot be spawned: the
    exception leaves [drainQueue] with the job counted and [running]. *)
Lemma drainQueue_start_throws env x r script j0 :
  runningCount x < maxConcurrent x ->
  queue x = [(r, script)] ->
  heap x !! r = Some {| job := j0; exec := None |} ->
  cancelRequested j0 = false ->
  mkdir_ok env r = false \/
  (mkdir_ok env r = true /\ open_logs env r = OpenOk /\ spawn_ok env r = false) ->
  exists y,
    drainQueue env x = Throws y /\
    heap y
    = <[r := {| job := set_startedAt (Some (now env))
                         (set_status STATUS_RUNNING j0);
                exec := None |}]> (heap x) /\
    queue y = [] /\ runningCount y = runningCount x + 1 /\ jobs y = jobs x.
Proof.
  intros Hlt Hq Hr Hcr Hthrow.
  assert (Hlen : (r < length (heap x))%nat) by (by eapply lookup_lt_Some).
  rewrite drainQueue_unfold.
  apply Z.ltb_lt in Hlt. rewrite Hlt, Hq. cbv zeta.
  change (heap (with_queue [] x)) with (heap x). rewrite Hr.
  change (cancelRequested (job {| job := j0; exec := None |}))
    with (cancelRequested j0). rewrite Hcr.
  unfold executeJob.
  set (j2 := set_startedAt (Some (now env)) (set_status STATUS_RUNNING j0)).
  assert (Hst2 :
    upd_job r (fun j => set_startedAt (Some (now env)) (set_status STATUS_RUNNING j))
      (with_runningCount (runningCount (with_queue [] x) + 1) (with_queue [] x))
    = with_runningCount (runningCount x + 1)
        (upd_cell r {| job := j2; exec := None |} (with_queue [] x))).
  { unfold upd_job. simpl. rewrite Hr. done. }
  rewrite Hst2. clear Hst2.
  set (st3 := persistJobs env _).
  assert (Hh3 : heap st3 = <[r := {| job := j2; exec := None |}]> (heap x))
    by (subst st3; by rewrite persistJobs_heap).
  assert (Hq3 : queue st3 = []) by (subst st3; by rewrite persistJobs_queue).
  assert (Hj3 : jobs st3 = jobs x) by (subst st3; by rewrite persistJobs_jobs).
  assert (Hc3 : runningCount st3 = runningCount x + 1)
    by (subst st3; by rewrite persistJobs_runningCount).
  assert (Hr3 : heap st3 !! r = Some {| job := j2; exec := None |})
    by (rewrite Hh3; by apply list_lookup_insert_eq).
  clearbody st3. rewrite Hr3. cbv zeta.
  destruct Hthrow as [Hmk|(Hmk & Hopen & Hsp)].
  - rewrite Hmk. simpl. eauto 10.
  - rewrite Hmk, Hopen, Hsp. simpl. eauto 10.
Qed.

(** [drainQueue] with a free slot and one job waiting, whose log files do
    not open. *)
Lemma drainQueue_open_fails env x r script j0 m :
  runningCount x < maxConcurrent x ->
  queue x = [(r, script)] ->
  heap x !! r = Some {| job := j0; exec := None |} ->
  cancelRequested j0 = false ->
  mkdir_ok env r = true ->
  open_logs env r = OpenStdoutFails m \/ open_logs env r = OpenStderrFails m ->
  exists y,
    drainQueue env x = Returns y /\
    heap y
    = <[r := {| job :=
                  set_stderrPreview ("failed to open log files: " +:+ m)
                    (set_durationMs (Some 0)
                       (set_endedAt (Some (now env))
                          (set_code (Some (-1))
                             (set_status STATUS_FAILED
                                (set_startedAt (Some (now env)) j0)))));
                exec := None |}]> (heap x) /\
    queue y = [] /\ runningCount y = runningCount x /\ jobs y = jobs x.
Proof.
  intros Hlt Hq Hr Hcr Hmk Hopen.
  assert (Hlen : (r < length (heap x))%nat) by (by eapply lookup_lt_Some).
  rewrite drainQueue_unfold.
  apply Z.ltb_lt in Hlt. rewrite Hlt, Hq. cbv zeta.
  change (heap (with_queue [] x)) with (heap x). rewrite Hr.
  change (cancelRequested (job {| job := j0; exec := None |}))
    with (cancelRequested j0). rewrite Hcr.
  unfold executeJob.
  set (j2 := set_startedAt (Some (now env)) (set_status STATUS_RUNNING j0)).
  assert (Hst2 :
    upd_job r (fun j => set_startedAt (Some (now env)) (set_status STATUS_RUNNING j))
      (with_runningCount (runningCount (with_queue [] x) + 1) (with_queue [] x))
    = with_runningCount (runningCount x + 1)
        (upd_cell r {| job := j2; exec := None |} (with_queue [] x))).
  { unfold upd_job. simpl. rewrite Hr. done. }
  rewrite Hst2. clear Hst2.
  set (st3 := persistJobs env _).
  assert (Hh3 : heap st3 = <[r := {| job := j2; exec := None |}]> (heap x))
    by (subst st3; by rewrite persistJobs_heap).
  assert (Hq3 : queue st3 = []) by (subst st3; by rewrite persistJobs_queue).
  assert (Hj3 : jobs st3 = jobs x) by (subst st3; by rewrite persistJobs_jobs).
  assert (Hc3 : runningCount st3 = runningCount x + 1)
    by (subst st3; by rewrite persistJobs_runningCount).
  assert (Hr3 : heap st3 !! r = Some {| job := j2; exec := None |})
    by (rewrite Hh3; by apply list_lookup_insert_eq).
  clearbody st3. rewrite Hr3, Hmk. cbv zeta. simpl negb. cbv iota.
  assert (Hfail : forall fs,
    exists z,
      match
        drainQueue env (persistJobs env
          (with_runningCount
             (runningCount
                (upd_job r
                   (fun j =>
                      set_stderrPreview ("failed to open log files: " +:+ m)
                        (set_durationMs (Some (now env - now env))
                           (set_endedAt (Some (now env))
                              (set_code (Some (-1)) (set_status STATUS_FAILED j)))))
                   (with_files fs st3)) - 1)
             (upd_job r
                (fun j =>
                   set_stderrPreview ("failed to open log files: " +:+ m)
                     (set_durationMs (Some (now env - now env))
                        (set_endedAt (Some (now env))
                           (set_code (Some (-1)) (set_status STATUS_FAILED j)))))
                (with_files fs st3))))
      with
      | Returns st2 => drainQueue env st2
      | Throws st2 => Throws st2
      end = Returns z /\
      heap z
      = <[r := {| job :=
                    set_stderrPreview ("failed to open log files: " +:+ m)
                      (set_durationMs (Some 0)
                         (set_endedAt (Some (now env))
                            (set_code (Some (-1))
                               (set_status STATUS_FAILED
                                  (set_startedAt (Some (now env)) j0)))));
                  exec := None |}]> (heap x) /\
      queue z = [] /\ runningCount z = runningCount x /\ jobs z = jobs x).
  { intros fs.
    assert (Hu : forall f,
      upd_job r f (with_files fs st3)
      = upd_cell r {| job := f j2; exec := None |} (with_files fs st3)).
    { intros f. unfold upd_job. simpl. by rewrite Hr3. }
    rewrite !Hu.
    rewrite (drainQueue_nil env (persistJobs _ _))
      by (rewrite persistJobs_queue; exact Hq3).
    rewrite drainQueue_nil by (rewrite persistJobs_queue; exact Hq3).
    eexists. split; [reflexivity|].
    rewrite persistJobs_heap, persistJobs_queue, persistJobs_runningCount,
      persistJobs_jobs.
    simpl. rewrite Hh3, Hq3, Hj3, Hc3, list_insert_insert_eq.
    replace (now env - now env) with 0 by lia.
    repeat split; try done; lia. }
  destruct Hopen as [Hopen|Hopen]; rewrite Hopen.
  - specialize (Hfail (files st3)).
    assert (Hid : with_files (files st3) st3 = st3) by (by destruct st3).
    rewrite Hid in Hfail. exact Hfail.
  - apply Hfail.
Qed.

(** X3. A valid submit makes one job, named after the clock and the job
    counter, and enters it in the job map.  With no free slot the job is
    [queued] at the tail of the queue.  With a free slot it is started at
    once: it is [running] with a fresh executor; or [failed] with code -1
    when its log files cannot be opened, the slot being given back; or,
    when the log directory cannot be made or the child cannot be spawned,
    the exception leaves [submitRun] with the job [running], counted, and
    without a child.  A submit that returns answers with the job as it
    then is. *)
Theorem submit_admission config st env req script :
  reachable config st ->
  validateRequest st (req_scriptId req) (args_or_default (req_args req))
    = ValidOk script ->
  let r := length (heap st) in
  let id := "job_" +:+ pretty (now env) +:+ "_" +:+ pretty (r_seq st + 1) in
  let res := submitRun env req st in
  exists c,
    heap res.2 !! r = Some c /\
    getJob id res.2 = Some (serializeJob (job c)) /\
    jobId (job c) = id /\ scriptId (job c) = script_id script /\
    args (job c) = args_or_default (req_args req) /\
    mode (job c) = resolveMode st script (req_mode req) /\
    createdAt (job c) = Some (now env) /\
    admitted env script st res c.
Proof.
  intros Hreach Hvalid r id res.
  pose proof (reachable_Inv _ _ Hreach) as HI.
  pose proof (reachable_Busy _ _ Hreach) as HB.
  subst res. unfold submitRun. rewrite Hvalid.
  destruct (createJob_spec env (script_id script) (args_or_default (req_args req))
              (resolveMode st script (req_mode req)) st)
    as [j [-> (Hid & Hsid & Hargs & Hmode & Hst & Hcr & Hcreated & Hcode & Hend)]].
  fold r. fold id in Hid.
  set (st1 := persistJobs env _).
  assert (Hh1 : heap st1 = heap st ++ [ {| job := j; exec := None |} ])
    by (subst st1; by rewrite persistJobs_heap).
  assert (Hq1 : queue st1 = queue st) by (subst st1; by rewrite persistJobs_queue).
  assert (Hj1 : jobs st1 = map_set (jobId j) r (jobs st))
    by (subst st1; by rewrite persistJobs_jobs).
  assert (Hc1 : runningCount st1 = runningCount st)
    by (subst st1; by rewrite persistJobs_runningCount).
  assert (Hm1 : maxConcurrent st1 = maxConcurrent st)
    by (subst st1; by rewrite persistJobs_maxConcurrent).
  clearbody st1.
  assert (Hr1 : heap st1 !! r = Some {| job := j; exec := None |}).
  { rewrite Hh1, lookup_app_r by done. subst r. by rewrite Nat.sub_diag. }
  set (x := with_queue (queue st1 ++ [(r, script)]) st1).
  unfold enqueue. fold x.
  assert (Hlen : (r < length (heap x))%nat) by (by eapply lookup_lt_Some).
  assert (Hanswer : forall y c,
    heap y !! r = Some c -> mode (job c) = mode j ->
    (if String.eqb (resolveMode st script (req_mode req)) "async"
     then match heap y !! r with
          | Some c => (SubmitAsync (serializeJob (job c)), y)
          | None => (SubmitThrows, y)
          end
     else (SubmitSync r, y))
    = (if String.eqb (mode (job c)) "async"
       then SubmitAsync (serializeJob (job c)) else SubmitSync r, y)).
  { intros y c Hc Hmc. rewrite Hc, Hmc, Hmode. by destruct (String.eqb _ _). }
  assert (Hrest : forall (res : SubmitResult * Runner) c,
    heap res.2 !! r = Some c -> jobs res.2 = jobs st1 ->
    same_identity j (job c) -> admitted env script st res c ->
    heap res.2 !! r = Some c /\
    getJob id res.2 = Some (serializeJob (job c)) /\
    jobId (job c) = id /\ scriptId (job c) = script_id script /\
    args (job c) = args_or_default (req_args req) /\
    mode (job c) = resolveMode st script (req_mode req) /\
    createdAt (job c) = Some (now env) /\
    admitted env script st res c).
  { intros res c Hc Hjy (I1 & I2 & I3 & I4 & I5 & _) Hadm.
    split; [done|]. split.
    { unfold getJob. rewrite Hjy, Hj1, Hid, map_get_set_eq, Hc. done. }
    do 5 (split; [congruence|]). done. }
  destruct (Z.lt_ge_cases (runningCount st) (maxConcurrent st)) as [Hlt|Hge].
  - assert (Hq : queue st = []) by (destruct HB as [?|?]; [done|lia]).
    assert (Hqx : queue x = [(r, script)]) by (subst x; simpl; by rewrite Hq1, Hq).
    assert (Hltx : runningCount x < maxConcurrent x)
      by (subst x; simpl; lia).
    assert (Hcx : runningCount x = runningCount st) by (subst x; simpl; lia).
    destruct (mkdir_ok env r) eqn:Hmk.
    2:{ destruct (drainQueue_start_throws env x r script j Hltx Hqx Hr1 Hcr
                    (or_introl Hmk)) as (y & -> & Hh & Hqy & Hcy & Hjy).
        eexists. apply Hrest; simpl.
        - rewrite Hh. by apply list_lookup_insert_eq.
        - done.
        - unfold same_identity. simpl. tauto.
        - split; [intros; lia|]. intros _. split; [done|]. fold r.
          rewrite Hmk. simpl. unfold started_without_child. simpl.
          rewrite Hcy, Hcx. done. }
    destruct (open_logs env r) as [|m|m] eqn:Hopen.
    + destruct (spawn_ok env r) eqn:Hsp.
      * destruct (drainQueue_starts env x r script j Hltx Hqx Hr1 Hcr Hmk Hopen Hsp)
          as (y & -> & Hh & Hqy & Hcy & Hjy & _).
        assert (Hc : heap y !! r
                     = Some {| job := set_startedAt (Some (now env))
                                        (set_status STATUS_RUNNING j);
                               exec := Some {|
                                 startedMs := now env;
                                 stdoutFd := Some (path_join (logsDir x)
                                               (default "" (stdoutRef j)));
                                 stderrFd := Some (path_join (logsDir x)
                                               (default "" (stderrRef j)));
                                 stdoutPreviewBuf := []; stderrPreviewBuf := [];
                                 timerPending := 0 <? timeoutSec script;
                                 timedOut := false; finished := false |} |}).
        { rewrite Hh. by apply list_lookup_insert_eq. }
        rewrite (Hanswer y _ Hc eq_refl).
        eexists. apply Hrest; simpl; [exact Hc|done| |].
        -- unfold same_identity. simpl. tauto.
        -- split; [intros; lia|]. intros _. split; [done|]. fold r.
           rewrite Hmk, Hopen, Hsp. simpl. rewrite Hcy, Hcx. eauto 12.
      * destruct (drainQueue_start_throws env x r script j Hltx Hqx Hr1 Hcr
                    (or_intror (conj Hmk (conj Hopen Hsp))))
          as (y & -> & Hh & Hqy & Hcy & Hjy).
        eexists. apply Hrest; simpl.
        -- rewrite Hh. by apply list_lookup_insert_eq.
        -- done.
        -- unfold same_identity. simpl. tauto.
        -- split; [intros; lia|]. intros _. split; [done|]. fold r.
           rewrite Hmk, Hopen, Hsp. simpl. unfold started_without_child. simpl.
           rewrite Hcy, Hcx. done.
    + destruct (drainQueue_open_fails env x r script j m Hltx Hqx Hr1 Hcr Hmk
                  (or_introl Hopen)) as (y & -> & Hh & Hqy & Hcy & Hjy).
      assert (Hc : heap y !! r
                   = Some {| job :=
                       set_stderrPreview ("failed to open log files: " +:+ m)
                         (set_durationMs (Some 0)
                            (set_endedAt (Some (now env))
                               (set_code (Some (-1))
                                  (set_status STATUS_FAILED
                                     (set_startedAt (Some (now env)) j)))));
                             exec := None |}).
      { rewrite Hh. by apply list_lookup_insert_eq. }
      rewrite (Hanswer y _ Hc eq_refl).
      eexists. apply Hrest; simpl; [exact Hc|done| |].
      * unfold same_identity. simpl. tauto.
      * split; [intros; lia|]. intros _. split; [done|]. fold r.
        rewrite Hmk, Hopen. simpl. rewrite Hcy, Hcx. done.
    + destruct (drainQueue_open_fails env x r script j m Hltx Hqx Hr1 Hcr Hmk
                  (or_intror Hopen)) as (y & -> & Hh & Hqy & Hcy & Hjy).
      assert (Hc : heap y !! r
                   = Some {| job :=
                       set_stderrPreview ("failed to open log files: " +:+ m)
                         (set_durationMs (Some 0)
                            (set_endedAt (Some (now env))
                               (set_code (Some (-1))
                                  (set_status STATUS_FAILED
                                     (set_startedAt (Some (now env)) j)))));
                             exec := None |}).
      { rewrite Hh. by apply list_lookup_insert_eq. }
      rewrite (Hanswer y _ Hc eq_refl).
      eexists. apply Hrest; simpl; [exact Hc|done| |].
      * unfold same_identity. simpl. tauto.
      * split; [intros; lia|]. intros _. split; [done|]. fold r.
        rewrite Hmk, Hopen. simpl. rewrite Hcy, Hcx. done.
  - rewrite drainQueue_full by (subst x; simpl; lia).
    rewrite (Hanswer x _ Hr1 eq_refl).
    exists {| job := j; exec := None |}. apply Hrest; simpl; [done|done| |].
    + apply same_identity_refl.
    + split; [|intros; lia]. intros _. simpl. by rewrite Hq1, Hc1.
Qed.

End Admission.

(** ** Previews *)

Section Previews.

Context {node : NodeRuntime}.

Lemma finishJob_frames env r' s c st r :
  r <> r' -> r ∉ (queue st).*1 ->
  heap (after (finishJob (drainQueue env) env r' s c st)) !! r = heap st !! r.
Proof.
  intros Hne Hq. unfold finishJob.
  destruct (heap st !! r') as [[j [e|]]|] eqn:Hr'; try done.
  destruct (finished e); [done|].
  match goal with |- context [drainQueue env ?x] =>
    destruct (drainQueue_frames env r x) as [Hh _] end.
  - by rewrite persistJobs_queue.
  - rewrite Hh, persistJobs_heap. simpl. by rewrite list_lookup_insert_ne.
Qed.

Lemma submitRun_frames env req st r c :
  heap st !! r = Some c -> r ∉ (queue st).*1 ->
  heap (submitRun env req st).2 !! r = Some c.
Proof.
  intros Hc Hq. unfold submitRun.
  destruct (validateRequest _ _ _) as [script|cc m|]; [|done|done].
  destruct (createJob_spec env (script_id script)
              (args_or_default (req_args req))
              (resolveMode st script (req_mode req)) st) as [j [-> _]].
  set (st1 := persistJobs env _).
  assert (Hlt : (r < length (heap st))%nat) by (by eapply lookup_lt_Some).
  assert (H2 : heap (after (enqueue env (length (heap st)) script st1)) !! r
               = Some c).
  { unfold enqueue.
    match goal with |- context [drainQueue env ?x] =>
      destruct (drainQueue_frames env r x) as [Hh _] end.
    - subst st1. simpl. rewrite persistJobs_queue. simpl. rewrite fmap_app.
      intros [Hin|Hin]%elem_of_app; [done|].
      simpl in Hin. apply list_elem_of_singleton in Hin. lia.
    - rewrite Hh. subst st1. simpl. rewrite persistJobs_heap. simpl.
      by rewrite lookup_app_l. }
  destruct (enqueue _ _ _ st1) as [st2|st2]; simpl in H2; [|done].
  destruct (String.eqb _ "async"); [|done].
  by destruct (heap st2 !! length (heap st)).
Qed.

(** An event that is not addressed to the job object at [r] leaves it
    alone, when it does not wait in the queue. *)
Lemma step_frame env ev st r c :
  heap st !! r = Some c -> r ∉ (queue st).*1 ->
  match ev with
  | EvSubmit _ => True
  | EvCancel jobId => map_get jobId (jobs st) <> Some r
  | EvData _ r' _ _ | EvTimeout r' | EvError r' _ | EvClose r' _ _ => r' <> r
  end ->
  heap (step env ev st) !! r = Some c.
Proof.
  intros Hc Hq.
  destruct ev as [req|jobId|k r' chunk wr|r'|r' m|r' cd sg]; simpl; intros Hne.
  - by apply submitRun_frames.
  - unfold cancelJob.
    destruct (map_get jobId (jobs st)) as [r'|]; [|done].
    assert (r' <> r) by congruence.
    destruct (heap st !! r') as [c'|] eqn:Hr'; [|done].
    repeat case_match; simpl; rewrite ?persistJobs_heap; simpl;
      rewrite ?list_lookup_insert_ne; done.
  - unfold onData.
    destruct (heap st !! r') as [[j [e|]]|] eqn:Hr'; try done.
    destruct (writeLogChunk _ _ _ _ _ _ _) as [[j' fs'] [msg|]]; simpl;
      by rewrite list_lookup_insert_ne.
  - unfold onTimeout.
    destruct (heap st !! r') as [[j [e|]]|] eqn:Hr'; try done.
    destruct (timerPending e); [|done]. simpl. by rewrite list_lookup_insert_ne.
  - unfold onError.
    destruct (heap st !! r') as [[j [e|]]|] eqn:Hr'; try done.
    rewrite finishJob_frames by done. simpl. by rewrite list_lookup_insert_ne.
  - unfold onClose.
    destruct (heap st !! r') as [[j [e|]]|] eqn:Hr'; try done.
    destruct (closeDecision _ _ _ _). by rewrite finishJob_frames.
Qed.

Lemma step_previewMaxBytes env ev st :
  previewMaxBytes (step env ev st) = previewMaxBytes st.
Proof. destruct (step_old env ev st) as [(_ & _ & _ & _ & _ & _ & H) _]. done. Qed.

Lemma run_reachable config events st :
  reachable config st -> reachable config (run events st).
Proof.
  revert st. induction events as [|[env ev] events IH]; intros st Hr; [done|].
  apply IH. by apply reachable_step.
Qed.

(** What an event does to a job whose child has not ended: its [close]
    or [error] ends the job with the preview buffer as its stdout preview;
    a chunk of its stdout goes into the buffer; any other event leaves the
    buffer as it is. *)
Lemma step_running_job env ev st r j e :
  Inv st ->
  heap st !! r = Some {| job := j; exec := Some e |} ->
  finished e = false ->
  exists j' e',
    heap (step env ev st) !! r = Some {| job := j'; exec := Some e' |} /\
    (completes r ev ->
     finished e' = true /\
     stdoutPreview j' = utf8_decode (stdoutPreviewBuf e)) /\
    (~ completes r ev ->
     finished e' = false /\
     stdoutPreviewBuf e'
     = previewAfter (previewMaxBytes st) (stdoutPreviewBuf e)
         (stdout_until_end r [(env, ev)])).
Proof.
  intros HI Hr Hf.
  assert (Hlt : (r < length (heap st))%nat) by (by eapply lookup_lt_Some).
  assert (Hq : r ∉ (queue st).*1).
  { intros Hin. destruct (inv_queue_fresh _ _ _ _ _ HI r Hin) as [j0 Hj0].
    congruence. }
  assert (Hsame : forall st',
    heap st' !! r = Some {| job := j; exec := Some e |} ->
    ~ completes r ev -> stdout_until_end r [(env, ev)] = [] ->
    exists j' e',
      heap st' !! r = Some {| job := j'; exec := Some e' |} /\
      (completes r ev ->
       finished e' = true /\
       stdoutPreview j' = utf8_decode (stdoutPreviewBuf e)) /\
      (~ completes r ev ->
       finished e' = false /\
       stdoutPreviewBuf e'
       = previewAfter (previewMaxBytes st) (stdoutPreviewBuf e)
           (stdout_until_end r [(env, ev)]))).
  { intros st' Hst' Hn Hnil. exists j, e. split; [done|]. split; [done|].
    intros _. by rewrite Hnil. }
  destruct ev as [req|jobId|k r' chunk wr|r'|r' m|r' cd sg].
  - apply Hsame; [|by intros []|done].
    apply (step_frame env (EvSubmit req) st r _ Hr Hq I).
  - destruct (decide (map_get jobId (jobs st) = Some r)) as [Hm|Hm].
    2:{ apply Hsame; [|by intros []|done].
        by apply (step_frame env (EvCancel jobId) st r _ Hr Hq). }
    simpl. unfold cancelJob. rewrite Hm, Hr. simpl.
    exists (if is_terminal (status j) then j
            else if String.eqb (status j) STATUS_RUNNING then
                   set_cancelRequested true j
            else if String.eqb (status j) STATUS_QUEUED then
                   set_durationMs (Some 0)
                     (set_endedAt (Some (now env))
                        (set_code (Some (-1))
                           (set_status STATUS_CANCELED
                              (set_cancelRequested true j))))
            else set_cancelRequested true j), e.
    split; [|split; [by intros []|intros _; by split]].
    destruct (is_terminal (status j)); [done|].
    destruct (String.eqb (status j) STATUS_RUNNING); simpl.
    { by rewrite list_lookup_insert_eq. }
    destruct (String.eqb (status j) STATUS_QUEUED); simpl.
    + rewrite persistJobs_heap. simpl. by rewrite list_lookup_insert_eq.
    + by rewrite list_lookup_insert_eq.
  - destruct (decide (r' = r)) as [->|Hne].
    2:{ apply Hsame; [|by intros []|].
        - by apply (step_frame env (EvData k r' chunk wr) st r _ Hr Hq).
        - simpl. destruct k; [|done]. by rewrite (proj2 (Nat.eqb_neq r' r)). }
    simpl. unfold onData. rewrite Hr.
    destruct (writeLogChunk _ _ _ _ _ _ _) as [[j' fs'] [msg|]]; simpl;
      rewrite list_lookup_insert_eq by done;
      eexists _, _; (split; [reflexivity|]); (split; [by intros []|]);
      intros _; (split; [done|]);
      destruct k; simpl; rewrite ?Nat.eqb_refl; done.
  - destruct (decide (r' = r)) as [->|Hne].
    2:{ apply Hsame; [|by intros []|done].
        by apply (step_frame env (EvTimeout r') st r _ Hr Hq). }
    simpl. unfold onTimeout. rewrite Hr.
    destruct (timerPending e).
    + simpl. rewrite list_lookup_insert_eq by done.
      eexists _, _. split; [reflexivity|]. split; [by intros []|]. by intros _.
    + exists j, e. split; [done|]. split; [by intros []|]. by intros _.
  - destruct (decide (r' = r)) as [->|Hne].
    2:{ apply Hsame; [|simpl; congruence|].
        - by apply (step_frame env (EvError r' m) st r _ Hr Hq).
        - simpl. by rewrite (proj2 (Nat.eqb_neq r' r)). }
    simpl. unfold onError. rewrite Hr.
    set (e1 := with_previewBuf Stderr _ e).
    assert (HI1 : Inv (upd_cell r {| job := j; exec := Some e1 |} st))
      by (eapply Inv_touch_exec; done).
    rewrite (finishJob_done env r STATUS_FAILED (-1) _ j e1 HI1);
      [|simpl; by rewrite list_lookup_insert_eq|done].
    eexists _, _. split; [reflexivity|]. split; [|done]. intros _. by split.
  - destruct (decide (r' = r)) as [->|Hne].
    2:{ apply Hsame; [|simpl; congruence|].
        - by apply (step_frame env (EvClose r' cd sg) st r _ Hr Hq).
        - simpl. by rewrite (proj2 (Nat.eqb_neq r' r)). }
    simpl. unfold onClose. rewrite Hr.
    destruct (closeDecision _ _ _ _) as [s0 c0].
    rewrite (finishJob_done env r s0 c0 st j e HI Hr Hf).
    eexists _, _. split; [reflexivity|]. split; [|done]. intros _. by split.
Qed.

(** A job whose child has ended keeps its stdout preview. *)
Lemma step_finished_job env ev st r j e :
  Inv st ->
  heap st !! r = Some {| job := j; exec := Some e |} ->
  finished e = true ->
  exists j' e',
    heap (step env ev st) !! r = Some {| job := j'; exec := Some e' |} /\
    finished e' = true /\ stdoutPreview j' = stdoutPreview j.
Proof.
  intros HI Hr Hf.
  assert (Hlt : (r < length (heap st))%nat) by (by eapply lookup_lt_Some).
  assert (Hq : r ∉ (queue st).*1).
  { intros Hin. destruct (inv_queue_fresh _ _ _ _ _ HI r Hin) as [j0 Hj0].
    congruence. }
  destruct ev as [req|jobId|k r' chunk wr|r'|r' m|r' cd sg].
  - exists j, e. split; [|done].
    apply (step_frame env (EvSubmit req) st r _ Hr Hq I).
  - destruct (decide (map_get jobId (jobs st) = Some r)) as [Hm|Hm].
    2:{ exists j, e. split; [|done].
        by apply (step_frame env (EvCancel jobId) st r _ Hr Hq). }
    simpl. unfold cancelJob. rewrite Hm, Hr. simpl.
    destruct (is_terminal (status j)); [by exists j, e|].
    destruct (String.eqb (status j) STATUS_RUNNING); simpl.
    { rewrite list_lookup_insert_eq by done. by eexists _, _. }
    destruct (String.eqb (status j) STATUS_QUEUED); simpl.
    + rewrite persistJobs_heap. simpl. rewrite list_lookup_insert_eq by done.
      by eexists _, _.
    + rewrite list_lookup_insert_eq by done. by eexists _, _.
  - destruct (decide (r' = r)) as [->|Hne].
    2:{ exists j, e. split; [|done].
        by apply (step_frame env (EvData k r' chunk wr) st r _ Hr Hq). }
    simpl. unfold onData. rewrite Hr.
    match goal with
    | |- context [writeLogChunk ?a ?b ?c ?d ?e ?f ?g] =>
        pose proof (writeLogChunk_same_result a b c d e f g) as [Hs _];
        destruct (writeLogChunk a b c d e f g) as [[j' fs'] [msg|]]
    end; simpl in Hs; simpl; rewrite list_lookup_insert_eq by done;
      eexists _, _; (split; [reflexivity|]);
      (split; [by destruct k|]); unfold same_result in Hs; tauto.
  - destruct (decide (r' = r)) as [->|Hne].
    2:{ exists j, e. split; [|done].
        by apply (step_frame env (EvTimeout r') st r _ Hr Hq). }
    simpl. unfold onTimeout. rewrite Hr.
    destruct (timerPending e); [|by exists j, e].
    simpl. rewrite list_lookup_insert_eq by done. by eexists _, _.
  - destruct (decide (r' = r)) as [->|Hne].
    2:{ exists j, e. split; [|done].
        by apply (step_frame env (EvError r' m) st r _ Hr Hq). }
    simpl. unfold onError. rewrite Hr. unfold finishJob. simpl.
    rewrite list_lookup_insert_eq by done. simpl. rewrite Hf. simpl.
    rewrite list_lookup_insert_eq by done. by eexists _, _.
  - destruct (decide (r' = r)) as [->|Hne].
    2:{ exists j, e. split; [|done].
        by apply (step_frame env (EvClose r' cd sg) st r _ Hr Hq). }
    simpl. unfold onClose. rewrite Hr.
    destruct (closeDecision _ _ _ _) as [s0 c0]. unfold finishJob.
    rewrite Hr, Hf. simpl. by exists j, e.
Qed.

Lemma run_finished_job config events st r j e :
  reachable config st ->
  heap st !! r = Some {| job := j; exec := Some e |} ->
  finished e = true ->
  exists j' e',
    heap (run events st) !! r = Some {| job := j'; exec := Some e' |} /\
    finished e' = true /\ stdoutPreview j' = stdoutPreview j.
Proof.
  revert st j e. induction events as [|[env ev] events IH]; intros st j e Hre Hr Hf.
  { by exists j, e. }
  destruct (step_finished_job env ev st r j e (reachable_Inv _ _ Hre) Hr Hf)
    as (j1 & e1 & Hr1 & Hf1 & Hp1).
  destruct (IH (step env ev st) j1 e1 (reachable_step _ _ env ev Hre) Hr1 Hf1)
    as (j' & e' & Hr' & Hf' & Hp').
  exists j', e'. split; [done|]. split; [done|congruence].
Qed.

Lemma run_running_job config events st r j e seen :
  reachable config st ->
  heap st !! r = Some {| job := j; exec := Some e |} ->
  finished e = false ->
  stdoutPreviewBuf e = last_bytes (previewMaxBytes st) seen ->
  let out :=
    last_bytes (previewMaxBytes st) (seen ++ concat (stdout_until_end r events))
  in
  exists j' e',
    heap (run events st) !! r = Some {| job := j'; exec := Some e' |} /\
    (finished e' = true <-> Exists (fun ee => completes r ee.2) events) /\
    (finished e' = false -> stdoutPreviewBuf e' = out) /\
    (finished e' = true -> stdoutPreview j' = utf8_decode out).
Proof.
  revert st j e seen.
  induction events as [|[env ev] events IH]; intros st j e seen Hre Hr Hf Hb out.
  { exists j, e. split; [done|]. subst out. simpl. rewrite app_nil_r.
    split; [|split; [done|congruence]].
    split; [congruence|by intros ?%Exists_nil]. }
  destruct (step_running_job env ev st r j e (reachable_Inv _ _ Hre) Hr Hf)
    as (j1 & e1 & Hr1 & Hend & Hgo).
  pose proof (reachable_step _ _ env ev Hre) as Hre1.
  pose proof (step_previewMaxBytes env ev st) as Hm.
  change (run ((env, ev) :: events) st) with (run events (step env ev st)).
  assert (Hdec : completes r ev \/ ~ completes r ev).
  { destruct ev as [| | | |r' ?|r' ? ?]; simpl; try tauto;
      destruct (decide (r' = r)); tauto. }
  destruct Hdec as [Hc|Hc].
  - destruct (Hend Hc) as [Hf1 Hp1].
    destruct (run_finished_job config events _ r j1 e1 Hre1 Hr1 Hf1)
      as (j' & e' & Hr' & Hf' & Hp').
    exists j', e'. split; [done|]. split; [|split; [congruence|]].
    { split; [|done]. intros _. by apply Exists_cons_hd. }
    intros _. rewrite Hp', Hp1, Hb. subst out. f_equal. f_equal.
    assert (Hnil : stdout_until_end r ((env, ev) :: events) = []).
    { destruct ev; simpl in Hc; try done; subst; simpl;
        by rewrite Nat.eqb_refl. }
    rewrite Hnil. simpl. by rewrite app_nil_r.
  - destruct (Hgo Hc) as [Hf1 Hb1].
    assert (Hsplit : stdout_until_end r ((env, ev) :: events)
                     = stdout_until_end r [(env, ev)] ++ stdout_until_end r events).
    { destruct ev as [| |[|] r' ? ?| |r' ?|r' ? ?]; simpl; try done.
      - by destruct (Nat.eqb r' r).
      - destruct (Nat.eqb_spec r' r); [|done]. by destruct Hc.
      - destruct (Nat.eqb_spec r' r); [|done]. by destruct Hc. }
    destruct (IH (step env ev st) j1 e1
                (seen ++ concat (stdout_until_end r [(env, ev)])) Hre1 Hr1 Hf1)
      as (j' & e' & Hr' & Hiff & Hlive & Hdone).
    { rewrite Hm, Hb1, Hb. apply previewAfter_last. }
    rewrite Hm in Hlive, Hdone.
    assert (Hout : last_bytes (previewMaxBytes st)
                     ((seen ++ concat (stdout_until_end r [(env, ev)]))
                      ++ concat (stdout_until_end r events)) = out).
    { subst out. by rewrite Hsplit, concat_app, app_assoc. }
    rewrite Hout in Hlive, Hdone.
    exists j', e'. split; [done|]. split; [|done].
    rewrite Hiff, Exists_cons. simpl. tauto.
Qed.

(** X20. The stdout preview a job ends with is the text of the last
    [previewMaxBytes] bytes its child wrote on stdout, from its start
    (when the buffer is empty) to the [close] or the [error] event that
    ends the job, whatever other events (output on stderr, cancels, the
    timer, other jobs) come in between, whether or not the writes to the
    log file succeed and whatever the log cap is: until the job ends, the
    preview buffer holds those bytes; once it has ended, its
    [stdoutPreview] is their text and stays so; and it has ended exactly
    when a [close] or [error] event of its child has come. *)
Theorem stdout_preview_is_tail config st events r j e :
  reachable config st ->
  heap st !! r = Some {| job := j; exec := Some e |} ->
  finished e = false ->
  stdoutPreviewBuf e = [] ->
  let out :=
    last_bytes (previewMaxBytes st) (concat (stdout_until_end r events)) in
  exists j' e',
    heap (run events st) !! r = Some {| job := j'; exec := Some e' |} /\
    (finished e' = true <-> Exists (fun ee => completes r ee.2) events) /\
    (finished e' = false -> stdoutPreviewBuf e' = out) /\
    (finished e' = true -> stdoutPreview j' = utf8_decode out).
Proof.
  intros Hreach Hr Hf Hb.
  apply (run_running_job config events st r j e [] Hreach Hr Hf).
  rewrite Hb. unfold last_bytes. by rewrite drop_nil.
Qed.

End Previews.

(** ** Jobs canceled before they start *)

Section CanceledJobs.

Context {node : NodeRuntime}.

Lemma upd_cell_other r r' c' x c :
  r <> r' -> heap x !! r = Some c -> heap (upd_cell r' c' x) !! r = Some c.
Proof. intros Hne Hc. simpl. by rewrite list_lookup_insert_ne. Qed.

Lemma upd_job_unstarted idle r r' f x c :
  (forall j, cancelRequested (f j) = cancelRequested j) ->
  (forall j, status (f j) <> STATUS_RUNNING) ->
  heap x !! r = Some c -> canceled_unstarted idle c ->
  exists c', heap (upd_job r' f x) !! r = Some c' /\ canceled_unstarted idle c'.
Proof.
  intros Hf Hs Hc (Hcr & Hex & Hst). unfold upd_job.
  destruct (heap x !! r') as [c0|] eqn:Hr'; [|by exists c].
  destruct (decide (r = r')) as [->|Hne].
  - assert (c0 = c) as -> by congruence.
    eexists. split.
    + simpl. apply list_lookup_insert_eq. by eapply lookup_lt_Some.
    + split; [|split]; simpl; [by rewrite Hf|done|]. intros _. apply Hs.
  - exists c. split; [by apply upd_cell_other|done].
Qed.

Lemma executeJob_skips idle drain env r0 s r :
  skips idle r drain -> r <> r0 -> skips idle r (executeJob drain env r0 s).
Proof.
  intros Hd Hne x c Hc HP. unfold executeJob.
  set (st3 := persistJobs env _).
  assert (H3 : heap st3 !! r = Some c).
  { subst st3. rewrite persistJobs_heap.
    match goal with
    | |- context [upd_job r0 ?f ?y] =>
        rewrite (proj1 (upd_job_frame r r0 f y Hne))
    end. done. }
  clearbody st3.
  destruct (heap st3 !! r0) as [c0|]; [|eauto].
  assert (Hfail : forall m fs,
    let y :=
      upd_job r0
        (fun j =>
           set_stderrPreview ("failed to open log files: " +:+ m)
             (set_durationMs (Some (now env - now env))
                (set_endedAt (Some (now env))
                   (set_code (Some (-1)) (set_status STATUS_FAILED j)))))
        (with_files fs st3) in
    exists c',
      heap (after (drain (persistJobs env
                            (with_runningCount (runningCount y - 1) y))))
        !! r = Some c' /\ canceled_unstarted idle c').
  { intros m fs y. apply (Hd _ c); [|done].
    rewrite persistJobs_heap. simpl. subst y.
    by rewrite (proj1 (upd_job_frame r r0 _ _ Hne)). }
  destruct (mkdir_ok env r0); simpl; [|eauto].
  destruct (open_logs env r0) as [|m|m].
  - destruct (spawn_ok env r0); simpl; [|eauto].
    exists c. split; [|done]. by rewrite list_lookup_insert_ne.
  - specialize (Hfail m (files st3)).
    assert (Hid : with_files (files st3) st3 = st3) by (by destruct st3).
    rewrite Hid in Hfail. exact Hfail.
  - apply Hfail.
Qed.

Lemma drainQueue_loop_skips idle fuel env r :
  skips idle r (drainQueue_loop fuel env).
Proof.
  induction fuel as [|fuel IH]; intros st c Hc HP; simpl; [eauto|].
  destruct (runningCount st <? maxConcurrent st); [|eauto].
  destruct (queue st) as [|[r0 s] rest]; [eauto|].
  simpl. destruct (heap st !! r0) as [c0|] eqn:Hr0; [|eauto].
  assert (Hcancel : exists c',
    heap (after (drainQueue_loop fuel env
            (persistJobs env
               (upd_job r0
                  (fun j =>
                     set_durationMs (Some 0)
                       (set_endedAt (Some (now env))
                          (set_code (Some (-1)) (set_status STATUS_CANCELED j))))
                  (with_queue rest st))))) !! r = Some c' /\
    canceled_unstarted idle c').
  { destruct (upd_job_unstarted idle r r0
                (fun j =>
                   set_durationMs (Some 0)
                     (set_endedAt (Some (now env))
                        (set_code (Some (-1)) (set_status STATUS_CANCELED j))))
                (with_queue rest st) c (fun _ => eq_refl)) as [c1 [H1 P1]];
      [done|done|done|].
    apply (IH _ c1); [by rewrite persistJobs_heap|done]. }
  destruct (decide (r = r0)) as [->|Hne].
  - assert (c0 = c) as -> by congruence. rewrite (proj1 HP). exact Hcancel.
  - destruct (cancelRequested (job c0)); [exact Hcancel|].
    destruct (executeJob_skips idle (drainQueue_loop fuel env) env r0 s r
                (IH) Hne (with_queue rest st) c Hc HP) as [c1 [H1 P1]].
    destruct (executeJob _ env r0 s _) as [st2|st2]; simpl in H1.
    + by apply (IH _ c1).
    + simpl. eauto.
Qed.

Lemma finishJob_skips idle env r' s cd r :
  skips idle r (finishJob (drainQueue env) env r' s cd).
Proof.
  intros x c Hc HP. unfold finishJob.
  destruct (heap x !! r') as [[j [e|]]|] eqn:Hr'; eauto.
  destruct (finished e); eauto.
  assert (Hne : r <> r').
  { intros ->. destruct HP as (_ & Hex & _). rewrite Hr' in Hc.
    injection Hc as <-. done. }
  apply (drainQueue_loop_skips idle _ env r _ c); [|done].
  rewrite persistJobs_heap. simpl. by rewrite list_lookup_insert_ne.
Qed.

(** X14. A job whose cancel was requested before it was started is never
    started: no event gives it a child, the request stays on the job, and
    the job does not become [running].  (A job that [executeJob] left
    [running] without a child, because [spawn] threw, stays without a
    child as well.) *)
Theorem canceled_before_start_never_runs env ev st r c :
  heap st !! r = Some c ->
  cancelRequested (job c) = true ->
  exec c = None ->
  exists c',
    heap (step env ev st) !! r = Some c' /\
    cancelRequested (job c') = true /\ exec c' = None /\
    (status (job c) <> STATUS_RUNNING -> status (job c') <> STATUS_RUNNING).
Proof.
  intros Hc Hcr Hex.
  set (idle := status (job c) <> STATUS_RUNNING).
  assert (HP : canceled_unstarted idle c) by done.
  assert (Hskip : exists c',
    heap (step env ev st) !! r = Some c' /\ canceled_unstarted idle c');
    [|destruct Hskip as (c' & Hc' & ? & ? & ?); by exists c'].
  clearbody idle.
  destruct ev as [req|jobId|k r' chunk wr|r'|r' m|r' cd sg]; simpl.
  - unfold submitRun.
    destruct (validateRequest _ _ _) as [script|cc m|];
      [|simpl; eauto|simpl; eauto].
    destruct (createJob_spec env (script_id script)
                (args_or_default (req_args req))
                (resolveMode st script (req_mode req)) st) as [j [-> _]].
    set (st1 := persistJobs env _).
    assert (H2 : exists c',
      heap (after (enqueue env (length (heap st)) script st1)) !! r = Some c' /\
      canceled_unstarted idle c').
    { unfold enqueue. apply (drainQueue_loop_skips idle _ env r _ c); [|done].
      subst st1. simpl. rewrite persistJobs_heap. simpl.
      by apply lookup_app_l_Some. }
    destruct (enqueue _ _ _ st1) as [st2|st2]; simpl in H2; [|exact H2].
    destruct (String.eqb _ "async"); [|exact H2].
    destruct (heap st2 !! length (heap st)); exact H2.
  - unfold cancelJob.
    destruct (map_get jobId (jobs st)) as [r'|]; simpl; eauto.
    destruct (heap st !! r') as [c0|] eqn:Hr'; simpl; eauto.
    destruct (is_terminal _); simpl; eauto.
    assert (Hupd : forall j',
      cancelRequested j' = true ->
      (status j' = status (job c0) \/ status j' = STATUS_CANCELED) ->
      exists c',
        <[r' := {| job := j'; exec := exec c0 |}]> (heap st) !! r = Some c' /\
        canceled_unstarted idle c').
    { intros j' Hj' Hs'. destruct (decide (r = r')) as [->|Hne].
      - assert (c0 = c) as -> by congruence. eexists.
        split; [apply list_lookup_insert_eq; by eapply lookup_lt_Some|].
        split; [done|]. split; [done|]. simpl. intros Hi.
        destruct Hs' as [->| ->]; [by apply HP|done].
      - exists c. by rewrite list_lookup_insert_ne. }
    destruct (_ && _); simpl; [apply Hupd; auto|].
    destruct (String.eqb _ _); simpl; [|apply Hupd; auto].
    rewrite persistJobs_heap. simpl. apply Hupd; auto.
  - unfold onData.
    destruct (heap st !! r') as [[j [e|]]|] eqn:Hr'; eauto.
    assert (Hne : r <> r').
    { intros ->. rewrite Hr' in Hc. injection Hc as <-. done. }
    destruct (writeLogChunk _ _ _ _ _ _ _) as [[j' fs'] [msg|]]; simpl;
      rewrite list_lookup_insert_ne by done; eauto.
  - unfold onTimeout.
    destruct (heap st !! r') as [[j [e|]]|] eqn:Hr'; eauto.
    assert (Hne : r <> r').
    { intros ->. rewrite Hr' in Hc. injection Hc as <-. done. }
    destruct (timerPending e); eauto. simpl.
    rewrite list_lookup_insert_ne by done. eauto.
  - unfold onError.
    destruct (heap st !! r') as [[j [e|]]|] eqn:Hr'; eauto.
    assert (Hne : r <> r').
    { intros ->. rewrite Hr' in Hc. injection Hc as <-. done. }
    apply (finishJob_skips idle env r' _ _ r _ c); [|done].
    simpl. by rewrite list_lookup_insert_ne.
  - unfold onClose.
    destruct (heap st !! r') as [[j [e|]]|] eqn:Hr'; eauto.
    destruct (closeDecision _ _ _ _).
    by apply (finishJob_skips idle env r' _ _ r _ c).
Qed.

End CanceledJobs.

(** ** Jobs whose start failed *)

Section StartFailures.

Context {node : NodeRuntime}.

(** X25. A job that [executeJob] left [running] without a child, because
    [mkdirSync] or [spawn] threw, stays so for good: after every event it
    is still [running], without a child, with the code and the end time it
    had; and a cancel of it sends no signal. *)
Theorem unstarted_running_job_is_stuck config st env ev r c :
  reachable config st ->
  heap st !! r = Some c ->
  status (job c) = STATUS_RUNNING ->
  exec c = None ->
  (exists c',
     heap (step env ev st) !! r = Some c' /\
     status (job c') = STATUS_RUNNING /\ exec c' = None /\
     code (job c') = code (job c) /\ endedAt (job c') = endedAt (job c)) /\
  (forall jobId, map_get jobId (jobs st) = Some r ->
                 (cancelJob env jobId st).1.2 = []).
Proof.
  intros Hre Hc Hs Hex.
  pose proof (reachable_Inv _ _ Hre) as HI.
  assert (Hq : r ∉ (queue st).*1).
  { intros Hin. pose proof (inv_queue_waiting _ _ _ _ _ HI r c Hin Hc) as Hw.
    by apply waiting_not_running in Hw. }
  assert (Hlt : (r < length (heap st))%nat) by (by eapply lookup_lt_Some).
  assert (Hcancel : forall jobId,
    map_get jobId (jobs st) = Some r ->
    cancelJob env jobId st
    = (ApiOk (serializeJob (set_cancelRequested true (job c))), [],
       upd_cell r {| job := set_cancelRequested true (job c); exec := None |} st)).
  { intros jobId Hm. unfold cancelJob. rewrite Hm, Hc, Hex. simpl. rewrite Hs.
    reflexivity. }
  split; [|intros jobId Hm; by rewrite (Hcancel jobId Hm)].
  assert (Hsame : heap (step env ev st) !! r = Some c ->
    exists c',
      heap (step env ev st) !! r = Some c' /\
      status (job c') = STATUS_RUNNING /\ exec c' = None /\
      code (job c') = code (job c) /\ endedAt (job c') = endedAt (job c))
    by (intros H; by exists c).
  destruct ev as [req|jobId|k r' chunk wr|r'|r' m|r' cd sg].
  - apply Hsame. apply (step_frame env (EvSubmit req) st r _ Hc Hq I).
  - destruct (decide (map_get jobId (jobs st) = Some r)) as [Hm|Hm].
    2:{ apply Hsame. by apply (step_frame env (EvCancel jobId) st r _ Hc Hq). }
    clear Hsame. simpl. rewrite (Hcancel jobId Hm). simpl.
    rewrite list_lookup_insert_eq by done. by eexists.
  - destruct (decide (r' = r)) as [->|Hne].
    2:{ apply Hsame. by apply (step_frame env (EvData k r' chunk wr) st r _ Hc Hq). }
    apply Hsame. simpl. unfold onData. rewrite Hc. destruct c as [j ex].
    simpl in Hex. by subst ex.
  - destruct (decide (r' = r)) as [->|Hne].
    2:{ apply Hsame. by apply (step_frame env (EvTimeout r') st r _ Hc Hq). }
    apply Hsame. simpl. unfold onTimeout. rewrite Hc. destruct c as [j ex].
    simpl in Hex. by subst ex.
  - destruct (decide (r' = r)) as [->|Hne].
    2:{ apply Hsame. by apply (step_frame env (EvError r' m) st r _ Hc Hq). }
    apply Hsame. simpl. unfold onError. rewrite Hc. destruct c as [j ex].
    simpl in Hex. by subst ex.
  - destruct (decide (r' = r)) as [->|Hne].
    2:{ apply Hsame. by apply (step_frame env (EvClose r' cd sg) st r _ Hc Hq). }
    apply Hsame. simpl. unfold onClose. rewrite Hc. destruct c as [j ex].
    simpl in Hex. by subst ex.
Qed.

End StartFailures.

(** ** A new runner *)

Section Construction.

Context {node : NodeRuntime}.

(** X7. A runner that has just been constructed is idle: nothing is
    queued, nothing runs, the job counter is at 0, no loaded job has a
    child or a pending cancel, none is [queued] or [running]; and loading
    does not write the job store file or any log. *)
Theorem new_runner_is_idle config t disk logs :
  let st := newScriptRunner config t disk logs in
  queue st = [] /\ runningCount st = 0 /\ r_seq st = 0 /\
  store st = disk /\ files st = logs /\
  forall r c, heap st !! r = Some c ->
    exec c = None /\ cancelRequested (job c) = false /\
    status (job c) <> STATUS_QUEUED /\ status (job c) <> STATUS_RUNNING.
Proof.
  unfold newScriptRunner, loadJobsFromDisk. simpl.
  destruct disk as [| | |parsed]; simpl;
    try (repeat split; try done; by intros r c Hc).
  match goal with |- context [fold_left _ _ ?x] =>
    assert (H0 : queue x = [] /\ runningCount x = 0 /\ r_seq x = 0 /\
                 store x = StoreArray parsed /\ files x = logs /\
                 forall r c, heap x !! r = Some c ->
                   exec c = None /\ cancelRequested (job c) = false /\
                   status (job c) <> STATUS_QUEUED /\
                   status (job c) <> STATUS_RUNNING)
      by (repeat split; try done; by intros r c Hc);
    revert H0; generalize x end.
  generalize (StoreArray parsed) as d.
  induction parsed as [|e parsed IH]; intros d st H; simpl; [done|].
  apply IH. destruct e as [|rec]; simpl; [done|].
  destruct (truthy_str _); simpl; [|done].
  destruct H as (H1 & H2 & H3 & H4 & H5 & H6).
  do 5 (split; [done|]).
  intros r c Hc.
  apply lookup_app_Some in Hc as [Hc|[_ Hc]]; [by apply (H6 r c)|].
  apply list_lookup_singleton_Some in Hc as [_ <-]. simpl.
  split; [done|]. split; [|split].
  - unfold recover. by repeat case_match.
  - apply recover_not_queued.
  - apply recover_not_running.
Qed.

End Construction.

(** ** Failures of the job store file *)

Section StoreFailures.

Context {node : NodeRuntime}.

Lemma forget_fields x y :
  forget_store x = forget_store y <->
  scriptMap x = scriptMap y /\ maxConcurrent x = maxConcurrent y /\
  defaultMode x = defaultMode y /\ jobStoreFile x = jobStoreFile y /\
  logsDir x = logsDir y /\ maxLogBytesPerStream x = maxLogBytesPerStream y /\
  previewMaxBytes x = previewMaxBytes y /\ runningCount x = runningCount y /\
  queue x = queue y /\ r_seq x = r_seq y /\ jobs x = jobs y /\
  heap x = heap y /\ files x = files y.
Proof.
  destruct x, y. unfold forget_store, with_store. simpl. split.
  - intros [= -> -> -> -> -> -> -> -> -> -> -> -> ->]. repeat split.
  - intros (-> & -> & -> & -> & -> & -> & -> & -> & -> & -> & -> & -> & ->).
    done.
Qed.

Lemma forget_persist env x : forget_store (persistJobs env x) = forget_store x.
Proof. unfold persistJobs. by destruct (persist_ok env). Qed.

Ltac forget_eq :=
  repeat match goal with
         | H : forget_store _ = forget_store _ |- _ => apply forget_fields in H
         end;
  destruct_and?;
  apply forget_fields; simpl; repeat split; congruence.

Lemma forget_upd_job r f x y :
  forget_store x = forget_store y ->
  forget_store (upd_job r f x) = forget_store (upd_job r f y).
Proof.
  intros H. apply forget_fields in H.
  destruct H as (H1 & H2 & H3 & H4 & H5 & H6 & H7 & H8 & H9 & H10 & H11 & H12 & H13).
  unfold upd_job. rewrite H12. destruct (heap y !! r); forget_eq.
Qed.

Lemma executeJob_forget d1 d2 env1 env2 r s x y :
  now env1 = now env2 -> mkdir_ok env1 = mkdir_ok env2 ->
  open_logs env1 = open_logs env2 -> spawn_ok env1 = spawn_ok env2 ->
  (forall x y, forget_store x = forget_store y ->
               threw (d1 x) = threw (d2 y) /\
               forget_store (after (d1 x)) = forget_store (after (d2 y))) ->
  forget_store x = forget_store y ->
  threw (executeJob d1 env1 r s x) = threw (executeJob d2 env2 r s y) /\
  forget_store (after (executeJob d1 env1 r s x))
  = forget_store (after (executeJob d2 env2 r s y)).
Proof.
  intros Hnow Hmk Hopen Hsp Hd H. unfold executeJob.
  rewrite Hnow, Hmk, Hopen, Hsp.
  set (x3 := persistJobs env1 _). set (y3 := persistJobs env2 _).
  assert (H3 : forget_store x3 = forget_store y3).
  { subst x3 y3. rewrite !forget_persist. apply forget_upd_job. forget_eq. }
  clearbody x3 y3. pose proof H3 as H3'. apply forget_fields in H3.
  destruct H3 as (H1 & H2 & H3 & H4 & H5 & H6 & H7 & H8 & H9 & H10 & H11 & H12 & H13).
  rewrite H12. destruct (heap y3 !! r) as [c|]; [|done].
  rewrite H5, H13.
  destruct (mkdir_ok env2 r); simpl; [|done].
  assert (Hfail : forall f fs,
    let x4 := upd_job r f (with_files fs x3) in
    let y4 := upd_job r f (with_files fs y3) in
    threw (d1 (persistJobs env1 (with_runningCount (runningCount x4 - 1) x4)))
    = threw (d2 (persistJobs env2 (with_runningCount (runningCount y4 - 1) y4)))
    /\
    forget_store
      (after (d1 (persistJobs env1
                    (with_runningCount (runningCount x4 - 1) x4))))
    = forget_store
      (after (d2 (persistJobs env2
                    (with_runningCount (runningCount y4 - 1) y4))))).
  { intros f fs x4 y4. apply Hd. rewrite !forget_persist.
    assert (Hu : forget_store x4 = forget_store y4).
    { apply forget_upd_job. forget_eq. }
    forget_eq. }
  destruct (open_logs env2 r) as [|m|m].
  - destruct (spawn_ok env2 r); simpl; (split; [done|forget_eq]).
  - pose proof (Hfail (fun j =>
                    set_stderrPreview ("failed to open log files: " +:+ m)
                      (set_durationMs (Some (now env2 - now env2))
                         (set_endedAt (Some (now env2))
                            (set_code (Some (-1)) (set_status STATUS_FAILED j)))))
                  (files y3)) as Hf.
    assert (Hx : with_files (files y3) x3 = x3) by (rewrite <- H13; by destruct x3).
    assert (Hy : with_files (files y3) y3 = y3) by (by destruct y3).
    simpl in Hf. rewrite Hx, Hy in Hf. exact Hf.
  - apply Hfail.
Qed.

Lemma drainQueue_loop_forget fuel env1 env2 x y :
  now env1 = now env2 -> mkdir_ok env1 = mkdir_ok env2 ->
  open_logs env1 = open_logs env2 -> spawn_ok env1 = spawn_ok env2 ->
  forget_store x = forget_store y ->
  threw (drainQueue_loop fuel env1 x) = threw (drainQueue_loop fuel env2 y) /\
  forget_store (after (drainQueue_loop fuel env1 x))
  = forget_store (after (drainQueue_loop fuel env2 y)).
Proof.
  intros Hnow Hmk Hopen Hsp. revert x y.
  induction fuel as [|fuel IH]; intros x y H; simpl; [done|].
  pose proof H as H'. apply forget_fields in H'.
  destruct H' as (H1 & H2 & H3 & H4 & H5 & H6 & H7 & H8 & H9 & H10 & H11 & H12 & H13).
  rewrite H8, H2, H9.
  destruct (runningCount y <? maxConcurrent y); [|done].
  destruct (queue y) as [|[r s] rest]; [done|].
  simpl. rewrite H12.
  assert (Hq : forget_store (with_queue rest x) = forget_store (with_queue rest y)).
  { apply forget_fields. simpl. repeat split; congruence. }
  destruct (heap y !! r) as [c|]; [|done].
  destruct (cancelRequested (job c)).
  - apply IH. rewrite !forget_persist, Hnow. by apply forget_upd_job.
  - destruct (executeJob_forget (drainQueue_loop fuel env1)
                (drainQueue_loop fuel env2) env1 env2 r s
                (with_queue rest x) (with_queue rest y)
                Hnow Hmk Hopen Hsp IH Hq) as [Ht He].
    destruct (executeJob _ env1 r s _) as [x2|x2],
             (executeJob _ env2 r s _) as [y2|y2];
      simpl in Ht, He; try done.
    by apply IH.
Qed.

Lemma drainQueue_forget env1 env2 x y :
  now env1 = now env2 -> mkdir_ok env1 = mkdir_ok env2 ->
  open_logs env1 = open_logs env2 -> spawn_ok env1 = spawn_ok env2 ->
  forget_store x = forget_store y ->
  threw (drainQueue env1 x) = threw (drainQueue env2 y) /\
  forget_store (after (drainQueue env1 x))
  = forget_store (after (drainQueue env2 y)).
Proof.
  intros Hnow Hmk Hopen Hsp H. unfold drainQueue.
  assert (Hq : queue x = queue y) by (apply forget_fields in H; tauto).
  rewrite Hq. by apply drainQueue_loop_forget.
Qed.

Lemma finishJob_forget env1 env2 r s c x y :
  now env1 = now env2 -> mkdir_ok env1 = mkdir_ok env2 ->
  open_logs env1 = open_logs env2 -> spawn_ok env1 = spawn_ok env2 ->
  forget_store x = forget_store y ->
  forget_store (after (finishJob (drainQueue env1) env1 r s c x))
  = forget_store (after (finishJob (drainQueue env2) env2 r s c y)).
Proof.
  intros Hnow Hmk Hopen Hsp H. unfold finishJob.
  pose proof H as H'. apply forget_fields in H'.
  destruct H' as (H1 & H2 & H3 & H4 & H5 & H6 & H7 & H8 & H9 & H10 & H11 & H12 & H13).
  rewrite H12. destruct (heap y !! r) as [[j [e|]]|]; try done.
  destruct (finished e); [done|].
  apply drainQueue_forget; try done.
  rewrite !forget_persist, Hnow. forget_eq.
Qed.

Lemma submitRun_forget env1 env2 req x y :
  now env1 = now env2 -> mkdir_ok env1 = mkdir_ok env2 ->
  open_logs env1 = open_logs env2 -> spawn_ok env1 = spawn_ok env2 ->
  forget_store x = forget_store y ->
  (submitRun env1 req x).1 = (submitRun env2 req y).1 /\
  forget_store (submitRun env1 req x).2 = forget_store (submitRun env2 req y).2.
Proof.
  intros Hnow Hmk Hopen Hsp H.
  pose proof H as H'. apply forget_fields in H'.
  destruct H' as (H1 & H2 & H3 & H4 & H5 & H6 & H7 & H8 & H9 & H10 & H11 & H12 & H13).
  unfold submitRun, validateRequest, scriptMap_get. rewrite H1.
  match goal with |- context [match ?v with ValidOk _ => _ | _ => _ end] =>
    destruct v as [script|cc m|] end; [|done|done].
  unfold resolveMode. rewrite H3.
  set (md := match req_mode req with JStr _ => _ | _ => _ end).
  unfold createJob, nextJobId. simpl. rewrite Hnow, H10, H12, H11.
  set (x1 := persistJobs env1 _). set (y1 := persistJobs env2 _).
  assert (E1 : forget_store x1 = forget_store y1).
  { subst x1 y1. rewrite !forget_persist. forget_eq. }
  assert (E2 : threw (enqueue env1 (length (heap y)) script x1)
               = threw (enqueue env2 (length (heap y)) script y1) /\
               forget_store (after (enqueue env1 (length (heap y)) script x1))
               = forget_store (after (enqueue env2 (length (heap y)) script y1))).
  { unfold enqueue. apply drainQueue_forget; try done. forget_eq. }
  clearbody x1 y1. destruct E2 as [Et E2].
  destruct (enqueue env1 _ _ x1) as [x2|x2], (enqueue env2 _ _ y1) as [y2|y2];
    simpl in Et, E2; try done.
  destruct (String.eqb md "async"); [|done].
  assert (Eh : heap x2 = heap y2) by (apply forget_fields in E2; tauto).
  rewrite Eh. by destruct (heap _ !! length (heap y)).
Qed.

Lemma cancelJob_forget env1 env2 jobId x y :
  now env1 = now env2 ->
  forget_store x = forget_store y ->
  (cancelJob env1 jobId x).1 = (cancelJob env2 jobId y).1 /\
  forget_store (cancelJob env1 jobId x).2 = forget_store (cancelJob env2 jobId y).2.
Proof.
  intros Hnow H.
  pose proof H as H'. apply forget_fields in H'.
  destruct H' as (H1 & H2 & H3 & H4 & H5 & H6 & H7 & H8 & H9 & H10 & H11 & H12 & H13).
  unfold cancelJob. rewrite H11, H12.
  destruct (map_get jobId (jobs y)) as [r|]; [|done].
  destruct (heap y !! r) as [c|]; [|done].
  destruct (is_terminal _); [done|].
  destruct (_ && _); simpl; [split; [done|forget_eq]|].
  destruct (String.eqb _ _); simpl; [|split; [done|forget_eq]].
  rewrite !forget_persist, Hnow. split; [done|forget_eq].
Qed.

Lemma step_forget env1 env2 ev x y :
  now env1 = now env2 -> mkdir_ok env1 = mkdir_ok env2 ->
  open_logs env1 = open_logs env2 -> spawn_ok env1 = spawn_ok env2 ->
  forget_store x = forget_store y ->
  forget_store (step env1 ev x) = forget_store (step env2 ev y).
Proof.
  intros Hnow Hmk Hopen Hsp H.
  pose proof H as H'. apply forget_fields in H'.
  destruct H' as (H1 & H2 & H3 & H4 & H5 & H6 & H7 & H8 & H9 & H10 & H11 & H12 & H13).
  destruct ev as [req|jobId|k r chunk wr|r|r m|r cd sg]; simpl.
  - by apply submitRun_forget.
  - by apply cancelJob_forget.
  - unfold onData. rewrite H12, H6, H7, H13.
    destruct (heap y !! r) as [[j [e|]]|]; try done.
    destruct (writeLogChunk _ _ _ _ _ _ _) as [[j' fs'] [msg|]]; forget_eq.
  - unfold onTimeout. rewrite H12.
    destruct (heap y !! r) as [[j [e|]]|]; try done.
    destruct (timerPending e); [|done]. forget_eq.
  - unfold onError. rewrite H12, H7.
    destruct (heap y !! r) as [[j [e|]]|]; try done.
    apply finishJob_forget; try done. forget_eq.
  - unfold onClose. rewrite H12.
    destruct (heap y !! r) as [[j [e|]]|]; try done.
    destruct (closeDecision _ _ _ _). by apply finishJob_forget.
Qed.

Lemma persistJobs_store_fail env st :
  persist_ok env = false -> persistJobs env st = st.
Proof. unfold persistJobs. by intros ->. Qed.

(** X9. Whether the job store file can be written changes nothing but the
    file: an event leaves the same jobs, queue, counters and log files, a
    submit and a cancel give the same answer, whether [persistJobs]
    succeeds or throws; and so does any sequence of events. *)
Theorem store_failure_changes_only_the_store env ev st st' b :
  forget_store st' = forget_store st ->
  forget_store (step (with_persist_ok b env) ev st') = forget_store (step env ev st) /\
  (forall req, (submitRun (with_persist_ok b env) req st').1
               = (submitRun env req st).1) /\
  (forall jobId, (cancelJob (with_persist_ok b env) jobId st').1
                 = (cancelJob env jobId st).1) /\
  (forall jobId, getJob jobId st' = getJob jobId st).
Proof.
  intros H. split; [by apply step_forget|]. split; [|split].
  - intros req. by apply submitRun_forget.
  - intros jobId. by apply cancelJob_forget.
  - intros jobId. apply forget_fields in H.
    destruct H as (_ & _ & _ & _ & _ & _ & _ & _ & _ & _ & Hj & Hh & _).
    unfold getJob. by rewrite Hj, Hh.
Qed.

End StoreFailures.

(** ** Reading a request body *)

Section ReadBodyFacts.

Context {node : NodeRuntime}.
Context {J : Type} (JSON_parse : string -> option J) (empty_object : J).

Lemma settle_settled o (s : BodyReader J) :
  is_Some (body_settled s) -> settle o s = s.
Proof. unfold settle. by intros [x ->]. Qed.

Lemma body_data_fold (chunks done : list (list byte)) (s : BodyReader J) :
  body_size s = Z.of_nat (length (concat done)) ->
  (if 2 * 1024 * 1024 <? Z.of_nat (length (concat done))
   then body_settled s = Some (BodyRejected "body too large")
   else body_settled s = None /\ body_chunks s = done) ->
  let s' :=
    fold_left (body_step JSON_parse empty_object) (BodyData <$> chunks) s in
  body_size s' = Z.of_nat (length (concat (done ++ chunks))) /\
  (if 2 * 1024 * 1024 <? Z.of_nat (length (concat (done ++ chunks)))
   then body_settled s' = Some (BodyRejected "body too large")
   else body_settled s' = None /\ body_chunks s' = done ++ chunks).
Proof.
  revert done s. induction chunks as [|c chunks IH]; intros done s Hsz Hst.
  - simpl. by rewrite app_nil_r.
  - simpl. replace (done ++ c :: chunks) with ((done ++ [c]) ++ chunks)
      by (by rewrite <- app_assoc).
    apply IH.
    + unfold body_onData. rewrite Hsz.
      assert (Hl : Z.of_nat (length (concat (done ++ [c])))
                   = Z.of_nat (length (concat done)) + Z.of_nat (length c)).
      { rewrite concat_app, length_app. simpl. rewrite app_nil_r. lia. }
      rewrite Hl.
      destruct (2 * 1024 * 1024
                <? Z.of_nat (length (concat done)) + Z.of_nat (length c));
        [|reflexivity].
      unfold settle. simpl. by destruct (body_settled s).
    + unfold body_onData. rewrite Hsz.
      assert (Hl : Z.of_nat (length (concat (done ++ [c])))
                   = Z.of_nat (length (concat done)) + Z.of_nat (length c)).
      { rewrite concat_app, length_app. simpl. rewrite app_nil_r. lia. }
      rewrite Hl.
      destruct (Z.ltb_spec (2 * 1024 * 1024)
                  (Z.of_nat (length (concat done)) + Z.of_nat (length c)))
        as [Hbig|Hsmall].
      * unfold settle. simpl.
        destruct (Z.ltb_spec (2 * 1024 * 1024) (Z.of_nat (length (concat done)))).
        -- by rewrite Hst.
        -- destruct Hst as [-> _]. done.
      * destruct (Z.ltb_spec (2 * 1024 * 1024) (Z.of_nat (length (concat done))));
          [lia|].
        destruct Hst as [-> ->]. done.
Qed.

(** X24. A request body is accepted exactly when it is at most 2 MiB long,
    however it is cut into chunks: [readBody] then gives the parsed JSON
    of the whole body ([{}] for an empty one), or rejects a body that does
    not parse; a longer body is rejected as too large.  Events after the
    [end] change nothing. *)
Theorem readBody_whole_body (chunks : list (list byte)) (later : list BodyEvent) :
  readBody JSON_parse empty_object ((BodyData <$> chunks) ++ BodyEnd :: later)
  = Some (body_of JSON_parse empty_object chunks).
Proof.
  unfold readBody. rewrite fold_left_app. simpl.
  destruct (body_data_fold chunks []
              {| body_chunks := []; body_size := 0; body_settled := None |})
    as [Hsz Hst]; [done|simpl; done|].
  simpl in Hst.
  set (s := fold_left (body_step JSON_parse empty_object)
              (BodyData <$> chunks) _) in *.
  assert (Hend : body_settled (body_onEnd JSON_parse empty_object s) = Some (body_of JSON_parse empty_object chunks)).
  { unfold body_onEnd, body_of.
    destruct (_ <? _).
    - assert (Hs : is_Some (body_settled s)) by (rewrite Hst; eauto).
      destruct (String.eqb _ _); [by rewrite settle_settled|].
      destruct (JSON_parse _); by rewrite settle_settled.
    - destruct Hst as [Hnone ->].
      destruct (String.eqb _ _); [by unfold settle; rewrite Hnone|].
      destruct (JSON_parse _); by unfold settle; rewrite Hnone. }
  assert (Hkeep : forall evs x o, body_settled x = Some o ->
            body_settled (fold_left (body_step JSON_parse empty_object) evs x) = Some o).
  { induction evs as [|ev evs IH]; intros x o Hx; simpl; [done|].
    apply IH.
    assert (Hs : forall o', settle o' x = x)
      by (intros o'; apply settle_settled; rewrite Hx; eauto).
    destruct ev; simpl.
    - unfold body_onData.
      destruct (2 * 1024 * 1024 <? body_size x + Z.of_nat (length chunk));
        [|exact Hx].
      rewrite settle_settled; simpl; [exact Hx|rewrite Hx; eauto].
    - unfold body_onEnd. destruct (String.eqb _ _); [by rewrite Hs|].
      destruct (JSON_parse _); by rewrite Hs.
    - by rewrite Hs. }
  by apply Hkeep.
Qed.

End ReadBodyFacts.

(** * The properties on the example run *)

Lemma demo_A_reachable :
  @reachable demo_runtime (demo_config (Some 1024)) demo_A.
Proof. unfold demo_A, demo_new. apply reachable_step, reachable_new. Qed.

Lemma demo_AB_reachable :
  @reachable demo_runtime (demo_config (Some 1024)) demo_AB.
Proof. unfold demo_AB. apply reachable_step, demo_A_reachable. Qed.

Lemma demo_AB_canceled_reachable :
  @reachable demo_runtime (demo_config (Some 1024)) demo_AB_canceled.
Proof. unfold demo_AB_canceled. apply reachable_step, demo_AB_reachable. Qed.

Lemma demo_A_quietly :
  @reachable_quietly demo_runtime (demo_config (Some 1024)) demo_A.
Proof.
  unfold demo_A, demo_new. apply quietly_step; [apply quietly_new|].
  vm_compute. reflexivity.
Qed.

Lemma demo_A_unspawned_reachable :
  @reachable demo_runtime (demo_config (Some 1024)) demo_A_unspawned.
Proof. unfold demo_A_unspawned, demo_new. apply reachable_step, reachable_new. Qed.

(** With one slot and two submitted jobs, one job runs and one waits. *)
Lemma running_jobs_bounded_witness :
  0 <= cfg_maxConcurrent (runner (demo_config (Some 1024))) /\
  length (runningJobs demo_AB) = 1%nat /\
  Z.of_nat (length (runningJobs demo_AB)) <= runningCount demo_AB /\
  Z.of_nat (length (runningObjects (heap demo_AB))) = runningCount demo_AB /\
  runningCount demo_AB <= maxConcurrent demo_AB /\
  maxConcurrent demo_AB = 1.
Proof.
  split; [simpl; lia|]. split; [reflexivity|].
  apply (@running_jobs_bounded demo_runtime (demo_config (Some 1024)) demo_AB).
  - simpl. lia.
  - apply demo_AB_reachable.
Defined.

(** Job A of the example, running and not canceled, exits with code 0. *)
Lemma close_priority_witness :
  (status <$> (job <$> heap demo_A !! 0%nat)) = Some STATUS_RUNNING /\
  exists j',
    job <$> heap (after (@onClose demo_runtime (demo_env 1005) 0 (Some 0) None
                           demo_A)) !! 0%nat = Some j' /\
    status j' = STATUS_SUCCEEDED /\ code j' = Some 0.
Proof.
  split; [reflexivity|].
  destruct (heap demo_A !! 0%nat) as [[j [e|]]|] eqn:H;
    try (vm_compute in H; discriminate H).
  destruct (@close_priority demo_runtime (demo_config (Some 1024)) demo_A
              (demo_env 1005) 0%nat _ e (Some 0) None demo_A_reachable H)
    as [j' [H1 [_ [_ [_ [H4 _]]]]]].
  - vm_compute in H. injection H as <- <-. reflexivity.
  - reflexivity.
  - exists j'. split; [exact H1|].
    vm_compute in H. injection H as <- <-. apply H4; reflexivity.
Defined.



(** The claim of C4 as the specification states it fails: with a cap of 5,
    the child writes the six bytes of [hello!] and [fs.writeSync] throws:
    the exception leaves [writeLogChunk] before it sets the flag, so the
    producer tried to write more than the cap and the flag is unset. *)
Lemma overflow_without_truncated :
  let chunks := [(list_byte_of_string "hello!", WriteFails "ENOSPC")] in
  Forall (fun c => c.1 <> []) chunks /\
  ~ (get_truncated Stdout
       (writeChunks 5 (Some "out.log") Stdout chunks demo_job ∅).1 = true
     <-> 5 < attempted chunks).
Proof.
  intros chunks. split; [by repeat constructor|].
  intros [_ Hflag].
  assert (Hset : get_truncated Stdout
                   (writeChunks 5 (Some "out.log") Stdout chunks demo_job ∅).1
                 = true) by (apply Hflag; reflexivity).
  vm_compute in Hset. discriminate.
Qed.

(** [hello] then [world] under a cap of 8: eight bytes are kept and the
    flag is set. *)
Lemma log_cap_respected_witness :
  let chunks :=
    [(list_byte_of_string "hello", WriteOk);
     (list_byte_of_string "world", WriteOk)] in
  let res := writeChunks 8 (Some "out.log") Stdout chunks demo_job ∅ in
  0 <= 8 /\ get_size Stdout demo_job = 0 /\
  get_truncated Stdout demo_job = false /\
  get_size Stdout res.1 = 8 /\
  get_truncated Stdout res.1 = true /\
  res.2 !! "out.log" = Some (list_byte_of_string "hellowor").
Proof.
  intros chunks res.
  destruct (log_cap_respected 8 (Some "out.log") Stdout chunks demo_job ∅)
    as (_ & _ & Hfd); [lia|reflexivity|reflexivity|by repeat constructor|].
  destruct (Hfd "out.log" eq_refl) as (_ & _ & Hok).
  destruct (Hok ltac:(by repeat constructor)) as [Hsize Hflag].
  split; [lia|]. split; [reflexivity|]. split; [reflexivity|].
  split; [exact Hsize|]. split; [apply Hflag; reflexivity|]. reflexivity.
Defined.

(** Three bytes of the log of job A from offset 1. *)
Lemma getJobLogs_page_witness :
  exists page,
    @getJobLogs demo_runtime "job_1000_1" (Some "stdout") (NumInt 1) (NumInt 3)
      demo_A_hello = ApiOk page /\
    page_offset page = 1 /\ page_totalSize page = 5 /\
    page_data page = "ell" /\ page_nextOffset page = 4.
Proof.
  edestruct (@getJobLogs_page demo_runtime "job_1000_1" Stdout 1 3 demo_A_hello)
    as [page [Hp [_ [_ [Ho [_ Hc]]]]]].
  - vm_compute. reflexivity.
  - lia.
  - lia.
  - exists page. split; [exact Hp|]. split; [exact Ho|].
    vm_compute in Hp. injection Hp as <-. repeat split.
Defined.

(** C5, on the code.  A runner configured with [maxLogBytesPerStream = 0]
    works with a cap of 1 MiB.  In the example its child writes two bytes:
    they reach the log file and the truncation flag stays unset. *)
Theorem zero_cap_is_replaced :
  (forall (node : NodeRuntime) config t disk logs,
     cfg_maxLogBytesPerStream (runner config) = Some 0 ->
     maxLogBytesPerStream (newScriptRunner config t disk logs) = 1024 * 1024) /\
  cfg_maxLogBytesPerStream (runner (demo_config (Some 0))) = Some 0 /\
  files demo_zero_cap !! "/srv/logs/job_1000_1.stdout.log"
    = Some (list_byte_of_string "hi") /\
  (fun c => (stdoutSize (job c), stdoutTruncated (job c)))
    <$> heap demo_zero_cap !! 0%nat = Some (2, false).
Proof.
  split.
  - intros node config t disk logs Hcfg. rewrite newScriptRunner_cap, Hcfg. done.
  - repeat split; vm_compute; reflexivity.
Qed.

(** C9, on the code.  Job B of the example is canceled while queued, at
    1002: it is [canceled], ended at 1002.  When job A exits at 1005 the
    scheduler takes B off the queue and writes B's end again: B, already in
    a terminal state, now ended at 1005. *)
Theorem canceled_job_endedAt_rewritten :
  @reachable demo_runtime (demo_config (Some 1024)) demo_AB_canceled /\
  demo_A_closed
    = @step demo_runtime (demo_env 1005) (EvClose 0 (Some 0) None)
        demo_AB_canceled /\
  (fun s => (snap_status s, snap_endedAt s))
    <$> getJob "job_1001_2" demo_AB_canceled
    = Some (STATUS_CANCELED, Some 1002) /\
  (fun s => (snap_status s, snap_endedAt s))
    <$> getJob "job_1001_2" demo_A_closed
    = Some (STATUS_CANCELED, Some 1005).
Proof.
  split; [apply demo_AB_canceled_reachable|].
  split; [reflexivity|]. split; vm_compute; reflexivity.
Qed.

(** ** The further properties on the example run *)

(** A free slot: the job of the first submit to the example runner is
    started at once. *)
Lemma submit_admission_witness :
  let req := {| req_scriptId := JStr "slow"; req_args := JArr [];
                req_mode := JStr "async" |} in
  @validateRequest demo_runtime demo_new (req_scriptId req)
    (args_or_default (req_args req)) = ValidOk demo_slow /\
  exists c,
    heap demo_A !! 0%nat = Some c /\
    jobId (job c) = "job_1000_1" /\ status (job c) = STATUS_RUNNING /\
    runningCount demo_A = 1.
Proof.
  intros req.
  assert (Hv : @validateRequest demo_runtime demo_new (req_scriptId req)
                 (args_or_default (req_args req)) = ValidOk demo_slow)
    by (vm_compute; reflexivity).
  split; [exact Hv|].
  destruct (@submit_admission demo_runtime (demo_config (Some 1024)) demo_new
              (demo_env 1000) req demo_slow (reachable_new _ _ _ _) Hv)
    as [c (Hc & _ & Hid & _ & _ & _ & _ & _ & Hfree)].
  exists c. split; [exact Hc|]. split; [exact Hid|].
  destruct Hfree as [_ Hrun]; [vm_compute; reflexivity|].
  simpl in Hrun. destruct Hrun as (Hs & _ & Hn & _).
  split; [exact Hs|]. exact Hn.
Defined.

(** [hello] then [world] under a cap of 8: the file holds the first eight
    bytes. *)
Lemma log_file_is_head_witness :
  let chunks :=
    [(list_byte_of_string "hello", WriteOk);
     (list_byte_of_string "world", WriteOk)] in
  let res := writeChunks 8 (Some "out.log") Stdout chunks demo_job ∅ in
  0 <= 8 /\ get_size Stdout demo_job = 0 /\
  default [] ((∅ : gmap string (list byte)) !! "out.log") = [] /\
  default [] (res.2 !! "out.log") = list_byte_of_string "hellowor" /\
  get_size Stdout res.1 = 8.
Proof.
  intros chunks res.
  destruct (log_file_is_head 8 "out.log" Stdout chunks demo_job ∅)
    as (Hc & Hs & _); [lia|reflexivity|reflexivity|].
  split; [lia|]. split; [reflexivity|]. split; [reflexivity|].
  fold res in Hc, Hs. split; [rewrite Hc; reflexivity|].
  rewrite Hs, Hc. reflexivity.
Defined.

(** A page of three bytes of the log of job A from offset 1 ends at 4, of
    5. *)
Lemma getJobLogs_progress_witness :
  exists page,
    @getJobLogs demo_runtime "job_1000_1" (Some "stdout") (NumInt 1) (NumInt 3)
      demo_A_hello = ApiOk page /\
    page_offset page < page_nextOffset page <= page_totalSize page.
Proof.
  destruct (@getJobLogs demo_runtime "job_1000_1" (Some "stdout") (NumInt 1)
              (NumInt 3) demo_A_hello) as [page|cd m] eqn:H;
    [|vm_compute in H; discriminate H].
  exists page. split; [reflexivity|].
  destruct (@getJobLogs_progress demo_runtime _ _ _ _ _ _ H) as (_ & Hp & _).
  vm_compute in H. injection H as <-. apply Hp. simpl. lia.
Defined.

(** Job A keeps its identity when its child exits. *)
Lemma job_identity_kept_witness :
  exists c c',
    heap demo_A !! 0%nat = Some c /\
    heap (@step demo_runtime (demo_env 1005) (EvClose 0 (Some 0) None) demo_A)
      !! 0%nat = Some c' /\
    jobId (job c') = jobId (job c) /\ jobId (job c) = "job_1000_1".
Proof.
  destruct (heap demo_A !! 0%nat) as [c|] eqn:H; [|vm_compute in H; discriminate H].
  destruct (@job_identity_kept demo_runtime (demo_env 1005)
              (EvClose 0 (Some 0) None) demo_A 0%nat c H) as [c' [H' [Hid _]]].
  exists c, c'. split; [reflexivity|]. split; [exact H'|]. split; [exact Hid|].
  vm_compute in H. injection H as <-. reflexivity.
Defined.

(** The example runner after two submits still has one slot and knows
    script [ok]. *)
Lemma configuration_is_fixed_witness :
  maxConcurrent demo_AB = 1 /\ scriptMap demo_AB !! "ok" = Some demo_ok /\
  maxLogBytesPerStream demo_AB = 1024.
Proof.
  destruct (@configuration_is_fixed demo_runtime (demo_config (Some 1024)) demo_AB
              demo_AB_reachable) as (H1 & _ & _ & _ & H5 & _ & H7).
  split; [rewrite H1; reflexivity|].
  split; [rewrite H7; vm_compute; reflexivity|]. rewrite H5. reflexivity.
Defined.

(** Job B is found under its id. *)
Lemma getJob_finds_its_id_witness :
  exists snap,
    @getJob "job_1001_2" demo_AB = Some snap /\
    snap_jobId snap = Some "job_1001_2".
Proof.
  destruct (getJob "job_1001_2" demo_AB) as [snap|] eqn:H;
    [|vm_compute in H; discriminate H].
  exists snap. split; [reflexivity|].
  apply (@getJob_finds_its_id demo_runtime (demo_config (Some 1024)) demo_AB
           "job_1001_2" snap demo_AB_reachable H).
Defined.

(** The example runner is stopped with job A running and job B queued; a
    runner started at 2000 on the file it wrote knows both as [failed]. *)
Lemma restart_recovers_jobs_witness :
  persist_ok (demo_env 1003) = true /\
  snap_status <$>
    @getJob "job_1000_1"
      (@newScriptRunner demo_runtime (demo_config (Some 1024)) 2000
         (store (persistJobs (demo_env 1003) demo_AB)) ∅)
  = Some STATUS_FAILED /\
  snap_status <$>
    @getJob "job_1001_2"
      (@newScriptRunner demo_runtime (demo_config (Some 1024)) 2000
         (store (persistJobs (demo_env 1003) demo_AB)) ∅)
  = Some STATUS_FAILED.
Proof.
  split; [reflexivity|].
  rewrite !(@restart_recovers_jobs demo_runtime (demo_config (Some 1024))
              (demo_config (Some 1024)) demo_AB (demo_env 1003) 2000 ∅ _
              demo_AB_reachable eq_refl).
  split; vm_compute; reflexivity.
Defined.

(** Job B, queued, is in the queue, without a child. *)
Lemma queued_jobs_are_in_the_queue_witness :
  exists c,
    heap demo_AB !! 1%nat = Some c /\ status (job c) = STATUS_QUEUED /\
    1%nat ∈ (queue demo_AB).*1 /\ exec c = None.
Proof.
  destruct (heap demo_AB !! 1%nat) as [c|] eqn:H;
    [|vm_compute in H; discriminate H].
  destruct (@queued_jobs_are_in_the_queue demo_runtime (demo_config (Some 1024))
              demo_AB 1%nat c demo_AB_reachable H) as [[Hq _] Hex].
  assert (Hs : status (job c) = STATUS_QUEUED)
    by (vm_compute in H; injection H as <-; reflexivity).
  exists c. split; [reflexivity|]. split; [exact Hs|].
  destruct (Hq Hs) as [Hin _]. split; [exact Hin|]. exact (Hex Hin).
Defined.

(** Job B waits and the only slot is taken. *)
Lemma no_job_waits_for_a_free_slot_witness :
  queue demo_AB <> [] /\ runningCount demo_AB = maxConcurrent demo_AB.
Proof.
  assert (Hq : queue demo_AB <> []) by (vm_compute; discriminate).
  split; [exact Hq|].
  destruct (@no_job_waits_for_a_free_slot demo_runtime (demo_config (Some 1024))
              demo_AB demo_AB_reachable Hq) as [_ Heq].
  apply Heq. vm_compute. discriminate.
Defined.

(** Job A runs and has a child that has not ended. *)
Lemma running_iff_child_alive_witness :
  exists c e,
    heap demo_A !! 0%nat = Some c /\ status (job c) = STATUS_RUNNING /\
    exec c = Some e /\ finished e = false.
Proof.
  destruct (heap demo_A !! 0%nat) as [c|] eqn:H; [|vm_compute in H; discriminate H].
  destruct (@running_iff_child_alive demo_runtime (demo_config (Some 1024))
              demo_A 0%nat c demo_A_reachable H) as [_ Hquiet].
  destruct (Hquiet demo_A_quietly) as [Hlive _].
  assert (Hs : status (job c) = STATUS_RUNNING)
    by (vm_compute in H; injection H as <-; reflexivity).
  destruct (Hlive Hs) as [e [He Hf]].
  exists c, e. split; [reflexivity|]. by repeat split.
Defined.

(** Job A is canceled at 1002 and its child is killed at 1003. *)
Lemma cancel_of_a_running_job_witness :
  (cancelJob (demo_env 1002) "job_1000_1" demo_A).1.2 = [0%nat] /\
  exists j',
    job <$> heap (after (@onClose demo_runtime (demo_env 1003) 0 None
                           (Some "SIGTERM")
                           (cancelJob (demo_env 1002) "job_1000_1" demo_A).2))
              !! 0%nat = Some j' /\
    status j' = STATUS_CANCELED /\ code j' = Some (-1).
Proof.
  destruct (heap demo_A !! 0%nat) as [[j [e|]]|] eqn:H;
    try (vm_compute in H; discriminate H).
  destruct (@cancel_of_a_running_job demo_runtime (demo_config (Some 1024)) demo_A
              (demo_env 1002) (demo_env 1003) "job_1000_1" 0%nat _ None
              (Some "SIGTERM") demo_A_reachable eq_refl H)
    as (Hcancel & _ & Hclose).
  - vm_compute in H. injection H as <- <-. reflexivity.
  - split; [rewrite Hcancel; reflexivity|].
    destruct (Hclose e eq_refl) as [j' (Hj & Hs & Hc & _)].
    exists j'. split; [exact Hj|]. split; [|exact Hc].
    rewrite Hs. vm_compute in H. injection H as <- <-. reflexivity.
Defined.

(** The timer of job A fires and its child is killed. *)
Lemma timeout_of_a_running_job_witness :
  exists j',
    job <$> heap (after (@onClose demo_runtime (demo_env 2001) 0 None
                           (Some "SIGTERM") (@onTimeout 0 demo_A)))
              !! 0%nat = Some j' /\
    status j' = STATUS_TIMED_OUT /\ code j' = Some (-1).
Proof.
  destruct (heap demo_A !! 0%nat) as [[j [e|]]|] eqn:H;
    try (vm_compute in H; discriminate H).
  destruct (@timeout_of_a_running_job demo_runtime (demo_config (Some 1024)) demo_A
              (demo_env 2001) 0%nat j e None (Some "SIGTERM") demo_A_reachable H)
    as [_ Hfire].
  - vm_compute in H. injection H as <- <-. reflexivity.
  - destruct Hfire as [j' (Hj & Hs & Hc & _)].
    + vm_compute in H. injection H as <- <-. reflexivity.
    + exists j'. by repeat split.
Defined.

(** The child of job A exits; an [error] of the same child afterwards is
    ignored. *)
Lemma second_completion_is_ignored_witness :
  let st1 := @step demo_runtime (demo_env 1005) (EvClose 0 (Some 0) None) demo_A in
  let st2 := @step demo_runtime (demo_env 1006) (EvError 0 "late") st1 in
  job <$> heap st2 = job <$> heap st1 /\ runningCount st2 = runningCount st1.
Proof.
  destruct (@second_completion_is_ignored demo_runtime (demo_config (Some 1024))
              demo_A (demo_env 1005) (demo_env 1006) 0%nat
              (EvClose 0 (Some 0) None) (EvError 0 "late") demo_A_reachable
              eq_refl eq_refl) as (Hj & Hc & _).
  split; [exact Hj|exact Hc].
Defined.

(** The child of job A writes [hel] on stdout, [oops] on stderr (the write
    to the log fails), then [lo] on stdout; job B is submitted in between,
    A is canceled and its child is killed: A ends with [hello] as its
    stdout preview. *)
Lemma stdout_preview_is_tail_witness :
  let events :=
    [(demo_env 1001, EvData Stdout 0 (list_byte_of_string "hel") WriteOk);
     (demo_env 1002, demo_submit "slow" []);
     (demo_env 1003,
      EvData Stderr 0 (list_byte_of_string "oops") (WriteFails "EIO"));
     (demo_env 1004,
      EvData Stdout 0 (list_byte_of_string "lo") (WriteFails "EIO"));
     (demo_env 1005, EvCancel "job_1000_1");
     (demo_env 1006, EvClose 0 None (Some "SIGTERM"))] in
  exists j',
    job <$> heap (@run demo_runtime events demo_A) !! 0%nat = Some j' /\
    status j' = STATUS_CANCELED /\ stdoutPreview j' = "hello".
Proof.
  intros events.
  destruct (heap demo_A !! 0%nat) as [[j [e|]]|] eqn:H;
    try (vm_compute in H; discriminate H).
  destruct (@stdout_preview_is_tail demo_runtime (demo_config (Some 1024)) demo_A
              events 0%nat j e demo_A_reachable H)
    as (j' & e' & Hj & Hend & _ & Hp).
  - vm_compute in H. injection H as <- <-. reflexivity.
  - vm_compute in H. injection H as <- <-. reflexivity.
  - exists j'. split; [by rewrite Hj|].
    split; [vm_compute in Hj; injection Hj as <- _; reflexivity|].
    rewrite Hp.
    + vm_compute. reflexivity.
    + apply Hend. do 5 apply Exists_cons_tl. by apply Exists_cons_hd.
Defined.

(** Job B, canceled while queued, keeps what it reports when job A
    exits. *)
Lemma terminal_job_kept_witness :
  exists c c',
    heap demo_AB_canceled !! 1%nat = Some c /\
    is_terminal (status (job c)) = true /\
    heap demo_A_closed !! 1%nat = Some c' /\
    status (job c') = status (job c) /\ code (job c') = code (job c).
Proof.
  destruct (heap demo_AB_canceled !! 1%nat) as [c|] eqn:H;
    [|vm_compute in H; discriminate H].
  assert (Ht : is_terminal (status (job c)) = true)
    by (vm_compute in H; injection H as <-; reflexivity).
  destruct (@terminal_job_kept demo_runtime (demo_config (Some 1024))
              demo_AB_canceled (demo_env 1005) (EvClose 0 (Some 0) None) 1%nat c
              demo_AB_canceled_reachable H Ht) as [c' [Hc' [Hsame _]]].
  exists c, c'. split; [reflexivity|]. split; [exact Ht|].
  split; [exact Hc'|].
  destruct Hsame as (_ & _ & _ & _ & Hs & Hcd & _). by split.
Defined.

(** Job B, canceled while queued, is not started when job A exits and the
    slot is free. *)
Lemma canceled_before_start_never_runs_witness :
  exists c c',
    heap demo_AB_canceled !! 1%nat = Some c /\
    cancelRequested (job c) = true /\ exec c = None /\
    heap demo_A_closed !! 1%nat = Some c' /\
    exec c' = None /\ status (job c') <> STATUS_RUNNING.
Proof.
  destruct (heap demo_AB_canceled !! 1%nat) as [c|] eqn:H;
    [|vm_compute in H; discriminate H].
  assert (Hcr : cancelRequested (job c) = true)
    by (vm_compute in H; injection H as <-; reflexivity).
  assert (Hex : exec c = None)
    by (vm_compute in H; injection H as <-; reflexivity).
  destruct (@canceled_before_start_never_runs demo_runtime (demo_env 1005)
              (EvClose 0 (Some 0) None) demo_AB_canceled 1%nat c H Hcr Hex)
    as [c' (Hc' & _ & Hex' & Hs')].
  assert (Hidle : status (job c) <> STATUS_RUNNING)
    by (vm_compute in H; injection H as <-; discriminate).
  exists c, c'. do 5 (split; [done|]). by apply Hs'.
Defined.

(** [spawn] throws when job A is started: A is [running] without a child,
    and the [close] event of a child changes nothing. *)
Lemma unstarted_running_job_is_stuck_witness :
  exists c c',
    heap demo_A_unspawned !! 0%nat = Some c /\
    status (job c) = STATUS_RUNNING /\ exec c = None /\
    runningCount demo_A_unspawned = 1 /\
    heap (@step demo_runtime (demo_env 1005) (EvClose 0 (Some 0) None)
            demo_A_unspawned) !! 0%nat = Some c' /\
    status (job c') = STATUS_RUNNING /\ exec c' = None.
Proof.
  destruct (heap demo_A_unspawned !! 0%nat) as [c|] eqn:H;
    [|vm_compute in H; discriminate H].
  assert (Hs : status (job c) = STATUS_RUNNING)
    by (vm_compute in H; injection H as <-; reflexivity).
  assert (Hex : exec c = None)
    by (vm_compute in H; injection H as <-; reflexivity).
  destruct (@unstarted_running_job_is_stuck demo_runtime
              (demo_config (Some 1024)) demo_A_unspawned (demo_env 1005)
              (EvClose 0 (Some 0) None) 0%nat c demo_A_unspawned_reachable
              H Hs Hex) as [[c' (Hc' & Hs' & Hex' & _)] _].
  exists c, c'. by repeat split.
Defined.

(** The second submit of the example, the job store file not being
    writable: job B is queued all the same. *)
Lemma store_failure_changes_only_the_store_witness :
  forget_store demo_A = forget_store demo_A /\
  forget_store
    (@step demo_runtime (with_persist_ok false (demo_env 1001))
       (demo_submit "slow" []) demo_A)
  = forget_store demo_AB.
Proof.
  split; [reflexivity|].
  apply (@store_failure_changes_only_the_store demo_runtime (demo_env 1001)
           (demo_submit "slow" []) demo_A demo_A false eq_refl).
Defined.
